(** * A shallow embedding of the CppProlog core (src/src/prolog)

    Terms ([term.h]), substitutions ([Substitution], an
    [std::unordered_map<std::string, TermPtr>], here a [gmap string term]),
    unification ([unification.cpp]), clauses and the clause database
    ([clause.cpp], [database.cpp]), the built-in predicates
    ([builtin_predicates.cpp]) and the resolver ([resolver.cpp]).

    Recursion that the C++ code does not bound (following binding chains,
    re-applying a substitution, resolution) is given an explicit [fuel]
    argument: [None] stands for "the C++ call does not return" (it recurses
    forever / overflows the stack).  Doubles are Rocq's primitive binary64
    floats. *)

From Stdlib Require Import ZArith Bool Ascii.
From Stdlib Require PrimFloat SpecFloat FloatOps.
From stdpp Require Import base gmap strings list options pretty.

Open Scope Z_scope.

Abbreviation double := PrimFloat.float.

(* ------------------------------------------------------------------ *)
(** ** Terms (term.h) *)

#[local] Set Warnings "-register-all".
Inductive term : Type :=
| Atom (name : string)
| Var (name : string)
| Integer (value : Z)
| Float (value : double)
| Str (value : string)
| Compound (functor : string) (arguments : list term)
| List (elements : list term) (tail : option term).

Inductive TermType := ATOM | VARIABLE | COMPOUND | INTEGER | FLOAT | STRING | LIST.

Definition type (t : term) : TermType :=
  match t with
  | Atom _ => ATOM | Var _ => VARIABLE | Integer _ => INTEGER
  | Float _ => FLOAT | Str _ => STRING | Compound _ _ => COMPOUND
  | List _ _ => LIST
  end.

(** [Substitution = std::unordered_map<std::string, TermPtr>] *)
Abbreviation Substitution := (gmap string term).

(* ------------------------------------------------------------------ *)
(** ** Unification::applySubstitution *)

(** Walks the term; a bound variable is replaced by the substitution
    applied to its binding (recursively, with no cycle detection). *)
Fixpoint applySubstitution (fuel : nat) (subst : Substitution) (t : term)
  : option term :=
  match fuel with
  | O => None
  | S f =>
    match t with
    | Var v =>
        match subst !! v with
        | Some u => applySubstitution f subst u
        | None => Some t
        end
    | Compound fn args => Compound fn <$> mapM (applySubstitution f subst) args
    | List els tl =>
        els' ← mapM (applySubstitution f subst) els;
        tl' ← match tl with
              | Some x => Some <$> applySubstitution f subst x
              | None => Some None
              end;
        Some (List els' tl')
    | _ => Some t
    end
  end.

(** [Unification::dereference]: follow a variable's binding chain. *)
Fixpoint dereference (fuel : nat) (t : term) (subst : Substitution) : option term :=
  match fuel with
  | O => None
  | S f =>
    match t with
    | Var v =>
        match subst !! v with
        | Some u => dereference f u subst
        | None => Some t
        end
    | _ => Some t
    end
  end.

(** [Unification::occursCheck(var, term)]: purely syntactic, the
    substitution is not consulted. *)
Fixpoint occursCheck (var : string) (t : term) : bool :=
  match t with
  | Var v => String.eqb v var
  | Compound _ args => existsb (occursCheck var) args
  | List els tl =>
      existsb (occursCheck var) els
      || match tl with Some x => occursCheck var x | None => false end
  | _ => false
  end.

(** The loop [for i: if (!unifyInternal(a[i], b[i], subst)) return nullopt;]
    over argument / element vectors of equal length; [subst] is threaded
    (it is a mutable reference in the C++). *)
Fixpoint unifyPairs
    (u : term -> term -> Substitution -> option (bool * Substitution))
    (l1 l2 : list term) (subst : Substitution) : option (bool * Substitution) :=
  match l1, l2 with
  | a :: r1, b :: r2 =>
      match u a b subst with
      | None => None
      | Some (true, s') => unifyPairs u r1 r2 s'
      | Some (false, s') => Some (false, s')
      end
  | _, _ => Some (true, subst)
  end.

(** [Unification::unifyInternal(term1, term2, subst)]: the boolean is
    whether the returned optional has a value; the substitution is the
    value of the by-reference [subst] when the call returns. *)
Fixpoint unifyInternal (fuel : nat) (term1 term2 : term) (subst : Substitution)
  : option (bool * Substitution) :=
  match fuel with
  | O => None
  | S f =>
    t1 ← dereference f term1 subst;
    t2 ← dereference f term2 subst;
    match t1, t2 with
    | Var v1, Var v2 =>
        if String.eqb v1 v2 then Some (true, subst)
        else Some (true, <[v1 := t2]> subst)
    | Var v, _ =>
        if occursCheck v t2 then Some (false, subst)
        else Some (true, <[v := t2]> subst)
    | _, Var v =>
        if occursCheck v t1 then Some (false, subst)
        else Some (true, <[v := t1]> subst)
    | Atom a, Atom b => Some (String.eqb a b, subst)
    | Integer a, Integer b => Some (Z.eqb a b, subst)
    | Float a, Float b => Some (PrimFloat.eqb a b, subst)
    | Str a, Str b => Some (String.eqb a b, subst)
    | Compound f1 a1, Compound f2 a2 =>
        if String.eqb f1 f2 && Nat.eqb (length a1) (length a2)
        then unifyPairs (unifyInternal f) a1 a2 subst
        else Some (false, subst)
    | List e1 tl1, List e2 tl2 =>
        if Nat.eqb (length e1) (length e2) then
          match unifyPairs (unifyInternal f) e1 e2 subst with
          | None => None
          | Some (true, s') =>
              match tl1, tl2 with
              | Some x, Some y => unifyInternal f x y s'
              | None, None => Some (true, s')
              | _, _ => Some (false, s')
              end
          | Some (false, s') => Some (false, s')
          end
        else Some (false, subst)
    | _, _ => Some (false, subst)
    end
  end.

(** [Unification::unify(term1, term2, subst)]: the returned optional and the
    final value of the caller's [subst]. *)
Definition unify (fuel : nat) (term1 term2 : term) (subst : Substitution)
  : option (option Substitution * Substitution) :=
  match unifyInternal fuel term1 term2 subst with
  | None => None
  | Some (ok, s') => Some (if ok then Some s' else None, s')
  end.

(** [Unification::unify(term1, term2)] on a fresh substitution. *)
Definition unify0 (fuel : nat) (term1 term2 : term) : option (option Substitution) :=
  fst <$> unify fuel term1 term2 ∅.

(** [Unification::compose(s1, s2)]:
    [result = s1; for (v,t) in s2: result[v] = apply(t, s1);
     for (v,t) in result: t = apply(t, s2)].
    The two loops do not depend on the iteration order of the hash maps.
    If one of the applications does not return, neither does [compose]. *)
Definition compose (fuel : nat) (s1 s2 : Substitution) : option Substitution :=
  let step1 := map_imap (λ _ t, applySubstitution fuel s1 t) s2 in
  if decide (dom step1 = dom s2) then
    let result := step1 ∪ s1 in
    let step2 := map_imap (λ _ t, applySubstitution fuel s2 t) result in
    if decide (dom step2 = dom result) then Some step2 else None
  else None.

Example compose_test :
  compose 10 {[ "X" := Atom "a" ]} {[ "Y" := Var "X" ]}
  = Some (<[ "X" := Atom "a" ]> {[ "Y" := Atom "a" ]}).
Proof. vm_compute. reflexivity. Qed.

(* ------------------------------------------------------------------ *)
(** ** Doubles (IEEE binary64) as the C++ code uses them *)

Module Dbl.

(** [static_cast<double>(int64_t)]: round to nearest, ties to even. *)
Definition of_Z (z : Z) : double :=
  FloatOps.SF2Prim (SpecFloat.binary_normalize FloatOps.prec FloatOps.emax z 0 false).

(** [std::floor] *)
Definition floor (x : double) : double :=
  match FloatOps.Prim2SF x with
  | SpecFloat.S754_finite s m e =>
      if (0 <=? e) then x
      else
        let q := Z.shiftr (Zpos m) (- e) in
        let exact := Z.eqb (Z.shiftl q (- e)) (Zpos m) in
        if s then (if exact then of_Z (- q) else of_Z (- (q + 1)))
        else (if Z.eqb q 0 then PrimFloat.zero else of_Z q)
  | _ => x
  end.

(** [static_cast<int64_t>(double)] (truncation toward zero; only used on
    integral values inside the int64 range). *)
Definition trunc (x : double) : Z :=
  match FloatOps.Prim2SF x with
  | SpecFloat.S754_finite s m e =>
      let a := if (0 <=? e) then Z.shiftl (Zpos m) e else Z.shiftr (Zpos m) (- e) in
      if s then - a else a
  | _ => 0
  end.

(** [std::fmod] (exact remainder, sign of the dividend). *)
Definition fmod (x y : double) : double :=
  match FloatOps.Prim2SF x, FloatOps.Prim2SF y with
  | SpecFloat.S754_nan, _ | _, SpecFloat.S754_nan => PrimFloat.nan
  | SpecFloat.S754_infinity _, _ => PrimFloat.nan
  | _, SpecFloat.S754_zero _ => PrimFloat.nan
  | SpecFloat.S754_zero _, _ => x
  | SpecFloat.S754_finite _ _ _, SpecFloat.S754_infinity _ => x
  | SpecFloat.S754_finite sx mx ex, SpecFloat.S754_finite _ my ey =>
      let e := Z.min ex ey in
      let r := Z.modulo (Zpos mx * 2 ^ (ex - e)) (Zpos my * 2 ^ (ey - e)) in
      if Z.eqb r 0 then (if sx then PrimFloat.neg_zero else PrimFloat.zero)
      else FloatOps.SF2Prim
             (SpecFloat.binary_normalize FloatOps.prec FloatOps.emax
                (if sx then - r else r) e false)
  end.

(** Six-digit zero padding of [0 <= n < 10^6]. *)
Definition pad6 (n : Z) : string :=
  let s := pretty n in
  (String.concat "" (repeat "0" (6 - String.length s)%nat) +:+ s)%string.

(** [std::to_string(double)], i.e. [printf("%f")]: six decimals, the
    exact value rounded half to even. *)
Definition to_string (x : double) : string :=
  match FloatOps.Prim2SF x with
  | SpecFloat.S754_nan => "nan"
  | SpecFloat.S754_infinity s => if s then "-inf" else "inf"
  | SpecFloat.S754_zero s => if s then "-0.000000" else "0.000000"
  | SpecFloat.S754_finite s m e =>
      let n :=
        if (0 <=? e) then Zpos m * 2 ^ e * 10 ^ 6
        else
          let num := Zpos m * 10 ^ 6 in
          let den := 2 ^ (- e) in
          let q := num / den in
          let r := num mod den in
          if (den <? 2 * r) then q + 1
          else if (2 * r <? den) then q
          else if Z.even q then q else q + 1 in
      ((if s then "-" else "") +:+ pretty (n / 10 ^ 6) +:+ "." +:+ pad6 (n mod 10 ^ 6))%string
  end.

End Dbl.

Example dbl_floor_test :
  PrimFloat.eqb (Dbl.floor (PrimFloat.div (Dbl.of_Z (-7)) (Dbl.of_Z 2))) (Dbl.of_Z (-4)) = true.
Proof. vm_compute. reflexivity. Qed.

Example dbl_to_string_test : Dbl.to_string (PrimFloat.div (Dbl.of_Z 314) (Dbl.of_Z 100)) = "3.140000".
Proof. vm_compute. reflexivity. Qed.

Example dbl_fmod_test :
  PrimFloat.eqb (Dbl.fmod (Dbl.of_Z (-7)) (Dbl.of_Z 3)) (Dbl.of_Z (-1)) = true.
Proof. vm_compute. reflexivity. Qed.

(* ------------------------------------------------------------------ *)
(** ** [rand()] of the C library (glibc's default TYPE_3 generator, seeded
    with 1 at program start since nothing calls [srand]) *)

Module Rand.

(** The generator state: the last 31 words [r(i-31) .. r(i-1)] of the
    additive feedback sequence [r(i) = r(i-31) + r(i-3) mod 2^32]. *)
Record RandState := { window : list Z }.

(** [srandom_r]: [state[i] = 16807 * state[i-1] % 2147483647] (Schrage). *)
Definition lcg (r : Z) : Z :=
  let word := 16807 * Z.rem r 127773 - 2836 * Z.quot r 127773 in
  if word <? 0 then word + 2147483647 else word.

Fixpoint lcg_seq (n : nat) (r : Z) : list Z :=
  match n with O => [] | Datatypes.S k => r :: lcg_seq k (lcg r) end.

Definition step (w : list Z) : Z * list Z :=
  let v := Z.modulo (nth 0 w 0 + nth 28 w 0) (2 ^ 32) in (v, tl w ++ [v]).

Fixpoint discard (n : nat) (w : list Z) : list Z :=
  match n with O => w | Datatypes.S k => discard k (step w).2 end.

(** [srand(1)]: 31 words from the LCG, then 3 copies, then 310 discarded
    outputs. *)
Definition seeded (seed : Z) : RandState :=
  let r := lcg_seq 31 seed in
  {| window := discard 310 (skipn 3 (r ++ firstn 3 r)) |}.

Definition initial : RandState := seeded 1.

(** [rand()]: the next word shifted right by one. *)
Definition rand (st : RandState) : Z * RandState :=
  let '(v, w) := step (window st) in (Z.shiftr v 1, {| window := w |}).

End Rand.

Example rand_first_values :
  let '(a, st) := Rand.rand Rand.initial in
  let '(b, _) := Rand.rand st in (a, b) = (1804289383, 846930886).
Proof. vm_compute. reflexivity. Qed.

(* ------------------------------------------------------------------ *)
(** ** Clauses (clause.cpp) *)

Record Clause := makeRule { head : term; body : list term }.

Definition makeFact (h : term) : Clause := makeRule h [].

(** [renameTerm]: every variable [v] becomes [v ++ suffix]. *)
Fixpoint renameTerm (suffix : string) (t : term) : term :=
  match t with
  | Var v => Var (v +:+ suffix)
  | Compound f args => Compound f (map (renameTerm suffix) args)
  | List els tl => List (map (renameTerm suffix) els) (renameTerm suffix <$> tl)
  | _ => t
  end.

Definition rename (c : Clause) (suffix : string) : Clause :=
  makeRule (renameTerm suffix (head c)) (map (renameTerm suffix) (body c)).

(* ------------------------------------------------------------------ *)
(** ** The clause database (database.cpp) *)

Record Database := {
  clauses_ : list Clause;
  index_ : gmap string (list nat);
  first_arg_index_ : gmap string (list nat)
}.

Definition emptyDatabase : Database := {| clauses_ := []; index_ := ∅; first_arg_index_ := ∅ |}.

Definition makeKey (functor : string) (arity : nat) : string :=
  (functor +:+ "/" +:+ pretty arity)%string.

Definition extractFunctorArity (t : term) : string :=
  match t with
  | Atom a => makeKey a 0
  | Compound f args => makeKey f (length args)
  | _ => ""
  end.

Definition makeFirstArgKey (functor : string) (arity : nat) (first_arg : term) : string :=
  let base_key := makeKey functor arity in
  match first_arg with
  | Atom a => (base_key +:+ ":" +:+ a)%string
  | Integer z => (base_key +:+ ":" +:+ pretty z)%string
  | Float d => (base_key +:+ ":" +:+ Dbl.to_string d)%string
  | Str s => (base_key +:+ ":" +:+ String.String (Ascii.ascii_of_nat 34) (s +:+ String.String (Ascii.ascii_of_nat 34) ""))%string
  | Compound f args => (base_key +:+ ":" +:+ f +:+ "/" +:+ pretty (length args))%string
  | _ => ""
  end.

Definition extractFirstArgKey (h : term) : string :=
  match h with
  | Compound f (a :: rest) => makeFirstArgKey f (length (a :: rest)) a
  | _ => ""
  end.

(** [index_[key].push_back(i)] *)
Definition push_index (m : gmap string (list nat)) (key : string) (i : nat) : gmap string (list nat) :=
  <[key := default [] (m !! key) ++ [i]]> m.

Definition addClause (db : Database) (c : Clause) : Database :=
  let i := length (clauses_ db) in
  let key := extractFunctorArity (head c) in
  let fkey := extractFirstArgKey (head c) in
  {| clauses_ := clauses_ db ++ [c];
     index_ := push_index (index_ db) key i;
     first_arg_index_ :=
       if String.eqb fkey "" then first_arg_index_ db else push_index (first_arg_index_ db) fkey i |}.

Definition loadClauses (db : Database) (cs : list Clause) : Database := fold_left addClause cs db.

(** The clauses stored at the given indices ([clauses_[index]->clone()]). *)
Definition clausesAt (db : Database) (ix : list nat) : list Clause :=
  omap (λ i, clauses_ db !! i) ix.

Definition findMatchingClauses (db : Database) (goal : term) : list Clause :=
  clausesAt db (default [] (index_ db !! extractFunctorArity goal)).

Definition findClausesWithFirstArg (db : Database) (functor : string) (arity : nat) (first_arg : term) : list Clause :=
  clausesAt db (default [] (first_arg_index_ db !! makeFirstArgKey functor arity first_arg)).

Example first_arg_key_test :
  extractFirstArgKey (Compound "p" [Float (Dbl.of_Z 2); Atom "x"]) = "p/2:2.000000".
Proof. vm_compute. reflexivity. Qed.

(* ------------------------------------------------------------------ *)
(** ** Built-in predicates (builtin_predicates.cpp)

    A handler receives the arguments, the bindings (by mutable reference)
    and a callback.  What a handler does with the callback is one of:
    - [BFail]: returns [false] without calling it;
    - [BSols l]: calls it on each solution of [l] in order, returns [false]
      as soon as a call returns [false], and [true] otherwise (this is
      [return callback(solution)] when [l] has one element);
    - [BIgnore s]: calls it once on [s], ignores its answer and returns
      [true] (the [cut] handler). *)

Inductive BuiltinResult : Type :=
| BFail
| BSols (solutions : list Substitution)
| BIgnore (solution : Substitution).

Module Builtins.

Definition builtin_keys : list string :=
  [makeKey "is" 2; makeKey "+" 3; makeKey "-" 3; makeKey "*" 3; makeKey "/" 3;
   makeKey "=" 2; makeKey "\=" 2; makeKey "==" 2; makeKey "\==" 2;
   makeKey "<" 2; makeKey ">" 2; makeKey "=<" 2; makeKey ">=" 2;
   makeKey "append" 3; makeKey "member" 2; makeKey "length" 2;
   makeKey "var" 1; makeKey "nonvar" 1; makeKey "atom" 1; makeKey "number" 1;
   makeKey "integer" 1; makeKey "float" 1; makeKey "compound" 1; makeKey "ground" 1;
   makeKey "!" 0; makeKey "fail" 0; makeKey "true" 0; makeKey "\+" 1;
   makeKey "write" 1; makeKey "nl" 0].

Definition isBuiltin (functor : string) (arity : nat) : bool :=
  existsb (String.eqb (makeKey functor arity)) builtin_keys.

Definition isNumber (t : term) : bool :=
  match t with Integer _ | Float _ => true | _ => false end.

Definition getNumericValue (t : term) : double :=
  match t with Integer z => Dbl.of_Z z | Float d => d | _ => PrimFloat.zero end.

Definition int64_min : Z := - 2 ^ 63.
Definition int64_max : Z := 2 ^ 63 - 1.

(** The number term [unifyWithNumber] builds from a double. *)
Definition numberTerm (value : double) : term :=
  if PrimFloat.eqb (Dbl.floor value) value && PrimFloat.leb (Dbl.of_Z int64_min) value
     && PrimFloat.leb value (Dbl.of_Z int64_max)
  then Integer (Dbl.trunc value) else Float value.

(** Returns the success flag and the (mutated) bindings. *)
Definition unifyWithNumber (fuel : nat) (t : term) (value : double) (bindings : Substitution)
  : option (bool * Substitution) :=
  unifyInternal fuel t (numberTerm value) bindings.

Fixpoint isGround (t : term) : bool :=
  match t with
  | Var _ => false
  | Compound _ args => forallb isGround args
  | List els tl => forallb isGround els && (match tl with Some x => isGround x | None => true end)
  | _ => true
  end.

Fixpoint evaluateArithmeticExpression (fuel : nat) (expr : term) (bindings : Substitution)
  : option (option double) :=
  match fuel with
  | O => None
  | Datatypes.S f =>
      t ← applySubstitution f bindings expr;
      match t with
      | Integer _ | Float _ => Some (Some (getNumericValue t))
      | Compound functor [a; b] =>
          lv ← evaluateArithmeticExpression f a bindings;
          rv ← evaluateArithmeticExpression f b bindings;
          Some (match lv, rv with
                | Some l, Some r =>
                    if String.eqb functor "+" then Some (PrimFloat.add l r)
                    else if String.eqb functor "-" then Some (PrimFloat.sub l r)
                    else if String.eqb functor "*" then Some (PrimFloat.mul l r)
                    else if String.eqb functor "/" then
                      (if PrimFloat.eqb r PrimFloat.zero then None else Some (PrimFloat.div l r))
                    else if String.eqb functor "//" then
                      (if PrimFloat.eqb r PrimFloat.zero then None else Some (Dbl.floor (PrimFloat.div l r)))
                    else if String.eqb functor "mod" then
                      (if PrimFloat.eqb r PrimFloat.zero then None else Some (Dbl.fmod l r))
                    else None
                | _, _ => None
                end)
      | Compound functor [a] =>
          v ← evaluateArithmeticExpression f a bindings;
          Some (match v with
                | Some x =>
                    if String.eqb functor "-" then Some (PrimFloat.opp x)
                    else if String.eqb functor "abs" then Some (PrimFloat.abs x)
                    else None
                | None => None
                end)
      | _ => Some None
      end
  end.

(** [compareTerms]; the recursion is bounded by the size of both terms,
    which the source's recursion never exceeds. *)
Fixpoint term_size (t : term) : nat :=
  match t with
  | Compound _ args => Datatypes.S (list_sum (map term_size args))
  | List els tl => Datatypes.S (list_sum (map term_size els) + match tl with Some x => term_size x | None => 0 end)
  | _ => 1
  end.

Definition getTermOrder (t : term) : Z :=
  match t with
  | Var _ => 1 | Integer _ | Float _ => 2 | Atom _ => 3 | Str _ => 4 | Compound _ _ => 5 | List _ _ => 6
  end.

Definition str_compare (a b : string) : Z :=
  match String.compare a b with Lt => -1 | Eq => 0 | Gt => 1 end.

Fixpoint compareTermsF (n : nat) (l r : term) : Z :=
  match n with
  | O => 0
  | Datatypes.S k =>
      let lo := getTermOrder l in
      let ro := getTermOrder r in
      if negb (Z.eqb lo ro) then lo - ro else
      let fix args (xs ys : list term) : Z :=
        match xs, ys with
        | x :: xs', y :: ys' => let c := compareTermsF k x y in if Z.eqb c 0 then args xs' ys' else c
        | _, _ => 0
        end in
      let fix lex (xs ys : list term) : bool :=
        match xs, ys with
        | _, [] => false
        | [], _ :: _ => true
        | x :: xs', y :: ys' =>
            if compareTermsF k x y <? 0 then true
            else if compareTermsF k y x <? 0 then false else lex xs' ys'
        end in
      match l, r with
      | Var a, Var b | Atom a, Atom b | Str a, Str b => str_compare a b
      | Integer a, Integer b => if a <? b then -1 else if b <? a then 1 else 0
      | Float a, Float b => if PrimFloat.ltb a b then -1 else if PrimFloat.ltb b a then 1 else 0
      | Compound f1 a1, Compound f2 a2 =>
          let c := str_compare f1 f2 in
          if negb (Z.eqb c 0) then c
          else if negb (Nat.eqb (Datatypes.length a1) (Datatypes.length a2)) then
            (if Nat.ltb (Datatypes.length a1) (Datatypes.length a2) then -1 else 1)
          else args a1 a2
      | List e1 t1, List e2 t2 =>
          if lex e1 e2 then -1 else if lex e2 e1 then 1 else
          match t1, t2 with
          | Some x, Some y => compareTermsF k x y
          | Some _, None => 1
          | None, Some _ => -1
          | None, None => 0
          end
      (* An Integer against a Float: the source dereferences a null
         [as<Integer>()] / [as<Float>()] result (undefined behaviour). *)
      | _, _ => 0
      end
  end.

Definition compareTerms (l r : term) : Z := compareTermsF (term_size l + term_size r) l r.

(** [Term::equals] *)
Fixpoint equals (l r : term) : bool :=
  let fix all_equal (xs ys : list term) : bool :=
    match xs, ys with
    | x :: xs', y :: ys' => equals x y && all_equal xs' ys'
    | _, _ => true
    end in
  match l, r with
  | Atom a, Atom b | Var a, Var b | Str a, Str b => String.eqb a b
  | Integer a, Integer b => Z.eqb a b
  | Float a, Float b => PrimFloat.eqb a b
  | Compound f1 a1, Compound f2 a2 =>
      String.eqb f1 f2 && Nat.eqb (Datatypes.length a1) (Datatypes.length a2) && all_equal a1 a2
  | List e1 t1, List e2 t2 =>
      Nat.eqb (Datatypes.length e1) (Datatypes.length e2) && all_equal e1 e2
      && match t1, t2 with
         | Some x, Some y => equals x y
         | None, None => true
         | _, _ => false
         end
  | _, _ => false
  end.

(** The handlers.  Each takes the fuel bounding its calls of
    [applySubstitution] and [unify]; [None] means one of them does not
    return. *)

Section Handlers.

Variable fuel : nat.

Definition apply (bindings : Substitution) (t : term) : option term :=
  applySubstitution fuel bindings t.

(** [is/2] *)
Definition is (args : list term) (bindings : Substitution) : option BuiltinResult :=
  match args with
  | [a0; a1] =>
      left ← apply bindings a0;
      right ← apply bindings a1;
      result ← evaluateArithmeticExpression fuel right bindings;
      match result with
      | None => Some BFail
      | Some v =>
          r ← unifyWithNumber fuel left v bindings;
          let (ok, bindings') := (r : bool * Substitution) in
          Some (if ok then BSols [bindings'] else BFail)
      end
  | _ => Some BFail
  end.

(** [add], [subtract], [multiply], [divide] (3-argument forms). *)
Definition arith3 (op : double -> double -> double) (zero_fails : bool)
    (args : list term) (bindings : Substitution) : option BuiltinResult :=
  match args with
  | [a0; a1; a2] =>
      arg1 ← apply bindings a0;
      arg2 ← apply bindings a1;
      result ← apply bindings a2;
      if negb (isNumber arg1) || negb (isNumber arg2) then Some BFail else
      let val1 := getNumericValue arg1 in
      let val2 := getNumericValue arg2 in
      if zero_fails && PrimFloat.eqb val2 PrimFloat.zero then Some BFail else
      r ← unifyWithNumber fuel result (op val1 val2) bindings;
          let (ok, bindings') := (r : bool * Substitution) in
      Some (if ok then BSols [bindings'] else BFail)
  | _ => Some BFail
  end.

Definition add := arith3 PrimFloat.add false.
Definition subtract := arith3 PrimFloat.sub false.
Definition multiply := arith3 PrimFloat.mul false.
Definition divide := arith3 PrimFloat.div true.

(** [=/2] *)
Definition equal (args : list term) (bindings : Substitution) : option BuiltinResult :=
  match args with
  | [a0; a1] =>
      left ← apply bindings a0;
      right ← apply bindings a1;
      r ← unify fuel left right bindings;
          let u := (r.1 : option Substitution) in
      Some (match u with Some s => BSols [s] | None => BFail end)
  | _ => Some BFail
  end.

(** [\=/2]: on failure the callback receives the bindings as [unify] left
    them. *)
Definition notEqual (args : list term) (bindings : Substitution) : option BuiltinResult :=
  match args with
  | [a0; a1] =>
      left ← apply bindings a0;
      right ← apply bindings a1;
      r ← unify fuel left right bindings;
      let (u, bindings') := (r : option Substitution * Substitution) in
      Some (match u with Some _ => BFail | None => BSols [bindings'] end)
  | _ => Some BFail
  end.

(** The handlers that test the instantiated arguments and, on success, pass
    the bindings unchanged: [==], [\==], [<], [>], [=<], [>=] (two
    arguments) and the type checks (one argument). *)
Definition test2 (p : term -> term -> bool) (args : list term) (bindings : Substitution)
  : option BuiltinResult :=
  match args with
  | [a0; a1] =>
      left ← apply bindings a0;
      right ← apply bindings a1;
      Some (if p left right then BSols [bindings] else BFail)
  | _ => Some BFail
  end.

Definition test1 (p : term -> bool) (args : list term) (bindings : Substitution)
  : option BuiltinResult :=
  match args with
  | [a0] => t ← apply bindings a0; Some (if p t then BSols [bindings] else BFail)
  | _ => Some BFail
  end.

Definition strictEqual := test2 equals.
Definition strictNotEqual := test2 (λ l r, negb (equals l r)).
Definition lessThan := test2 (λ l r, compareTerms l r <? 0).
Definition greaterThan := test2 (λ l r, 0 <? compareTerms l r).
Definition lessEqual := test2 (λ l r, compareTerms l r <=? 0).
Definition greaterEqual := test2 (λ l r, 0 <=? compareTerms l r).

Definition var := test1 (λ t, match t with Var _ => true | _ => false end).
Definition nonvar := test1 (λ t, match t with Var _ => false | _ => true end).
Definition atom := test1 (λ t, match t with Atom _ => true | _ => false end).
Definition number := test1 isNumber.
Definition integer := test1 (λ t, match t with Integer _ => true | _ => false end).
Definition float_check := test1 (λ t, match t with Float _ => true | _ => false end).
Definition compound := test1 (λ t, match t with Compound _ _ => true | _ => false end).
Definition ground := test1 isGround.
(** [write/1] prints its argument (output not modelled) and succeeds. *)
Definition write := test1 (λ _, true).

(** [append/3] *)
Definition append (args : list term) (bindings : Substitution) : option BuiltinResult :=
  match args with
  | [a0; a1; a2] =>
      list1 ← apply bindings a0;
      list2 ← apply bindings a1;
      result ← apply bindings a2;
      match list1, list2 with
      | List l1 _, List l2 _ =>
          r ← unify fuel result (List (l1 ++ l2) None) bindings;
          let u := (r.1 : option Substitution) in
          Some (match u with Some s => BSols [s] | None => BFail end)
      | _, _ => Some BFail
      end
  | _ => Some BFail
  end.

(** [member/2]: every element is tried on a fresh copy of the bindings. *)
Definition member (args : list term) (bindings : Substitution) : option BuiltinResult :=
  match args with
  | [a0; a1] =>
      element ← apply bindings a0;
      lst ← apply bindings a1;
      match lst with
      | List els _ =>
          us ← mapM (λ e, fst <$> unify fuel element e bindings) els;
          Some (BSols (omap id us))
      | _ => Some BFail
      end
  | _ => Some BFail
  end.

(** [length/2] *)
Definition length (args : list term) (bindings : Substitution) : option BuiltinResult :=
  match args with
  | [a0; a1] =>
      list_term ← apply bindings a0;
      length_term ← apply bindings a1;
      match list_term, length_term with
      | List els _, _ =>
          r ← unifyWithNumber fuel length_term
                               (Dbl.of_Z (Z.of_nat (Datatypes.length els))) bindings;
          let (ok, bindings') := (r : bool * Substitution) in
          Some (if ok then BSols [bindings'] else BFail)
      | _, Integer n =>
          match list_term with
          | Var _ =>
              if 0 <=? n then
                let generated := List (map (λ i, Var ("_G" +:+ pretty i)%string) (seq 0 (Z.to_nat n))) None in
                r ← unify fuel list_term generated bindings;
          let u := (r.1 : option Substitution) in
                Some (match u with Some s => BSols [s] | None => BFail end)
              else Some BFail
          | _ => Some BFail
          end
      | _, _ => Some BFail
      end
  | _ => Some BFail
  end.

Definition cut (args : list term) (bindings : Substitution) : option BuiltinResult :=
  Some (BIgnore bindings).
Definition fail (args : list term) (bindings : Substitution) : option BuiltinResult :=
  Some BFail.
Definition true_pred (args : list term) (bindings : Substitution) : option BuiltinResult :=
  Some (BSols [bindings]).
Definition nl (args : list term) (bindings : Substitution) : option BuiltinResult :=
  match args with [] => Some (BSols [bindings]) | _ => Some BFail end.

End Handlers.

(** Whether a handler called its callback at least once. *)
Definition called_back (r : BuiltinResult) : bool :=
  match r with BFail | BSols [] => false | _ => true end.

(** [not_provable] ([\+/1]): only a built-in inner goal is tried (through
    [callBuiltin], here the parameter [call]), on a copy of the bindings, with
    a callback that records a success and stops; any other goal makes
    [\+] fail. *)
Definition not_provable
    (call : string -> nat -> list term -> Substitution -> option BuiltinResult)
    (fuel : nat) (args : list term) (bindings : Substitution) : option BuiltinResult :=
  match args with
  | [a0] =>
      goal ← apply fuel bindings a0;
      match goal with
      | Compound fn gargs =>
          if isBuiltin fn (Datatypes.length gargs) then
            r ← call fn (Datatypes.length gargs) gargs bindings;
            Some (if called_back r then BFail else BSols [bindings])
          else Some BFail
      | Atom a =>
          if isBuiltin a 0%nat then
            r ← call a 0%nat [] bindings;
            Some (if called_back r then BFail else BSols [bindings])
          else Some BFail
      | _ => Some BFail
      end
  | _ => Some BFail
  end.

(** [callBuiltin] *)
Fixpoint callBuiltin (fuel : nat) (functor : string) (arity : nat) (args : list term)
    (bindings : Substitution) : option BuiltinResult :=
  match fuel with
  | O => None
  | Datatypes.S f =>
      let k := makeKey functor arity in
      let table : list (string * (list term -> Substitution -> option BuiltinResult)) :=
        [(makeKey "is" 2, is f); (makeKey "+" 3, add f); (makeKey "-" 3, subtract f);
         (makeKey "*" 3, multiply f); (makeKey "/" 3, divide f);
         (makeKey "=" 2, equal f); (makeKey "\=" 2, notEqual f);
         (makeKey "==" 2, strictEqual f); (makeKey "\==" 2, strictNotEqual f);
         (makeKey "<" 2, lessThan f); (makeKey ">" 2, greaterThan f);
         (makeKey "=<" 2, lessEqual f); (makeKey ">=" 2, greaterEqual f);
         (makeKey "append" 3, append f); (makeKey "member" 2, member f);
         (makeKey "length" 2, length f);
         (makeKey "var" 1, var f); (makeKey "nonvar" 1, nonvar f); (makeKey "atom" 1, atom f);
         (makeKey "number" 1, number f); (makeKey "integer" 1, integer f);
         (makeKey "float" 1, float_check f); (makeKey "compound" 1, compound f);
         (makeKey "ground" 1, ground f);
         (makeKey "!" 0, cut); (makeKey "fail" 0, fail); (makeKey "true" 0, true_pred);
         (makeKey "\+" 1, not_provable (callBuiltin f) f);
         (makeKey "write" 1, write f); (makeKey "nl" 0, nl)] in
      match List.find (λ e, String.eqb e.1 k) table with
      | Some (_, handler) => handler args bindings
      | None => Some BFail
      end
  end.

End Builtins.

(* ------------------------------------------------------------------ *)
(** ** The resolver (resolver.cpp)

    The mutable members [current_depth_] and [termination_requested_], the
    C library's [rand()] state (global to the process), and the sequence of
    bindings handed to the user callback, threaded through a state monad;
    [None] means the call does not return within the fuel. *)

Record RState := mkRState {
  current_depth_ : nat;
  termination_requested_ : bool;
  rng : Rand.RandState;
  delivered : list Substitution
}.

Definition M (A : Type) : Type := RState -> option (A * RState).
Definition mret {A} (a : A) : M A := λ st, Some (a, st).
Definition mbind {A B} (m : M A) (k : A -> M B) : M B :=
  λ st, match m st with None => None | Some (a, st') => k a st' end.
Definition lift {A} (o : option A) : M A :=
  λ st, match o with None => None | Some a => Some (a, st) end.
Definition get : M RState := λ st, Some (st, st).
Definition put (st : RState) : M unit := λ _, Some (tt, st).

Notation "'let*' x := m 'in' k" := (mbind m (λ x, k))
  (at level 200, x name, m at level 100, k at level 200).

Definition set_depth (d : nat) (st : RState) : RState :=
  mkRState d (termination_requested_ st) (rng st) (delivered st).

Definition decr_depth : M unit := λ st, Some (tt, set_depth (pred (current_depth_ st)) st).

(** The goal as a built-in call: [Some (functor, args)] when the resolver
    hands it to [callBuiltin]. *)
Definition builtinGoal (goal : term) : option (string * list term) :=
  match goal with
  | Compound fn args => if Builtins.isBuiltin fn (length args) then Some (fn, args) else None
  | Atom a => if Builtins.isBuiltin a 0 then Some (a, []) else None
  | _ => None
  end.

Section Resolver.

Variable database_ : Database.
Variable max_depth_ : nat.
(** The user callback's answer (whether to continue). *)
Variable callback : Substitution -> bool.

Fixpoint solveGoals (fuel : nat) (goals : list term) (bindings : Substitution)
    (parent_cut_level : nat) : M Z :=
  match fuel with
  | O => λ _, None
  | Datatypes.S f =>
      let* st := get in
      if Nat.ltb max_depth_ (current_depth_ st) then mret (-1) else
      match goals with
      | [] =>
          let continue_search := callback bindings in
          let* _ := put (mkRState (current_depth_ st)
                           (if continue_search then termination_requested_ st else true)
                           (rng st) (delivered st ++ [bindings])) in
          mret (if continue_search then 0 else -1)
      | g :: rest =>
          let* current_goal := lift (applySubstitution f bindings g) in
          let* remaining_goals := lift (mapM (applySubstitution f bindings) rest) in
          (* the builtin callback: continue with the remaining goals *)
          let fix run_callbacks (sols : list Substitution) (result : Z) : M Z :=
            match sols with
            | [] => mret result
            | s :: sols' =>
                let* sub_result := solveGoals f remaining_goals s parent_cut_level in
                if (0 <=? sub_result) then
                  (if Z.eqb sub_result 0 then run_callbacks sols' sub_result else mret (-1))
                else mret (-1)
            end in
          let clause_cut_level := current_depth_ st in
          let fix try_clauses (cls : list Clause) (result : Z) : M Z :=
            match cls with
            | [] => mret result
            | clause :: cls' =>
                let* st0 := get in
                if termination_requested_ st0 then mret result else
                let d := Datatypes.S (current_depth_ st0) in
                if Nat.ltb max_depth_ d then mret result else
                let '(rnd, rng') := Rand.rand (rng st0) in
                let* _ := put (mkRState d (termination_requested_ st0) rng' (delivered st0)) in
                let suffix := ("_" +:+ pretty d +:+ "_" +:+ pretty rnd)%string in
                let renamed_clause := rename clause suffix in
                let* unification_result := lift (unify0 f current_goal (head renamed_clause)) in
                match unification_result with
                | None => let* _ := decr_depth in try_clauses cls' result
                | Some u =>
                    let* new_bindings := lift (compose f bindings u) in
                    let* body' := lift (mapM (applySubstitution f u) (body renamed_clause)) in
                    let* sub_result := solveGoals f (body' ++ remaining_goals) new_bindings clause_cut_level in
                    if (0 <=? sub_result) then
                      (if Z.eqb sub_result 1 then let* _ := decr_depth in mret 0
                       else let* _ := decr_depth in try_clauses cls' 0)
                    else let* _ := decr_depth in try_clauses cls' result
                end
            end in
          let dispatch : M Z :=
            match builtinGoal current_goal with
            | Some (fn, args) =>
                let* builtin_result := lift (Builtins.callBuiltin f fn (length args) args bindings) in
                match builtin_result with
                | BFail => mret (-1)
                | BSols sols => run_callbacks sols (-1)
                | BIgnore s =>
                    let* sub_result := solveGoals f remaining_goals s parent_cut_level in
                    mret (if (0 <=? sub_result) then sub_result else -1)
                end
            | None =>
                match findMatchingClauses database_ current_goal with
                | [] => mret (-1)
                | matching_clauses => try_clauses matching_clauses (-1)
                end
            end in
          match current_goal with
          | Atom "!" =>
              let* r := solveGoals f remaining_goals bindings parent_cut_level in
              mret (if (0 <=? r) then 1 else r)
          | _ => dispatch
          end
      end
  end.

End Resolver.

(** [collectVariablesFromTerm]: variable names in order of first occurrence. *)
Fixpoint collectVariables (t : term) (acc : list string) : list string :=
  let fix collect_list (ts : list term) (acc : list string) : list string :=
    match ts with [] => acc | x :: xs => collect_list xs (collectVariables x acc) end in
  match t with
  | Var v => if existsb (String.eqb v) acc then acc else acc ++ [v]
  | Compound _ args => collect_list args acc
  | List els tl =>
      let acc' := collect_list els acc in
      match tl with Some x => collectVariables x acc' | None => acc' end
  | _ => acc
  end.

Definition collectVariablesFromTerm (t : term) : list string := collectVariables t [].

Definition filterBindings (bindings : Substitution) (queryVariables : list string) : Substitution :=
  fold_left (λ filtered varName,
               match bindings !! varName with
               | Some t => <[varName := t]> filtered
               | None => filtered
               end) queryVariables ∅.

Definition default_max_depth : nat := 1000.

(** [Resolver(db).solve(query)] with the C library's generator in state
    [r]: the solutions (each filtered to the query's variables) and the
    generator's state afterwards.  The callback always continues. *)
Definition solve (fuel : nat) (db : Database) (query : term) (r : Rand.RandState)
  : option (list Substitution * Rand.RandState) :=
  let queryVariables := collectVariablesFromTerm query in
  match solveGoals db default_max_depth (λ _, true) fuel [query] ∅ 0 (mkRState 0 false r []) with
  | None => None
  | Some (_, st) => Some (map (λ s, filterBindings s queryVariables) (delivered st), rng st)
  end.

(** A fresh [Resolver(db).solve(query)] in a process that has not called
    [rand()] before. *)
Definition solve0 (fuel : nat) (db : Database) (query : term) : option (list Substitution) :=
  fst <$> solve fuel db query Rand.initial.

(* ------------------------------------------------------------------ *)
(** ** Printing terms, clauses and the database ([toString] in term.h,
    clause.h and database.cpp) *)

Definition dquote_char : Ascii.ascii := Ascii.ascii_of_nat 34.
Definition backslash_char : Ascii.ascii := Ascii.ascii_of_nat 92.
Definition newline_char : Ascii.ascii := Ascii.ascii_of_nat 10.
Definition dquote : string := String.String dquote_char EmptyString.
Definition newline : string := String.String newline_char EmptyString.

(** [Term::toString]; integers with [std::to_string(int64_t)], doubles
    with [std::to_string(double)]. *)
Fixpoint toString (t : term) : string :=
  match t with
  | Atom name => name
  | Var name => name
  | Integer value => pretty value
  | Float value => Dbl.to_string value
  | Str value => (dquote +:+ value +:+ dquote)%string
  | Compound functor arguments =>
      match arguments with
      | [] => functor
      | _ => (functor +:+ "(" +:+ String.concat ", " (map toString arguments) +:+ ")")%string
      end
  | List elements tail =>
      ("[" +:+ String.concat ", " (map toString elements)
           +:+ (match tail with Some x => " | " +:+ toString x | None => "" end) +:+ "]")%string
  end.

(** [Clause::toString] *)
Definition clauseToString (c : Clause) : string :=
  (toString (head c)
     +:+ (match body c with [] => "" | b => " :- " +:+ String.concat ", " (map toString b) end)
     +:+ ".")%string.

(** [Database::toString]: every clause followed by a newline. *)
Definition databaseToString (db : Database) : string :=
  String.concat "" (map (λ c, clauseToString c +:+ newline)%string (clauses_ db)).

(* ------------------------------------------------------------------ *)
(** ** The lexer (parser.cpp, [Lexer])

    The lexer's state [position_] is represented by the part of the input
    from [position_] on; [position_] itself is the input length minus the
    length of that suffix.  [peek()] is the first character of the suffix.
    The character classes are those of [<cctype>] in the "C" locale. *)

Module Token.
Inductive TokenType :=
  ATOM | VARIABLE | INTEGER | FLOAT | STRING | LPAREN | RPAREN | LBRACKET | RBRACKET
| DOT | COMMA | PIPE | RULE_OP | OPERATOR | END_OF_INPUT | INVALID.

#[global] Instance TokenType_eq_dec : EqDecision TokenType.
Proof. solve_decision. Defined.

Record Token := mkToken { type : TokenType; value : string; position : nat }.
End Token.

Definition code (c : Ascii.ascii) : nat := Ascii.nat_of_ascii c.

Definition islower (c : Ascii.ascii) : bool := (97 <=? code c)%nat && (code c <=? 122)%nat.
Definition isupper (c : Ascii.ascii) : bool := (65 <=? code c)%nat && (code c <=? 90)%nat.
Definition isdigit (c : Ascii.ascii) : bool := (48 <=? code c)%nat && (code c <=? 57)%nat.
Definition isalnum (c : Ascii.ascii) : bool := islower c || isupper c || isdigit c.
Definition isspace (c : Ascii.ascii) : bool :=
  (code c =? 32)%nat || ((9 <=? code c)%nat && (code c <=? 13)%nat).

Definition isAtomStart (c : Ascii.ascii) : bool := islower c || Ascii.eqb c "_"%char.
Definition isAtomChar (c : Ascii.ascii) : bool := isalnum c || Ascii.eqb c "_"%char.
Definition isVariableStart (c : Ascii.ascii) : bool := isupper c || Ascii.eqb c "_"%char.
Definition isVariableChar (c : Ascii.ascii) : bool := isalnum c || Ascii.eqb c "_"%char.
Definition isDigit (c : Ascii.ascii) : bool := isdigit c.
Definition isWhitespace (c : Ascii.ascii) : bool := isspace c.

Fixpoint skipWhitespace (s : string) : string :=
  match s with
  | String.String c s' => if isWhitespace c then skipWhitespace s' else s
  | EmptyString => s
  end.

(** Up to and including the next newline. *)
Fixpoint skipComment (s : string) : string :=
  match s with
  | String.String c s' => if Ascii.eqb c newline_char then s' else skipComment s'
  | EmptyString => EmptyString
  end.

(** The loops of [readAtom] and [readVariable]: the characters read and
    the input left. *)
Fixpoint readWhile (p : Ascii.ascii -> bool) (s : string) : string * string :=
  match s with
  | String.String c s' =>
      if p c then let '(v, r) := readWhile p s' in (String.String c v, r) else (EmptyString, s)
  | EmptyString => (EmptyString, EmptyString)
  end.

Definition readAtom (s : string) : string * string := readWhile isAtomChar s.
Definition readVariable (s : string) : string * string := readWhile isVariableChar s.

Fixpoint readNumber (has_dot : bool) (s : string) : string * string :=
  match s with
  | String.String c s' =>
      if isDigit c then let '(v, r) := readNumber has_dot s' in (String.String c v, r)
      else if Ascii.eqb c "."%char && negb has_dot then
        let '(v, r) := readNumber true s' in (String.String c v, r)
      else (EmptyString, s)
  | EmptyString => (EmptyString, EmptyString)
  end.

(** The escape sequences of [readString]. *)
Definition escape (e : Ascii.ascii) : Ascii.ascii :=
  if Ascii.eqb e "n"%char then newline_char
  else if Ascii.eqb e "t"%char then Ascii.ascii_of_nat 9
  else if Ascii.eqb e "r"%char then Ascii.ascii_of_nat 13
  else e.

(** The loop of [readString] and the closing quote, when there is one. *)
Fixpoint readStringChars (s : string) : string * string :=
  match s with
  | String.String c s' =>
      if Ascii.eqb c dquote_char then (EmptyString, s')
      else if Ascii.eqb c backslash_char then
        match s' with
        | String.String e s'' => let '(v, r) := readStringChars s'' in (String.String (escape e) v, r)
        | EmptyString => (String.String c EmptyString, EmptyString)
        end
      else let '(v, r) := readStringChars s' in (String.String c v, r)
  | EmptyString => (EmptyString, EmptyString)
  end.

(** [readString]: skips the opening quote. *)
Definition readString (s : string) : string * string :=
  match s with
  | String.String _ s' => readStringChars s'
  | EmptyString => (EmptyString, EmptyString)
  end.

Definition has_dot (v : string) : bool := existsb (Ascii.eqb "."%char) (String.list_ascii_of_string v).

(** One iteration of the [while] loop of [tokenize] on the input left [s]
    ([len] is the length of the whole input): [None] when only whitespace is
    left (the loop stops), otherwise the token pushed ([None] for a comment)
    and the input left after it. *)
Definition scan (len : nat) (s : string) : option (option Token.Token * string) :=
  match skipWhitespace s with
  | EmptyString => None
  | String.String c r as s1 =>
      let start_pos := (len - String.length s1)%nat in
      let tok ty v := Some (Token.mkToken ty v start_pos) in
      Some
      (if Ascii.eqb c "%"%char then (None, skipComment s1)
       else if Ascii.eqb c "("%char then (tok Token.LPAREN "(", r)
       else if Ascii.eqb c ")"%char then (tok Token.RPAREN ")", r)
       else if Ascii.eqb c "["%char then (tok Token.LBRACKET "[", r)
       else if Ascii.eqb c "]"%char then (tok Token.RBRACKET "]", r)
       else if Ascii.eqb c "."%char then (tok Token.DOT ".", r)
       else if Ascii.eqb c ","%char then (tok Token.COMMA ",", r)
       else if Ascii.eqb c "|"%char then (tok Token.PIPE "|", r)
       else if Ascii.eqb c ":"%char then
         match r with
         | String.String d r' =>
             if Ascii.eqb d "-"%char then (tok Token.RULE_OP ":-", r') else (tok Token.INVALID ":", r)
         | EmptyString => (tok Token.INVALID ":", r)
         end
       else if Ascii.eqb c dquote_char then
         let '(v, r') := readString s1 in (tok Token.STRING v, r')
       else if isAtomStart c then
         let '(v, r') := readAtom s1 in (tok Token.ATOM v, r')
       else if isVariableStart c then
         let '(v, r') := readVariable s1 in (tok Token.VARIABLE v, r')
       else if isDigit c then
         let '(v, r') := readNumber false s1 in
         (tok (if has_dot v then Token.FLOAT else Token.INTEGER) v, r')
       else (tok Token.INVALID (String.String c EmptyString), r))
  end.

(** The loop; every iteration consumes at least one character, so the
    fuel [S (String.length s)] given by [tokenize] is never exhausted. *)
Fixpoint lex (fuel len : nat) (s : string) : list Token.Token :=
  match fuel with
  | O => []
  | S f =>
      match scan len s with
      | None => [Token.mkToken Token.END_OF_INPUT "" len]
      | Some (Some tk, r) => tk :: lex f len r
      | Some (None, r) => lex f len r
      end
  end.

Definition tokenize (input : string) : list Token.Token :=
  lex (S (String.length input)) (String.length input) input.

(* ------------------------------------------------------------------ *)
(** ** The parser (parser.cpp, [Parser])

    The parser's state is [current_], an index into [tokens_].  A parsing
    function returns the value and the new [current_], or the exception it
    throws; [PStuck] is for an exhausted fuel (the recursion depth is
    bounded by the number of tokens, see [term_fuel]) and for the
    out-of-range access [tokens_[current_ - 1]] of [advance] at index 0,
    which the parser never performs. *)

Inductive Exn : Type :=
| ParseException (message : string)
| OutOfRange (what : string)
| RuntimeError (what : string).

Inductive PResult (A : Type) : Type :=
| POk (a : A) (current_ : nat)
| PErr (e : Exn)
| PStuck.
Arguments POk {A} a current_.
Arguments PErr {A} e.
Arguments PStuck {A}.

Definition P (A : Type) : Type := nat -> PResult A.
Definition pret {A} (a : A) : P A := λ n, POk a n.
Definition pthrow {A} (e : Exn) : P A := λ _, PErr e.
Definition pbind {A B} (m : P A) (k : A -> P B) : P B :=
  λ n, match m n with POk a n' => k a n' | PErr e => PErr e | PStuck => PStuck end.

Notation "'let+' x := m 'in' k" := (pbind m (λ x, k))
  (at level 200, x name, m at level 100, k at level 200).

(** [std::stoll] on an [INTEGER] token (a nonempty string of decimal
    digits): throws [std::out_of_range] above the [int64_t] range. *)
Fixpoint digits_value (acc : Z) (s : string) : Z :=
  match s with
  | String.String c s' => digits_value (10 * acc + (Z.of_nat (code c) - 48)) s'
  | EmptyString => acc
  end.

Definition stoll (value : string) : option Z :=
  let z := digits_value 0 value in if Builtins.int64_max <? z then None else Some z.

Section Parser.

(** [std::stod] on a [FLOAT] token, [None] when it throws
    [std::out_of_range]. *)
Variable stod : string -> option double.
Variable tokens_ : list Token.Token.

Definition isAtEnd (current_ : nat) : bool :=
  match tokens_ !! current_ with
  | None => true
  | Some tk => bool_decide (Token.type tk = Token.END_OF_INPUT)
  end.

Definition check (type : Token.TokenType) (current_ : nat) : bool :=
  if isAtEnd current_ then false
  else match tokens_ !! current_ with
       | Some tk => bool_decide (Token.type tk = type)
       | None => false
       end.

Definition advance : P Token.Token := λ current_,
  let c := if isAtEnd current_ then current_ else S current_ in
  match c with
  | O => PStuck
  | S k => match tokens_ !! k with Some tk => POk tk c | None => PStuck end
  end.

Definition match_ (type : Token.TokenType) : P bool := λ current_,
  if check type current_ then (let+ _ := advance in pret true) current_ else POk false current_.

Definition error {A} (message : string) : P A := λ current_,
  PErr (ParseException
    ("Parse error at position "
       +:+ pretty (if isAtEnd current_ then length tokens_
                   else default 0%nat (Token.position <$> tokens_ !! current_))
       +:+ ": " +:+ message)%string).

(** [parseTerm], [parseCompoundOrAtom], [parseList], [parseArguments] and
    [parseListElements], with their do-while loops as separate functions. *)
Fixpoint parseTerm (fuel : nat) : P term :=
  match fuel with
  | O => λ _, PStuck
  | S f => λ n,
      if check Token.LBRACKET n then parseList f n
      else if check Token.ATOM n then parseCompoundOrAtom f n
      else if check Token.VARIABLE n then
        (let+ tk := advance in pret (Var (Token.value tk))) n
      else if check Token.INTEGER n then
        (let+ tk := advance in
         match stoll (Token.value tk) with
         | Some z => pret (Integer z)
         | None => pthrow (OutOfRange "stoll")
         end) n
      else if check Token.FLOAT n then
        (let+ tk := advance in
         match stod (Token.value tk) with
         | Some d => pret (Float d)
         | None => pthrow (OutOfRange "stod")
         end) n
      else if check Token.STRING n then
        (let+ tk := advance in pret (Str (Token.value tk))) n
      else error "Expected term" n
  end
with parseCompoundOrAtom (fuel : nat) : P term :=
  match fuel with
  | O => λ _, PStuck
  | S f =>
      let+ functor := advance in
      let+ b := match_ Token.LPAREN in
      if b then
        let+ args := parseArguments f in
        let+ b' := match_ Token.RPAREN in
        if negb b' then error "Expected ')' after arguments"
        else pret (Compound (Token.value functor) args)
      else pret (Atom (Token.value functor))
  end
with parseList (fuel : nat) : P term :=
  match fuel with
  | O => λ _, PStuck
  | S f =>
      let+ b := match_ Token.LBRACKET in
      if negb b then error "Expected '['" else
      let+ b := match_ Token.RBRACKET in
      if b then pret (List [] None) else
      let+ elements := parseListElements f in
      let+ b := match_ Token.PIPE in
      let+ tail := (if b then (let+ t := parseTerm f in pret (Some t)) else pret None) in
      let+ b := match_ Token.RBRACKET in
      if negb b then error "Expected ']'" else pret (List elements tail)
  end
with parseArguments (fuel : nat) : P (list term) :=
  match fuel with
  | O => λ _, PStuck
  | S f => λ n, if negb (check Token.RPAREN n) then parseArgumentsLoop f [] n else POk [] n
  end
(** [do { args.push_back(parseTerm()); } while (match(Token::COMMA));] *)
with parseArgumentsLoop (fuel : nat) (args : list term) : P (list term) :=
  match fuel with
  | O => λ _, PStuck
  | S f =>
      let+ t := parseTerm f in
      let+ b := match_ Token.COMMA in
      if b then parseArgumentsLoop f (args ++ [t]) else pret (args ++ [t])
  end
with parseListElements (fuel : nat) : P (list term) :=
  match fuel with
  | O => λ _, PStuck
  | S f => parseListElementsLoop f []
  end
(** [do { elements.push_back(parseTerm()); }
     while (match(Token::COMMA) && !check(Token::PIPE));] *)
with parseListElementsLoop (fuel : nat) (elements : list term) : P (list term) :=
  match fuel with
  | O => λ _, PStuck
  | S f =>
      let+ t := parseTerm f in
      let+ b := match_ Token.COMMA in
      λ n, if b && negb (check Token.PIPE n) then parseListElementsLoop f (elements ++ [t]) n
           else POk (elements ++ [t]) n
  end.

(** [parseClause]; the body is read by the same do-while loop as the
    arguments of a compound term. *)
Definition parseClause (fuel : nat) : P (option Clause) := λ n,
  if isAtEnd n then POk None n else
  (let+ head := parseTerm fuel in
   let+ b := match_ Token.RULE_OP in
   if b then
     let+ body := parseArgumentsLoop fuel [] in
     let+ b' := match_ Token.DOT in
     if negb b' then error "Expected '.' after rule body" else pret (Some (makeRule head body))
   else
     let+ b' := match_ Token.DOT in
     if b' then pret (Some (makeFact head)) else error "Expected ':-' or '.' after term") n.

(** The loop of [parseProgram]. *)
Fixpoint parseClauses (fuel term_fuel : nat) (clauses : list Clause) : P (list Clause) :=
  match fuel with
  | O => λ _, PStuck
  | S f => λ n,
      if isAtEnd n then POk clauses n else
      (let+ clause := parseClause term_fuel in
       match clause with
       | Some c => parseClauses f term_fuel (clauses ++ [c])
       | None => pret clauses
       end) n
  end.

End Parser.

(** The fuel of the parsing functions: a call nests at most four parsing
    functions per token consumed. *)
Definition term_fuel (tokens : list Token.Token) : nat := 4 * S (length tokens).

Definition presult {A} (r : PResult A) : option (Exn + A) :=
  match r with POk a _ => Some (inr a) | PErr e => Some (inl e) | PStuck => None end.

(** [Parser::parseQuery]: the term at the start of the input; the tokens
    after it are not looked at. *)
Definition parseQuery (stod : string -> option double) (input : string) : option (Exn + term) :=
  let tokens := tokenize input in presult (parseTerm stod tokens (term_fuel tokens) 0%nat).

(** [Parser::parseProgram] *)
Definition parseProgram (stod : string -> option double) (input : string)
  : option (Exn + list Clause) :=
  let tokens := tokenize input in
  presult (parseClauses stod tokens (S (length tokens)) (term_fuel tokens) [] 0%nat).

(** [Database::loadProgram]: the exception thrown, if any, and the database
    afterwards.  All clauses are parsed before the first is added; a
    [ParseException] is rethrown as a [std::runtime_error]. *)
Definition loadProgram (stod : string -> option double) (db : Database) (program : string)
  : option (option Exn * Database) :=
  match parseProgram stod program with
  | None => None
  | Some (inr clauses) => Some (None, loadClauses db clauses)
  | Some (inl (ParseException m)) =>
      Some (Some (RuntimeError ("Failed to load program: " +:+ m)%string), db)
  | Some (inl e) => Some (Some e, db)
  end.

(** [Database::findClauses(functor, arity)] *)
Definition findClauses (db : Database) (functor : string) (arity : nat) : list Clause :=
  clausesAt db (default [] (index_ db !! makeKey functor arity)).

(* ------------------------------------------------------------------ *)
(** ** Notions used to state the properties *)

(** [evals s t r]: [Unification::applySubstitution(t, s)] returns [r]. *)
Definition evals (s : Substitution) (t r : term) : Prop :=
  ∃ n, applySubstitution n s t = Some r.

Definition evals_tail (s : Substitution) (tl rtl : option term) : Prop :=
  match tl, rtl with
  | Some x, Some y => evals s x y
  | None, None => True
  | _, _ => False
  end.

(** A substitution is acyclic when following the bindings from any
    variable, fully dereferencing, terminates. *)
Definition acyclic (s : Substitution) : Prop := ∀ v, ∃ r, evals s (Var v) r.

Definition clausesOf (cs : list Clause) (ix : list nat) : list Clause := omap (λ i, cs !! i) ix.

Definition keyIs (k : string) (c : Clause) : bool := String.eqb (extractFunctorArity (head c)) k.

(** What [addClause] maintains: the index of a key lists, in order, the
    positions of the clauses with that key. *)
Definition index_ok (db : Database) : Prop :=
  (∀ k i, In i (default [] (index_ db !! k)) -> (i < length (clauses_ db))%nat) ∧
  (∀ k, clausesOf (clauses_ db) (default [] (index_ db !! k)) = List.filter (keyIs k) (clauses_ db)).

(** [arith_error bindings e]: the expression [e], already applied by
    [bindings], has a node at which arithmetic goes wrong: a variable
    (unbound, as [e] is applied), or a [/], [//] or [mod] node whose second
    operand evaluates to a value equal to zero. *)
Inductive arith_error (bindings : Substitution) : term -> Prop :=
| ae_var (v : string) : arith_error bindings (Var v)
| ae_zero (op : string) (a b : term) (n : nat) (z : double) :
    op = "/"%string ∨ op = "//"%string ∨ op = "mod"%string ->
    Builtins.evaluateArithmeticExpression n b bindings = Some (Some z) ->
    PrimFloat.eqb z PrimFloat.zero = true ->
    arith_error bindings (Compound op [a; b])
| ae_arg (f : string) (args : list term) (a : term) :
    In a args -> arith_error bindings a -> arith_error bindings (Compound f args)
| ae_elem (els : list term) (tl : option term) (a : term) :
    In a els -> arith_error bindings a -> arith_error bindings (List els tl)
| ae_tail (els : list term) (x : term) :
    arith_error bindings x -> arith_error bindings (List els (Some x)).

(** *** Printing and reading back; comparison; indexes; answers *)

(** Every character of [s] satisfies [p]. *)
Fixpoint str_forall (p : Ascii.ascii -> bool) (s : string) : bool :=
  match s with String.String c r => p c && str_forall p r | EmptyString => true end.

(** A name the lexer reads as one [ATOM] token. *)
Definition atom_name (s : string) : bool :=
  match s with String.String c r => isAtomStart c && str_forall isAtomChar r | EmptyString => false end.

(** A name the lexer reads as one [VARIABLE] token (upper case first). *)
Definition var_name (s : string) : bool :=
  match s with String.String c r => isupper c && str_forall isVariableChar r | EmptyString => false end.

(** A character [toString] prints unescaped inside a string literal. *)
Definition str_char_ok (c : Ascii.ascii) : bool :=
  negb (Ascii.eqb c dquote_char || Ascii.eqb c backslash_char).

(** Terms whose printed form is read back as the same term: no floats,
    integers without a sign and within 64 bits, names the lexer reads as
    one token, no compound with zero arguments, no list [[|T]]. *)
Fixpoint printable (t : term) : bool :=
  match t with
  | Atom a => atom_name a
  | Var v => var_name v
  | Integer z => (0 <=? z) && (z <=? Builtins.int64_max)
  | Float _ => false
  | Str s => str_forall str_char_ok s
  | Compound f args => atom_name f && negb (bool_decide (args = [])) && forallb printable args
  | List els tl =>
      forallb printable els
      && match tl with None => true | Some x => negb (bool_decide (els = [])) && printable x end
  end.

(** Shape tests. *)
Definition is_integer (t : term) : bool := match t with Integer _ => true | _ => false end.

Definition is_atom (t : term) : bool := match t with Atom _ => true | _ => false end.

(** The lists [ls] joined with the separator [c]. *)
Fixpoint commajoin {A} (c : A) (ls : list (list A)) : list A :=
  match ls with [] => [] | [x] => x | x :: xs => x ++ c :: commajoin c xs end.

Abbreviation ttok := (Token.TokenType * string)%type.

(** The tokens (type and text) of the printed form of a term. *)
Fixpoint ttoks (t : term) : list ttok :=
  match t with
  | Atom a => [(Token.ATOM, a)]
  | Var v => [(Token.VARIABLE, v)]
  | Integer z => [(Token.INTEGER, pretty z)]
  | Float d => [(Token.FLOAT, Dbl.to_string d)]
  | Str s => [(Token.STRING, s)]
  | Compound f args =>
      match args with
      | [] => [(Token.ATOM, f)]
      | _ => (Token.ATOM, f) :: (Token.LPAREN, "(") :: commajoin (Token.COMMA, ",") (map ttoks args)
               ++ [(Token.RPAREN, ")")]
      end
  | List els tl =>
      (Token.LBRACKET, "[") :: commajoin (Token.COMMA, ",") (map ttoks els)
        ++ (match tl with Some x => (Token.PIPE, "|") :: ttoks x | None => [] end)
        ++ [(Token.RBRACKET, "]")]
  end.

(** Tokens without their positions. *)
Definition strip (l : list Token.Token) : list ttok := map (λ tk, (Token.type tk, Token.value tk)) l.

(** The lexer loop on a suffix [s] of an input of length [len]. *)
Definition lexS (len : nat) (s : string) : list Token.Token := lex (S (String.length s)) len s.

(** What may follow the text of [t] without changing its tokens. *)
Definition follows (t : term) (s : string) : bool :=
  match s with
  | EmptyString => true
  | String.String c _ =>
      isWhitespace c || Ascii.eqb c ","%char || Ascii.eqb c ")"%char || Ascii.eqb c "]"%char
      || (Ascii.eqb c "."%char && negb (is_integer t))
  end.

(** [s] does not go on with a character satisfying [p]. *)
Definition stops (p : Ascii.ascii -> bool) (s : string) : Prop :=
  match s with EmptyString => True | String.String d _ => p d = false end.

(** The tokens of the printed form of [t], followed by [s]. *)
Definition lexes_as (len : nat) (t : term) : Prop :=
  printable t = true -> ∀ s, follows t s = true ->
  strip (lexS len (toString t +:+ s)) = ttoks t ++ strip (lexS len s).

(** The fuel [parseTerm] needs for [t]. *)
Fixpoint pfuel (t : term) : nat :=
  match t with
  | Atom _ => 2
  | Compound _ args => 3 + length args + list_sum (map pfuel args)
  | List els tl => 3 + length els + list_sum (map pfuel els) + match tl with Some x => pfuel x | None => 0 end
  | _ => 1
  end%nat.

(** The token types a term may start with. *)
Definition starts_term (ty : Token.TokenType) : bool :=
  match ty with
  | Token.ATOM | Token.VARIABLE | Token.INTEGER | Token.FLOAT | Token.STRING | Token.LBRACKET => true
  | _ => false
  end.

(** [l] does not start with a token of type [ty]. *)
Definition hd_not (ty : Token.TokenType) (l : list ttok) : Prop :=
  match l with (ty', _) :: _ => ty' <> ty | [] => True end.

(** [parseTerm] reads [t] back from its tokens at position [n]. *)
Definition parses_as (stod : string -> option double) (tokens_ : list Token.Token) (t : term) : Prop :=
  printable t = true -> ∀ f n rest, (pfuel t <= f)%nat ->
  strip (drop n tokens_) = ttoks t ++ rest -> (is_atom t = true -> hd_not Token.LPAREN rest) ->
  parseTerm stod tokens_ f n = POk t (n + length (ttoks t)).

(** Clauses whose printed form is read back as the same clause. *)
Definition clause_printable (c : Clause) : bool :=
  printable (head c) && negb (is_integer (head c)) && forallb printable (body c)
  && match last (body c) with Some g => negb (is_integer g) | None => true end.

(** The tokens of the printed form of a clause. *)
Definition ctoks (c : Clause) : list ttok :=
  ttoks (head c)
  ++ (match body c with [] => [] | b => (Token.RULE_OP, ":-") :: commajoin (Token.COMMA, ",") (map ttoks b) end)
  ++ [(Token.DOT, ".")].

(** Terms with no float inside. *)
Fixpoint float_free (t : term) : bool :=
  match t with
  | Float _ => false
  | Compound _ args => forallb float_free args
  | List els tl => forallb float_free els && match tl with Some x => float_free x | None => true end
  | _ => true
  end.

(** The local loops and the body of [compareTermsF], over the
    comparison [cmp] of the subterms. *)
Fixpoint cmp_args (cmp : term -> term -> Z) (xs ys : list term) : Z :=
  match xs, ys with
  | x :: xs', y :: ys' => let c := cmp x y in if Z.eqb c 0 then cmp_args cmp xs' ys' else c
  | _, _ => 0
  end.

Fixpoint cmp_lex (cmp : term -> term -> Z) (xs ys : list term) : bool :=
  match xs, ys with
  | _, [] => false
  | [], _ :: _ => true
  | x :: xs', y :: ys' =>
      if cmp x y <? 0 then true else if cmp y x <? 0 then false else cmp_lex cmp xs' ys'
  end.

Definition compareStep (cmp : term -> term -> Z) (l r : term) : Z :=
  let lo := Builtins.getTermOrder l in
  let ro := Builtins.getTermOrder r in
  if negb (Z.eqb lo ro) then lo - ro else
  match l, r with
  | Var a, Var b | Atom a, Atom b | Str a, Str b => Builtins.str_compare a b
  | Integer a, Integer b => if a <? b then -1 else if b <? a then 1 else 0
  | Float a, Float b => if PrimFloat.ltb a b then -1 else if PrimFloat.ltb b a then 1 else 0
  | Compound f1 a1, Compound f2 a2 =>
      let c := Builtins.str_compare f1 f2 in
      if negb (Z.eqb c 0) then c
      else if negb (Nat.eqb (Datatypes.length a1) (Datatypes.length a2)) then
        (if Nat.ltb (Datatypes.length a1) (Datatypes.length a2) then -1 else 1)
      else cmp_args cmp a1 a2
  | List e1 t1, List e2 t2 =>
      if cmp_lex cmp e1 e2 then -1 else if cmp_lex cmp e2 e1 then 1 else
      match t1, t2 with
      | Some x, Some y => cmp x y
      | Some _, None => 1
      | None, Some _ => -1
      | None, None => 0
      end
  | _, _ => 0
  end.

(** The clause's head has first-argument key [k]. *)
Definition fkeyIs (k : string) (c : Clause) : bool := String.eqb (extractFirstArgKey (head c)) k.

(** What [addClause] maintains for the first-argument index: no entry for
    the empty key, and the entry of any other key lists, in order, the
    positions of the clauses with that first-argument key. *)
Definition first_arg_index_ok (db : Database) : Prop :=
  (∀ k i, In i (default [] (first_arg_index_ db !! k)) -> (i < length (clauses_ db))%nat) ∧
  first_arg_index_ db !! "" = None ∧
  (∀ k, k ≠ "" ->
     clausesOf (clauses_ db) (default [] (first_arg_index_ db !! k)) = List.filter (fkeyIs k) (clauses_ db)).

(** What [collectVariables] does for [t] on any accumulator. *)
Definition collects_as (t : term) : Prop :=
  ∀ acc, (∀ v, In v (collectVariables t acc) <-> In v acc ∨ occursCheck v t = true)
         ∧ (NoDup acc -> NoDup (collectVariables t acc)).

(** A strictly increasing list. *)
Fixpoint increasing (l : list nat) : Prop :=
  match l with
  | x :: ((y :: _) as r) => (x < y)%nat ∧ increasing r
  | _ => True
  end.

(** One iteration of the lexer loop, positions dropped. *)
Definition scan_strip (len : nat) (s : string) : option (option ttok * string) :=
  option_map (λ p, (option_map (λ tk, (Token.type tk, Token.value tk)) p.1, p.2)) (scan len s).

(** No newline in [s]. *)
Fixpoint no_newline (s : string) : bool :=
  match s with String.String c r => negb (Ascii.eqb c newline_char) && no_newline r | EmptyString => true end.

(* ------------------------------------------------------------------ *)
(** ** Programs, queries and terms the properties are checked on *)

(** [f(Y,X)] and [f(X,g(Y))], and the substitution [unify] builds for
    them. *)
Definition occurs_t1 : term := Compound "f" [Var "Y"; Var "X"].
Definition occurs_t2 : term := Compound "f" [Var "X"; Compound "g" [Var "Y"]].
Definition cyclic_unifier : Substitution :=
  <["X" := Compound "g" [Var "Y"]]> {[ "Y" := Var "X" ]}.

(** [append([],L,L). append([H|T],L,[H|R]) :- append(T,L,R).] as the parser
    builds it ([[]] is the empty list, [[H|T]] a list with a tail). *)
Definition append_program : Database :=
  loadClauses emptyDatabase
    [makeFact (Compound "append" [List [] None; Var "L"; Var "L"]);
     makeRule (Compound "append" [List [Var "H"] (Some (Var "T")); Var "L";
                                  List [Var "H"] (Some (Var "R"))])
              [Compound "append" [Var "T"; Var "L"; Var "R"]]].

Definition append_query_split : term :=
  Compound "append" [Var "X"; Var "Y"; List [Integer 1; Integer 2; Integer 3] None].
Definition append_query_concat : term :=
  Compound "append" [List [Atom "a"; Atom "b"] None; List [Atom "c"; Atom "d"] None; Var "X"].

(** [fruit(apple). fruit(pear).] *)
Definition fruit_program : Database :=
  loadClauses emptyDatabase
    [makeFact (Compound "fruit" [Atom "apple"]); makeFact (Compound "fruit" [Atom "pear"])].

Definition not_fruit (a : string) : term := Compound "\+" [Compound "fruit" [Atom a]].

(** [X is (10*2+5)/5 - 1] and [X is 2.0 + 2.0] *)
Definition arith_query : term :=
  Compound "is" [Var "X";
    Compound "-" [Compound "/" [Compound "+" [Compound "*" [Integer 10; Integer 2]; Integer 5];
                                Integer 5]; Integer 1]].
Definition float_sum_query : term :=
  Compound "is" [Var "X"; Compound "+" [Float (Dbl.of_Z 2); Float (Dbl.of_Z 2)]].

(** [p(Y).] and the query [p(X)] *)
Definition p_program : Database := loadClauses emptyDatabase [makeFact (Compound "p" [Var "Y"])].
Definition p_query : term := Compound "p" [Var "X"].

(** [p(a). p(b).] *)
Definition ab_program : Database :=
  loadClauses emptyDatabase [makeFact (Compound "p" [Atom "a"]); makeFact (Compound "p" [Atom "b"])].

(* ================================================================== *)
(** * Properties *)

(* ------------------------------------------------------------------ *)
(** ** Induction on terms *)

Lemma term_ind' (P : term -> Prop)
  (HA : ∀ a, P (Atom a)) (HV : ∀ v, P (Var v)) (HI : ∀ z, P (Integer z))
  (HF : ∀ d, P (Float d)) (HS : ∀ s, P (Str s))
  (HC : ∀ f args, Forall P args -> P (Compound f args))
  (HL : ∀ els tl, Forall P els -> (∀ x, tl = Some x -> P x) -> P (List els tl)) :
  ∀ t, P t.
Proof.
  fix IH 1. intros [a|v|z|d|s|f args|els tl].
  - apply HA.
  - apply HV.
  - apply HI.
  - apply HF.
  - apply HS.
  - apply HC. induction args as [|a args IHargs]; constructor; [apply IH | exact IHargs].
  - apply HL.
    + induction els as [|a els IHels]; constructor; [apply IH | exact IHels].
    + destruct tl as [x|]; intros y Hy; [injection Hy as <-; apply IH | discriminate].
Qed.

(* ------------------------------------------------------------------ *)
(** ** Fuel: a result, once reached, is reached with any larger fuel *)

Lemma mapM_Forall2_mono {A B} (f g : A -> option B) (l : list A) (r : list B) :
  (∀ a b, f a = Some b -> g a = Some b) -> mapM f l = Some r -> mapM g l = Some r.
Proof.
  intros Hfg Hl. apply mapM_Some in Hl. apply mapM_Some.
  eapply Forall2_impl; [exact Hl|]. intros a b. apply Hfg.
Qed.

Lemma applySubstitution_mono (n m : nat) (s : Substitution) (t r : term) :
  (n <= m)%nat -> applySubstitution n s t = Some r -> applySubstitution m s t = Some r.
Proof.
  revert m t r. induction n as [|n IH]; intros m t r Hle H; [discriminate|].
  destruct m as [|m]; [lia|]. assert (Hnm : (n <= m)%nat) by lia.
  destruct t as [a|v|z|d|str|fn args|els tl]; simpl in *; try exact H.
  - destruct (s !! v); [apply IH; assumption | exact H].
  - apply fmap_Some in H as (l & Hl & ->).
    erewrite mapM_Forall2_mono; [reflexivity| |exact Hl].
    intros a b. apply IH. exact Hnm.
  - apply bind_Some in H as (els' & Hels & H).
    erewrite mapM_Forall2_mono; [|intros a b; apply IH; exact Hnm|exact Hels]. simpl.
    destruct tl as [x|]; simpl in *; [|exact H].
    apply bind_Some in H as (tl' & Htl & H).
    apply fmap_Some in Htl as (y & Hy & ->).
    rewrite (IH m x y Hnm Hy). exact H.
Qed.

Lemma applySubstitution_det (n m : nat) (s : Substitution) (t r r' : term) :
  applySubstitution n s t = Some r -> applySubstitution m s t = Some r' -> r = r'.
Proof.
  intros H1 H2.
  apply (applySubstitution_mono n (Nat.max n m)) in H1; [|lia].
  apply (applySubstitution_mono m (Nat.max n m)) in H2; [|lia].
  congruence.
Qed.

Lemma evals_det (s : Substitution) (t r r' : term) : evals s t r -> evals s t r' -> r = r'.
Proof. intros [n H1] [m H2]. eapply applySubstitution_det; eassumption. Qed.

Lemma Forall2_evals_fuel (s : Substitution) (l rs : list term) :
  Forall2 (evals s) l rs -> ∃ n, Forall2 (λ a r, applySubstitution n s a = Some r) l rs.
Proof.
  induction 1 as [|a r l rs [n Ha] _ [m Hl]].
  - exists O. constructor.
  - exists (Nat.max n m). constructor.
    + eapply applySubstitution_mono; [|exact Ha]. lia.
    + eapply Forall2_impl; [exact Hl|]. intros x y. apply applySubstitution_mono. lia.
Qed.

Lemma evals_var (s : Substitution) (v : string) (r : term) :
  evals s (Var v) r <-> (∃ u, s !! v = Some u ∧ evals s u r) ∨ (s !! v = None ∧ r = Var v).
Proof.
  split.
  - intros [[|n] H]; [discriminate|]. simpl in H.
    destruct (s !! v) as [u|]; [left; exists u; split; [reflexivity|exists n; exact H]|].
    right. split; [reflexivity|congruence].
  - intros [(u & Hv & n & Hu) | [Hv ->]].
    + exists (Datatypes.S n). simpl. rewrite Hv. exact Hu.
    + exists 1%nat. simpl. rewrite Hv. reflexivity.
Qed.

Lemma evals_compound (s : Substitution) (f : string) (args : list term) (r : term) :
  evals s (Compound f args) r <-> ∃ rs, r = Compound f rs ∧ Forall2 (evals s) args rs.
Proof.
  split.
  - intros [[|n] H]; [discriminate|]. simpl in H.
    apply fmap_Some in H as (rs & Hrs & ->). exists rs. split; [reflexivity|].
    apply mapM_Some in Hrs. eapply Forall2_impl; [exact Hrs|]. intros a b Hab. exists n. exact Hab.
  - intros (rs & -> & Hrs). apply Forall2_evals_fuel in Hrs as [n Hn].
    exists (Datatypes.S n). simpl. apply mapM_Some in Hn. rewrite Hn. reflexivity.
Qed.

Lemma evals_list (s : Substitution) (els : list term) (tl : option term) (r : term) :
  evals s (List els tl) r <->
  ∃ rs rtl, r = List rs rtl ∧ Forall2 (evals s) els rs ∧ evals_tail s tl rtl.
Proof.
  split.
  - intros [[|n] H]; [discriminate|]. simpl in H.
    apply bind_Some in H as (rs & Hrs & H).
    apply mapM_Some in Hrs.
    assert (Hrs' : Forall2 (evals s) els rs).
    { eapply Forall2_impl; [exact Hrs|]. intros a b Hab. exists n. exact Hab. }
    destruct tl as [x|]; simpl in H.
    + apply bind_Some in H as (tl' & Htl & H). apply fmap_Some in Htl as (y & Hy & ->).
      injection H as <-. exists rs, (Some y). split; [reflexivity|]. split; [exact Hrs'|].
      exists n. exact Hy.
    + injection H as <-. exists rs, None. repeat split. exact Hrs'.
  - intros (rs & rtl & -> & Hrs & Htl). apply Forall2_evals_fuel in Hrs as [n Hn].
    destruct tl as [x|], rtl as [y|]; simpl in Htl; try contradiction.
    + destruct Htl as [m Hm]. exists (Datatypes.S (Nat.max n m)). simpl.
      apply mapM_Some in Hn.
      rewrite (mapM_Forall2_mono _ (applySubstitution (Nat.max n m) s) _ _
                 (λ a b, applySubstitution_mono n (Nat.max n m) s a b ltac:(lia)) Hn). simpl.
      rewrite (applySubstitution_mono m (Nat.max n m) s x y ltac:(lia) Hm). reflexivity.
    + exists (Datatypes.S n). simpl. apply mapM_Some in Hn. rewrite Hn. reflexivity.
Qed.

Lemma evals_const (s : Substitution) (t r : term) :
  match t with Var _ | Compound _ _ | List _ _ => False | _ => True end ->
  evals s t r <-> r = t.
Proof.
  intros Ht. split.
  - intros [[|n] H]; [discriminate|]. destruct t; try contradiction; simpl in H; congruence.
  - intros ->. exists 1%nat. destruct t; try contradiction; reflexivity.
Qed.

(* ------------------------------------------------------------------ *)
(** ** Variables of an applied term *)

Lemma Forall2_In_r' {A B} (R : A -> B -> Prop) (l : list A) (k : list B) (b : B) :
  Forall2 R l k -> In b k -> ∃ a, In a l ∧ R a b.
Proof.
  induction 1 as [|x y l k Hxy _ IH]; [contradiction|].
  intros [<-|Hin]; [exists x; split; [left; reflexivity|exact Hxy]|].
  destruct (IH Hin) as (a & Ha & HR). exists a. split; [right; exact Ha|exact HR].
Qed.

Lemma occursCheck_compound (x f : string) (args : list term) :
  occursCheck x (Compound f args) = true <-> ∃ a, In a args ∧ occursCheck x a = true.
Proof. simpl. apply existsb_exists. Qed.

Lemma occursCheck_list (x : string) (els : list term) (tl : option term) :
  occursCheck x (List els tl) = true <->
  (∃ a, In a els ∧ occursCheck x a = true) ∨ (∃ y, tl = Some y ∧ occursCheck x y = true).
Proof.
  simpl. rewrite orb_true_iff, existsb_exists. destruct tl as [y|].
  - split; (intros [H|H]; [left; exact H| right]); [exists y; split; [reflexivity|exact H]|].
    destruct H as (z & Hz & H). injection Hz as <-. exact H.
  - split; (intros [H|H]; [left; exact H|]); [discriminate|].
    destruct H as (z & Hz & _). discriminate.
Qed.

(** A fully applied term has no variable that the substitution binds. *)
Lemma evals_unbound (s : Substitution) (u w : term) (x : string) :
  evals s u w -> occursCheck x w = true -> s !! x = None.
Proof.
  intros [n H]. revert u w H. induction n as [|n IH]; intros u w H Hx; [discriminate|].
  destruct u as [a|v|z|d|str|fn args|els tl]; simpl in H; try (injection H as <-; discriminate).
  - destruct (s !! v) as [t|] eqn:Hv; [exact (IH _ _ H Hx)|].
    injection H as <-. simpl in Hx. apply String.eqb_eq in Hx. subst. exact Hv.
  - apply fmap_Some in H as (ws & Hws & ->). apply mapM_Some in Hws.
    apply occursCheck_compound in Hx as (b & Hb & Hx).
    destruct (Forall2_In_r' _ _ _ _ Hws Hb) as (a & _ & Ha). exact (IH _ _ Ha Hx).
  - apply bind_Some in H as (ws & Hws & H). apply mapM_Some in Hws.
    destruct tl as [y|]; simpl in H.
    + apply bind_Some in H as (tl' & Htl & H). apply fmap_Some in Htl as (y' & Hy & ->).
      injection H as <-. apply occursCheck_list in Hx as [(b & Hb & Hx)|(z & Hz & Hx)].
      * destruct (Forall2_In_r' _ _ _ _ Hws Hb) as (a & _ & Ha). exact (IH _ _ Ha Hx).
      * injection Hz as <-. exact (IH _ _ Hy Hx).
    + injection H as <-. apply occursCheck_list in Hx as [(b & Hb & Hx)|(z & Hz & _)];
        [|discriminate].
      destruct (Forall2_In_r' _ _ _ _ Hws Hb) as (a & _ & Ha). exact (IH _ _ Ha Hx).
Qed.

(** A variable of an applied term comes from the term or from a binding. *)
Lemma evals_vars (s : Substitution) (u w : term) (x : string) :
  evals s u w -> occursCheck x w = true ->
  occursCheck x u = true ∨ ∃ v t, s !! v = Some t ∧ occursCheck x t = true.
Proof.
  intros [n H]. revert u w H. induction n as [|n IH]; intros u w H Hx; [discriminate|].
  destruct u as [a|v|z|d|str|fn args|els tl]; simpl in H; try (injection H as <-; discriminate).
  - destruct (s !! v) as [t|] eqn:Hv.
    + destruct (IH _ _ H Hx) as [Ht|Ht]; right; [exists v, t; split; assumption | exact Ht].
    + injection H as <-. left. exact Hx.
  - apply fmap_Some in H as (ws & Hws & ->). apply mapM_Some in Hws.
    apply occursCheck_compound in Hx as (b & Hb & Hx).
    destruct (Forall2_In_r' _ _ _ _ Hws Hb) as (a & Ha & Hab).
    destruct (IH _ _ Hab Hx) as [Hx'|Hx']; [left|right; exact Hx'].
    apply occursCheck_compound. exists a. split; assumption.
  - apply bind_Some in H as (ws & Hws & H). apply mapM_Some in Hws.
    assert (Hel : ∀ b, In b ws -> occursCheck x b = true ->
                  occursCheck x (List els tl) = true ∨ ∃ v t, s !! v = Some t ∧ occursCheck x t = true).
    { intros b Hb Hx'. destruct (Forall2_In_r' _ _ _ _ Hws Hb) as (a & Ha & Hab).
      destruct (IH _ _ Hab Hx') as [Hx''|Hx'']; [left|right; exact Hx''].
      apply occursCheck_list. left. exists a. split; assumption. }
    destruct tl as [y|]; simpl in H.
    + apply bind_Some in H as (tl' & Htl & H). apply fmap_Some in Htl as (y' & Hy & ->).
      injection H as <-. apply occursCheck_list in Hx as [(b & Hb & Hx)|(z & Hz & Hx)].
      * exact (Hel b Hb Hx).
      * injection Hz as <-. destruct (IH _ _ Hy Hx) as [Hx'|Hx']; [left|right; exact Hx'].
        apply occursCheck_list. right. exists y. split; [reflexivity|exact Hx'].
    + injection H as <-. apply occursCheck_list in Hx as [(b & Hb & Hx)|(z & Hz & _)];
        [exact (Hel b Hb Hx)|discriminate].
Qed.

(** A term none of whose variables is bound is its own application. *)
Lemma evals_id (s : Substitution) (u : term) :
  (∀ x, occursCheck x u = true -> s !! x = None) -> evals s u u.
Proof.
  induction u as [a|v|z|d|str|fn args IHargs|els tl IHels IHtl] using term_ind'; intros Hu;
    try (apply evals_const; [exact I|reflexivity]).
  - apply evals_var. right. split; [|reflexivity]. apply Hu. simpl. apply String.eqb_refl.
  - apply evals_compound. exists args. split; [reflexivity|].
    induction IHargs as [|a args Ha _ IH]; constructor.
    + apply Ha. intros x Hx. apply Hu. simpl. rewrite Hx. reflexivity.
    + apply IH. intros x Hx. apply Hu. simpl. simpl in Hx. rewrite Hx. apply orb_true_r.
  - apply evals_list. exists els, tl. split; [reflexivity|]. split.
    + clear IHtl. induction IHels as [|a els Ha _ IH]; constructor.
      * apply Ha. intros x Hx. apply Hu. simpl. rewrite Hx. reflexivity.
      * apply IH. intros x Hx. apply Hu. simpl in Hx |- *.
        apply orb_true_iff in Hx as [Hx|Hx]; rewrite Hx; rewrite ?orb_true_r; reflexivity.
    + destruct tl as [y|]; simpl; [|exact I]. apply (IHtl y eq_refl).
      intros x Hx. apply Hu. simpl. rewrite Hx. apply orb_true_r.
Qed.

(* ------------------------------------------------------------------ *)
(** ** Unification only adds bindings *)

Lemma dereference_var (f : nat) (t : term) (s : Substitution) (v : string) :
  dereference f t s = Some (Var v) -> s !! v = None.
Proof.
  revert t. induction f as [|f IH]; intros t H; [discriminate|]. simpl in H.
  destruct t; try discriminate.
  destruct (s !! name) eqn:E; [exact (IH _ H)|]. injection H as <-. exact E.
Qed.

Lemma unifyPairs_extends (u : term -> term -> Substitution -> option (bool * Substitution))
    (l1 l2 : list term) (s : Substitution) (ok : bool) (s' : Substitution) :
  (∀ a b s0 ok0 s0', u a b s0 = Some (ok0, s0') -> s0 ⊆ s0') ->
  unifyPairs u l1 l2 s = Some (ok, s') -> s ⊆ s'.
Proof.
  intros Hu. revert l2 s. induction l1 as [|a l1 IH]; intros [|b l2] s H; simpl in H;
    try (injection H as _ <-; reflexivity).
  destruct (u a b s) as [[[] s0]|] eqn:E; try discriminate.
  - transitivity s0; [exact (Hu _ _ _ _ _ E)|exact (IH _ _ H)].
  - injection H as _ <-. exact (Hu _ _ _ _ _ E).
Qed.

Lemma unifyInternal_extends (n : nat) (t1 t2 : term) (s : Substitution) (ok : bool) (s' : Substitution) :
  unifyInternal n t1 t2 s = Some (ok, s') -> s ⊆ s'.
Proof.
  revert t1 t2 s ok s'. induction n as [|n IH]; intros t1 t2 s ok s' H; [discriminate|].
  simpl in H. apply bind_Some in H as (d1 & Hd1 & H). apply bind_Some in H as (d2 & Hd2 & H).
  destruct d1 as [a|v|z|d|str|fn args|els tl], d2 as [a'|v'|z'|d'|str'|fn' args'|els' tl'];
    try (injection H as _ <-; reflexivity);
    try (destruct (occursCheck _ _); injection H as _ <-;
         [reflexivity | apply insert_subseteq; eapply dereference_var; eassumption]).
  - destruct (String.eqb v v'); injection H as _ <-; [reflexivity|].
    apply insert_subseteq. eapply dereference_var; eassumption.
  - destruct (String.eqb fn fn' && Nat.eqb (length args) (length args'));
      [|injection H as _ <-; reflexivity].
    eapply unifyPairs_extends; [|exact H]. exact (IH).
  - destruct (Nat.eqb (length els) (length els')); [|injection H as _ <-; reflexivity].
    destruct (unifyPairs (unifyInternal n) els els' s) as [[[] s0]|] eqn:E; try discriminate.
    + assert (Hs0 : s ⊆ s0) by (eapply unifyPairs_extends; [exact IH|exact E]).
      destruct tl as [x|], tl' as [y|]; try (injection H as _ <-; exact Hs0).
      transitivity s0; [exact Hs0|exact (IH _ _ _ _ _ H)].
    + injection H as _ <-. eapply unifyPairs_extends; [exact IH|exact E].
Qed.

(* ------------------------------------------------------------------ *)
(** ** A unifier with a cycle *)

Lemma unify_occurs_example :
  unify 20 occurs_t1 occurs_t2 ∅ = Some (Some cyclic_unifier, cyclic_unifier).
Proof. vm_compute. reflexivity. Qed.

Lemma cyclic_unifier_diverges (n : nat) :
  applySubstitution n cyclic_unifier (Var "X") = None ∧
  applySubstitution n cyclic_unifier (Var "Y") = None ∧
  applySubstitution n cyclic_unifier (Compound "g" [Var "Y"]) = None.
Proof.
  induction n as [|n (HX & HY & Hg)]; [repeat split|].
  assert (EX : cyclic_unifier !! "X" = Some (Compound "g" [Var "Y"])) by reflexivity.
  assert (EY : cyclic_unifier !! "Y" = Some (Var "X")) by reflexivity.
  simpl. rewrite EX, EY, HY. repeat split; assumption.
Qed.

Lemma acyclic_empty : acyclic ∅.
Proof. intros v. exists (Var v). exists 1%nat. reflexivity. Qed.

Lemma cyclic_unifier_not_acyclic : ¬ acyclic cyclic_unifier.
Proof.
  intros Hac. destruct (Hac "X") as (r & n & Hn).
  rewrite (proj1 (cyclic_unifier_diverges n)) in Hn. discriminate.
Qed.

(* ------------------------------------------------------------------ *)
(** ** The predicate index *)

Lemma clausesOf_app_r (cs : list Clause) (c : Clause) (ix : list nat) :
  (∀ i, In i ix -> (i < length cs)%nat) -> clausesOf (cs ++ [c]) ix = clausesOf cs ix.
Proof.
  induction ix as [|i ix IH]; intros Hix; [reflexivity|]. simpl.
  rewrite lookup_app_l by (apply Hix; left; reflexivity).
  rewrite IH by (intros j Hj; apply Hix; right; exact Hj). reflexivity.
Qed.

Lemma clausesOf_snoc (cs : list Clause) (ix : list nat) (i : nat) :
  clausesOf cs (ix ++ [i]) = clausesOf cs ix ++ omap (λ i, cs !! i) [i].
Proof. unfold clausesOf. apply omap_app. Qed.

Lemma index_ok_empty : index_ok emptyDatabase.
Proof. split; intros k; [intros i []|reflexivity]. Qed.

Lemma index_ok_addClause (db : Database) (c : Clause) : index_ok db -> index_ok (addClause db c).
Proof.
  intros [Hb Hc]. unfold index_ok. cbv zeta beta delta [addClause push_index].
  cbn [clauses_ index_]. split.
  - intros k i Hi. rewrite length_app. simpl.
    destruct (decide (k = extractFunctorArity (head c))) as [->|Hne].
    + rewrite lookup_insert_eq in Hi. simpl in Hi. apply in_app_or in Hi as [Hi|[<-|[]]].
      * specialize (Hb _ _ Hi). lia.
      * lia.
    + rewrite lookup_insert_ne in Hi by congruence. specialize (Hb _ _ Hi). lia.
  - intros k. rewrite List.filter_app. simpl. unfold keyIs at 2.
    destruct (decide (k = extractFunctorArity (head c))) as [->|Hne].
    + rewrite lookup_insert_eq, String.eqb_refl. simpl.
      rewrite clausesOf_snoc, clausesOf_app_r by (apply Hb). rewrite Hc. f_equal.
      simpl. rewrite lookup_app_r, Nat.sub_diag by lia. reflexivity.
    + rewrite lookup_insert_ne by congruence.
      destruct (String.eqb_spec (extractFunctorArity (head c)) k) as [Heq|_]; [congruence|].
      rewrite clausesOf_app_r by (apply Hb). rewrite app_nil_r. apply Hc.
Qed.

Lemma loadClauses_spec (db : Database) (cs : list Clause) :
  index_ok db -> index_ok (loadClauses db cs) ∧ clauses_ (loadClauses db cs) = clauses_ db ++ cs.
Proof.
  revert db. induction cs as [|c cs IH]; intros db Hdb.
  - split; [exact Hdb|]. simpl. rewrite app_nil_r. reflexivity.
  - simpl. destruct (IH (addClause db c) (index_ok_addClause db c Hdb)) as [H1 H2].
    split; [exact H1|]. rewrite H2. simpl. rewrite <- app_assoc. reflexivity.
Qed.

(* ------------------------------------------------------------------ *)
(** ** [\+/1] in the built-in table *)

Lemma callBuiltin_not_provable (f : nat) (args : list term) (bindings : Substitution) :
  Builtins.callBuiltin (Datatypes.S f) "\+" 1 args bindings
  = Builtins.not_provable (Builtins.callBuiltin f) f args bindings.
Proof. reflexivity. Qed.

(* ------------------------------------------------------------------ *)
(** ** Composition of substitutions *)

Lemma Forall2_compose3 {A B C} (R1 : A -> B -> Prop) (R2 : A -> C -> Prop)
    (R3 : B -> C -> Prop) (l1 : list A) (l2 : list B) (l3 : list C) :
  Forall2 R1 l1 l2 -> Forall2 R2 l1 l3 -> (∀ a b c, R1 a b -> R2 a c -> R3 b c) ->
  Forall2 R3 l2 l3.
Proof.
  intros H1. revert l3.
  induction H1 as [|a b l1 l2 Hab _ IH]; intros l3 H2 H; inversion H2; subst; constructor; eauto.
Qed.

(** The bindings [compose] produces: a variable of [s2] gets its value
    applied by [s1] and then by [s2]; a variable bound only in [s1] gets its
    value applied by [s2]. *)
Lemma compose_lookup (n : nat) (s1 s2 R : Substitution) (v : string) :
  compose n s1 s2 = Some R ->
  (∀ u, s2 !! v = Some u -> ∃ w w', applySubstitution n s1 u = Some w ∧
                          applySubstitution n s2 w = Some w' ∧ R !! v = Some w') ∧
  (∀ u, s2 !! v = None -> s1 !! v = Some u ->
        ∃ w', applySubstitution n s2 u = Some w' ∧ R !! v = Some w') ∧
  (s2 !! v = None -> s1 !! v = None -> R !! v = None).
Proof.
  unfold compose.
  destruct (decide (dom (map_imap (λ _ t, applySubstitution n s1 t) s2) = dom s2)) as [D1|];
    [|discriminate].
  destruct (decide (dom (map_imap (λ _ t, applySubstitution n s2 t)
                          (map_imap (λ _ t, applySubstitution n s1 t) s2 ∪ s1))
                    = dom (map_imap (λ _ t, applySubstitution n s1 t) s2 ∪ s1))) as [D2|];
    [|discriminate].
  intros [= <-].
  set (step1 := map_imap (λ _ t, applySubstitution n s1 t) s2) in *.
  set (result := step1 ∪ s1) in *.
  assert (Hs1 : ∀ x, step1 !! x = s2 !! x ≫= applySubstitution n s1).
  { intros x. unfold step1. rewrite map_lookup_imap. reflexivity. }
  assert (HR : ∀ x, map_imap (λ _ t, applySubstitution n s2 t) result !! x
                    = result !! x ≫= applySubstitution n s2).
  { intros x. rewrite map_lookup_imap. reflexivity. }
  assert (Din1 : ∀ x, is_Some (s2 !! x) -> is_Some (step1 !! x)).
  { intros x Hx. apply elem_of_dom. rewrite D1. apply elem_of_dom. exact Hx. }
  assert (Din2 : ∀ x, is_Some (result !! x) ->
                 is_Some (map_imap (λ _ t, applySubstitution n s2 t) result !! x)).
  { intros x Hx. apply elem_of_dom. rewrite D2. apply elem_of_dom. exact Hx. }
  split; [|split].
  - intros u Hu. destruct (Din1 v (mk_is_Some _ _ Hu)) as [w Hw].
    assert (Hres : result !! v = Some w) by (apply lookup_union_Some_l; exact Hw).
    rewrite Hs1, Hu in Hw. simpl in Hw.
    destruct (Din2 v (mk_is_Some _ _ Hres)) as [w' Hw'].
    exists w, w'. split; [exact Hw|]. split; [|exact Hw'].
    rewrite HR, Hres in Hw'. exact Hw'.
  - intros u Hu2 Hu1.
    assert (Hres : result !! v = Some u).
    { unfold result. rewrite lookup_union_r; [exact Hu1|]. rewrite Hs1, Hu2. reflexivity. }
    destruct (Din2 v (mk_is_Some _ _ Hres)) as [w' Hw'].
    exists w'. split; [|exact Hw']. rewrite HR, Hres in Hw'. exact Hw'.
  - intros Hu2 Hu1. rewrite HR.
    assert (Hres : result !! v = None).
    { unfold result. apply lookup_union_None. split; [rewrite Hs1, Hu2; reflexivity|exact Hu1]. }
    rewrite Hres. reflexivity.
Qed.

(** Applying part of a larger substitution first never makes the
    application of the larger one take more steps. *)
Lemma applySubstitution_partial (k m : nat) (s U : Substitution) (u w y : term) :
  s ⊆ U -> applySubstitution k s u = Some w ->
  applySubstitution m U u = Some y -> applySubstitution m U w = Some y.
Proof.
  intros HsU. revert u w m y.
  induction k as [|k IH]; intros u w m y Hw Hy; [discriminate|].
  destruct m as [|m]; [discriminate|].
  destruct u as [a|v|z|d|str|fn args|els tl]; simpl in Hw; try (injection Hw as <-; exact Hy).
  - destruct (s !! v) as [u|] eqn:Hv; [|injection Hw as <-; exact Hy].
    simpl in Hy. rewrite (lookup_weaken s U v u Hv HsU) in Hy.
    apply (applySubstitution_mono m (Datatypes.S m)); [lia|]. exact (IH _ _ _ _ Hw Hy).
  - apply fmap_Some in Hw as (ws & Hws & ->). simpl in Hy.
    apply fmap_Some in Hy as (ys & Hys & ->). apply mapM_Some in Hws, Hys. simpl.
    assert (Hl : mapM (applySubstitution m U) ws = Some ys).
    { apply mapM_Some. eapply Forall2_compose3; [exact Hws|exact Hys|].
      intros a b c Hab Hac. exact (IH _ _ _ _ Hab Hac). }
    rewrite Hl. reflexivity.
  - apply bind_Some in Hw as (ws & Hws & Hw). simpl in Hy.
    apply bind_Some in Hy as (ys & Hys & Hy). apply mapM_Some in Hws, Hys.
    assert (Hl : mapM (applySubstitution m U) ws = Some ys).
    { apply mapM_Some. eapply Forall2_compose3; [exact Hws|exact Hys|].
      intros a b c Hab Hac. exact (IH _ _ _ _ Hab Hac). }
    destruct tl as [x|]; simpl in Hw, Hy.
    + apply bind_Some in Hw as (tw & Htw & Hw). apply fmap_Some in Htw as (xw & Hxw & ->).
      injection Hw as <-.
      apply bind_Some in Hy as (ty & Hty & Hy). apply fmap_Some in Hty as (xy & Hxy & ->).
      injection Hy as <-. simpl. rewrite Hl. simpl. rewrite (IH _ _ _ _ Hxw Hxy). reflexivity.
    + injection Hw as <-. injection Hy as <-. simpl. rewrite Hl. reflexivity.
Qed.

(** With disjoint domains, every application of the union of the two
    substitutions is also an application of their composition. *)
Lemma compose_union (n : nat) (s1 s2 R : Substitution) :
  s1 ##ₘ s2 -> compose n s1 s2 = Some R ->
  ∀ m t y, applySubstitution m (s1 ∪ s2) t = Some y -> applySubstitution m R t = Some y.
Proof.
  intros Hdisj HR.
  assert (H1 : s1 ⊆ s1 ∪ s2) by apply map_union_subseteq_l.
  assert (H2 : s2 ⊆ s1 ∪ s2) by (apply map_union_subseteq_r; exact Hdisj).
  induction m as [|m IH]; intros t y Hy; [discriminate|].
  destruct t as [a|v|z|d|str|fn args|els tl]; simpl in Hy |- *; try exact Hy.
  - destruct (compose_lookup n s1 s2 R v HR) as (La & Lb & Lc).
    destruct ((s1 ∪ s2) !! v) as [u|] eqn:Hv.
    + destruct (s2 !! v) as [u2|] eqn:Hv2.
      * rewrite (lookup_weaken s2 (s1 ∪ s2) v u2 Hv2 H2) in Hv. injection Hv as <-.
        destruct (La u2 eq_refl) as (w & w' & Hw & Hw' & HRv). rewrite HRv. apply IH.
        apply (applySubstitution_partial n m s2 _ w w' y H2 Hw').
        exact (applySubstitution_partial n m s1 _ u2 w y H1 Hw Hy).
      * apply lookup_union_Some_raw in Hv as [Hv1|[_ Hv1]]; [|congruence].
        destruct (Lb u eq_refl Hv1) as (w' & Hw' & HRv). rewrite HRv. apply IH.
        exact (applySubstitution_partial n m s2 _ u w' y H2 Hw' Hy).
    + apply lookup_union_None in Hv as [Hv1 Hv2]. rewrite (Lc Hv2 Hv1). exact Hy.
  - apply fmap_Some in Hy as (ys & Hys & ->).
    rewrite (mapM_Forall2_mono _ _ _ _ IH Hys). reflexivity.
  - apply bind_Some in Hy as (ys & Hys & Hy).
    rewrite (mapM_Forall2_mono _ _ _ _ IH Hys). simpl.
    destruct tl as [x|]; simpl in Hy |- *; [|exact Hy].
    apply bind_Some in Hy as (ty & Hty & Hy). apply fmap_Some in Hty as (xy & Hxy & ->).
    rewrite (IH _ _ Hxy). exact Hy.
Qed.

(* ------------------------------------------------------------------ *)
(** ** Arithmetic evaluation *)

Lemma evaluate_mono (n m : nat) (e : term) (b : Substitution) (r : option double) :
  (n <= m)%nat -> Builtins.evaluateArithmeticExpression n e b = Some r ->
  Builtins.evaluateArithmeticExpression m e b = Some r.
Proof.
  revert m e r. induction n as [|n IH]; intros m e r Hle H; [discriminate|].
  destruct m as [|m]; [lia|]. assert (Hnm : (n <= m)%nat) by lia.
  simpl in H |- *. apply bind_Some in H as (t & Ht & H).
  rewrite (applySubstitution_mono n m b e t Hnm Ht). simpl.
  destruct t as [a|v|z|d|str|fn args|els tl]; try exact H.
  destruct args as [|x [|y [|w l]]]; try exact H.
  - apply bind_Some in H as (v & Hv & H). rewrite (IH m x v Hnm Hv). exact H.
  - apply bind_Some in H as (lv & Hlv & H). apply bind_Some in H as (rv & Hrv & H).
    rewrite (IH m x lv Hnm Hlv). simpl. rewrite (IH m y rv Hnm Hrv). exact H.
Qed.

Lemma evaluate_det (n m : nat) (e : term) (b : Substitution) (r r' : option double) :
  Builtins.evaluateArithmeticExpression n e b = Some r ->
  Builtins.evaluateArithmeticExpression m e b = Some r' -> r = r'.
Proof.
  intros H1 H2.
  apply (evaluate_mono n (Nat.max n m)) in H1; [|lia].
  apply (evaluate_mono m (Nat.max n m)) in H2; [|lia].
  congruence.
Qed.

Lemma unbound_arg (b : Substitution) (f : string) (args : list term) (a : term) :
  (∀ x, occursCheck x (Compound f args) = true -> b !! x = None) -> In a args ->
  ∀ x, occursCheck x a = true -> b !! x = None.
Proof.
  intros Hu Ha x Hx. apply Hu, occursCheck_compound. exists a. split; assumption.
Qed.

(** The evaluation of an expression with no bound variable returns. *)
Lemma evaluate_total (b : Substitution) (e : term) :
  (∀ x, occursCheck x e = true -> b !! x = None) ->
  ∃ n r, Builtins.evaluateArithmeticExpression n e b = Some r.
Proof.
  intros Hu. destruct (evals_id b e Hu) as [k Hk].
  revert Hu k Hk. induction e as [a|v|z|d|str|fn args IHargs|els tl _ _] using term_ind';
    intros Hu k Hk; try (exists (Datatypes.S k); simpl; rewrite Hk; eexists; reflexivity).
  destruct args as [|x [|y [|w l]]];
    try (exists (Datatypes.S k); simpl; rewrite Hk; eexists; reflexivity).
  - apply Forall_cons in IHargs as [IHx _].
    assert (Hx : ∀ x', occursCheck x' x = true -> b !! x' = None)
      by (apply (unbound_arg b fn [x]); [exact Hu|left; reflexivity]).
    destruct (evals_id b x Hx) as [kx Hkx].
    destruct (IHx Hx kx Hkx) as (nx & rx & Hnx).
    exists (Datatypes.S (Nat.max k nx)). simpl.
    rewrite (applySubstitution_mono k (Nat.max k nx) b _ _ ltac:(lia) Hk). simpl.
    rewrite (evaluate_mono nx (Nat.max k nx) x b rx ltac:(lia) Hnx). simpl. eexists. reflexivity.
  - apply Forall_cons in IHargs as [IHx IHargs]. apply Forall_cons in IHargs as [IHy _].
    assert (Hx : ∀ x', occursCheck x' x = true -> b !! x' = None)
      by (apply (unbound_arg b fn [x; y]); [exact Hu|left; reflexivity]).
    assert (Hy : ∀ x', occursCheck x' y = true -> b !! x' = None)
      by (apply (unbound_arg b fn [x; y]); [exact Hu|right; left; reflexivity]).
    destruct (evals_id b x Hx) as [kx Hkx]. destruct (evals_id b y Hy) as [ky Hky].
    destruct (IHx Hx kx Hkx) as (nx & rx & Hnx). destruct (IHy Hy ky Hky) as (ny & ry & Hny).
    exists (Datatypes.S (Nat.max k (Nat.max nx ny))). simpl.
    rewrite (applySubstitution_mono k (Nat.max k (Nat.max nx ny)) b _ _ ltac:(lia) Hk). simpl.
    rewrite (evaluate_mono nx (Nat.max k (Nat.max nx ny)) x b rx ltac:(lia) Hnx). simpl.
    rewrite (evaluate_mono ny (Nat.max k (Nat.max nx ny)) y b ry ltac:(lia) Hny). simpl.
    eexists. reflexivity.
Qed.

(** An expression with an arithmetic error evaluates to no value. *)
Lemma arith_error_evaluates_to_none (b : Substitution) (e : term) :
  arith_error b e -> (∀ x, occursCheck x e = true -> b !! x = None) ->
  ∃ n, Builtins.evaluateArithmeticExpression n e b = Some None.
Proof.
  intros Herr. induction Herr as [v|op a c n z Hop Hc Hz|f args a Hin Ha IH|els tl a _ _ _|els x _ _];
    intros Hu; destruct (evals_id b _ Hu) as [k Hk].
  - exists (Datatypes.S k). simpl. rewrite Hk. reflexivity.
  - assert (Ha : ∀ x', occursCheck x' a = true -> b !! x' = None)
      by (apply (unbound_arg b op [a; c]); [exact Hu|left; reflexivity]).
    destruct (evaluate_total b a Ha) as (na & ra & Hna).
    exists (Datatypes.S (Nat.max k (Nat.max na n))). simpl.
    rewrite (applySubstitution_mono k (Nat.max k (Nat.max na n)) b _ _ ltac:(lia) Hk). simpl.
    rewrite (evaluate_mono na (Nat.max k (Nat.max na n)) a b ra ltac:(lia) Hna). simpl.
    rewrite (evaluate_mono n (Nat.max k (Nat.max na n)) c b (Some z) ltac:(lia) Hc). simpl.
    destruct ra as [l|]; [|reflexivity].
    destruct Hop as [-> | [-> | ->]]; simpl; rewrite Hz; reflexivity.
  - assert (Hua : ∀ x', occursCheck x' a = true -> b !! x' = None)
      by (apply (unbound_arg b f args); [exact Hu|exact Hin]).
    destruct (IH Hua) as [na Hna].
    destruct args as [|x [|y [|w l]]]; [destruct Hin| | |].
    + destruct Hin as [-> | []].
      exists (Datatypes.S (Nat.max k na)). simpl.
      rewrite (applySubstitution_mono k (Nat.max k na) b _ _ ltac:(lia) Hk). simpl.
      rewrite (evaluate_mono na (Nat.max k na) a b None ltac:(lia) Hna). reflexivity.
    + assert (Hx : ∀ x', occursCheck x' x = true -> b !! x' = None)
        by (apply (unbound_arg b f [x; y]); [exact Hu|left; reflexivity]).
      assert (Hy : ∀ x', occursCheck x' y = true -> b !! x' = None)
        by (apply (unbound_arg b f [x; y]); [exact Hu|right; left; reflexivity]).
      destruct (evaluate_total b x Hx) as (nx & rx & Hnx).
      destruct (evaluate_total b y Hy) as (ny & ry & Hny).
      assert (Hnone : rx = None ∨ ry = None).
      { destruct Hin as [<-|[<-|[]]]; [left|right]; eapply evaluate_det; eassumption. }
      exists (Datatypes.S (Nat.max k (Nat.max nx ny))). simpl.
      rewrite (applySubstitution_mono k (Nat.max k (Nat.max nx ny)) b _ _ ltac:(lia) Hk). simpl.
      rewrite (evaluate_mono nx (Nat.max k (Nat.max nx ny)) x b rx ltac:(lia) Hnx). simpl.
      rewrite (evaluate_mono ny (Nat.max k (Nat.max nx ny)) y b ry ltac:(lia) Hny). simpl.
      destruct Hnone as [-> | ->]; [reflexivity|destruct rx; reflexivity].
    + exists (Datatypes.S k). simpl. rewrite Hk. reflexivity.
  - exists (Datatypes.S k). simpl. rewrite Hk. reflexivity.
  - exists (Datatypes.S k). simpl. rewrite Hk. reflexivity.
Qed.

Lemma ex_Forall2 {A B} (R : A -> B -> Prop) (l : list A) :
  Forall (λ a, ∃ b, R a b) l -> ∃ k, Forall2 R l k.
Proof.
  induction 1 as [|a l [b Hb] _ [k Hk]]; [exists []; constructor|].
  exists (b :: k). constructor; assumption.
Qed.

(** [is/2] fails when its right-hand side evaluates to no value. *)
Lemma is_arith_error (F : nat) (l' e' : term) (b : Substitution) :
  applySubstitution F b l' = Some l' -> applySubstitution F b e' = Some e' ->
  Builtins.evaluateArithmeticExpression F e' b = Some None ->
  Builtins.callBuiltin (Datatypes.S F) "is" 2 [l'; e'] b = Some BFail.
Proof.
  intros H1 H2 H3. change (Builtins.callBuiltin (Datatypes.S F) "is" 2 [l'; e'] b)
    with (Builtins.is F [l'; e'] b).
  unfold Builtins.is, Builtins.apply. rewrite H1, H2. simpl. rewrite H3. reflexivity.
Qed.

(** An [is/2] goal whose built-in fails makes [solveGoals] return -1 with
    the state untouched. *)
Lemma is_goal_fails (db : Database) (md : nat) (cb : Substitution -> bool) (f : nat)
    (l e l' e' : term) (rest rs : list term) (bindings : Substitution) (pcl : nat) (st : RState) :
  applySubstitution f bindings (Compound "is" [l; e]) = Some (Compound "is" [l'; e']) ->
  mapM (applySubstitution f bindings) rest = Some rs ->
  Builtins.callBuiltin f "is" 2 [l'; e'] bindings = Some BFail ->
  solveGoals db md cb (Datatypes.S f) (Compound "is" [l; e] :: rest) bindings pcl st = Some (-1, st).
Proof.
  intros Hg Hr Hb.
  cbn [solveGoals mbind get mret lift].
  destruct (Nat.ltb md (current_depth_ st)); [reflexivity|].
  rewrite Hg, Hr. cbn [mbind lift mret builtinGoal].
  assert (Hib : Builtins.isBuiltin "is" (length [l'; e']) = true) by reflexivity.
  rewrite Hib. cbn [mbind lift mret length]. rewrite Hb. reflexivity.
Qed.

(* ------------------------------------------------------------------ *)
(** ** Lemmas on the lexer, the parser, [compareTerms], the indexes and the handlers *)

Lemma sapp_cons (c : Ascii.ascii) (s1 s2 : string) :
  (String.String c s1 +:+ s2)%string = String.String c (s1 +:+ s2)%string.
Proof. reflexivity. Qed.

Lemma sapp_nil_l (s : string) : (EmptyString +:+ s)%string = s.
Proof. reflexivity. Qed.

Lemma sapp_nil_r (s : string) : (s +:+ EmptyString)%string = s.
Proof. induction s as [|c s IH]; [reflexivity|]. rewrite sapp_cons, IH. reflexivity. Qed.

Lemma sapp_assoc (s1 s2 s3 : string) : ((s1 +:+ s2) +:+ s3 = s1 +:+ (s2 +:+ s3))%string.
Proof. induction s1 as [|c s1 IH]; [reflexivity|]. rewrite !sapp_cons, IH. reflexivity. Qed.

Lemma slength_app (s1 s2 : string) : String.length (s1 +:+ s2) = (String.length s1 + String.length s2)%nat.
Proof. induction s1 as [|c s1 IH]; [reflexivity|]. rewrite sapp_cons. simpl. rewrite IH. reflexivity. Qed.

Lemma skipWhitespace_length (s : string) : (String.length (skipWhitespace s) <= String.length s)%nat.
Proof. induction s as [|c s IH]; simpl; [lia|]. destruct (isWhitespace c); simpl; lia. Qed.

Lemma skipComment_length (s : string) : (String.length (skipComment s) <= String.length s)%nat.
Proof. induction s as [|c s IH]; simpl; [lia|]. destruct (Ascii.eqb c newline_char); simpl; lia. Qed.

Lemma readWhile_length (p : Ascii.ascii -> bool) (s : string) :
  (String.length (readWhile p s).2 <= String.length s)%nat.
Proof.
  induction s as [|c s IH]; simpl; [lia|]. destruct (p c); [|simpl; lia].
  destruct (readWhile p s) as [v r]. simpl in *. lia.
Qed.

Lemma readNumber_length (b : bool) (s : string) :
  (String.length (readNumber b s).2 <= String.length s)%nat.
Proof.
  revert b. induction s as [|c s IH]; intros b; simpl; [lia|].
  destruct (isDigit c).
  - specialize (IH b). destruct (readNumber b s) as [v r]. simpl in *. lia.
  - destruct (Ascii.eqb c "."%char && negb b); [|simpl; lia].
    specialize (IH true). destruct (readNumber true s) as [v r]. simpl in *. lia.
Qed.

Lemma readStringChars_length (s : string) :
  (String.length (readStringChars s).2 <= String.length s)%nat.
Proof.
  remember (String.length s) as n eqn:Hn. assert (Hle : (String.length s <= n)%nat) by lia.
  clear Hn. revert s Hle. induction n as [n IH] using lt_wf_ind. intros s Hle.
  destruct s as [|c s]; simpl; [lia|]. simpl in Hle.
  destruct (Ascii.eqb c dquote_char); [simpl; lia|].
  destruct (Ascii.eqb c backslash_char).
  - destruct s as [|e s']; [simpl; lia|]. simpl in Hle.
    assert (Hl := IH (String.length s') ltac:(lia) s' ltac:(lia)).
    destruct (readStringChars s') as [v r]. simpl in *. lia.
  - assert (Hl := IH (String.length s) ltac:(lia) s ltac:(lia)).
    destruct (readStringChars s) as [v r]. simpl in *. lia.
Qed.

Lemma atomStart_atomChar (c : Ascii.ascii) : isAtomStart c = true -> isAtomChar c = true.
Proof.
  unfold isAtomStart, isAtomChar, isalnum.
  destruct (islower c), (isupper c), (isdigit c), (Ascii.eqb c "_"%char); simpl; auto.
Qed.

Lemma variableStart_variableChar (c : Ascii.ascii) : isVariableStart c = true -> isVariableChar c = true.
Proof.
  unfold isVariableStart, isVariableChar, isalnum.
  destruct (islower c), (isupper c), (isdigit c), (Ascii.eqb c "_"%char); simpl; auto.
Qed.

Lemma scan_length (len : nat) (s : string) (o : option Token.Token) (r : string) :
  scan len s = Some (o, r) -> (String.length r < String.length s)%nat.
Proof.
  unfold scan. pose proof (skipWhitespace_length s) as Hw.
  destruct (skipWhitespace s) as [|c s1] eqn:Hs; [discriminate|].
  simpl in Hw. intros H. injection H as H.
  repeat match type of H with
  | (if ?b then _ else _) = _ => destruct b eqn:?
  end;
  try (injection H as <- <-; simpl; try lia).
  - pose proof (skipComment_length s1). simpl.
    destruct (Ascii.eqb c newline_char); simpl; lia.
  - destruct s1 as [|d r']; [injection H as <- <-; lia|].
    destruct (Ascii.eqb d "-"%char); injection H as <- <-; simpl in *; lia.
  - pose proof (readStringChars_length s1). try unfold readString in H.
    destruct (readStringChars s1) as [v r'']. injection H as <- <-. simpl in *. lia.
  - pose proof (readWhile_length isAtomChar s1). unfold readAtom in H. simpl in H.
    rewrite (atomStart_atomChar c) in H by assumption.
    destruct (readWhile isAtomChar s1) as [v r'']. injection H as <- <-. simpl in *. lia.
  - pose proof (readWhile_length isVariableChar s1). unfold readVariable in H. simpl in H.
    rewrite (variableStart_variableChar c) in H by assumption.
    destruct (readWhile isVariableChar s1) as [v r'']. injection H as <- <-. simpl in *. lia.
  - pose proof (readNumber_length false s1). simpl in H.
    destruct (isDigit c) eqn:Hd.
    + pose proof (readNumber_length false s1).
      destruct (readNumber false s1) as [v r'']. injection H as <- <-. simpl in *. lia.
    + congruence.
Qed.


Lemma lex_fuel (f1 f2 len : nat) (s : string) :
  (String.length s < f1)%nat -> (String.length s < f2)%nat -> lex f1 len s = lex f2 len s.
Proof.
  revert f2 s. induction f1 as [|f1 IH]; intros f2 s H1 H2; [lia|].
  destruct f2 as [|f2]; [lia|]. simpl.
  destruct (scan len s) as [[[tk|] r]|] eqn:E; [| |reflexivity];
    apply scan_length in E; [f_equal|]; apply IH; lia.
Qed.

Lemma lex_step (f len : nat) (s : string) :
  lex (S f) len s = match scan len s with
                    | None => [Token.mkToken Token.END_OF_INPUT "" len]
                    | Some (Some tk, r) => tk :: lex f len r
                    | Some (None, r) => lex f len r
                    end.
Proof. reflexivity. Qed.

Lemma lexS_cons (len : nat) (s r : string) (tk : Token.Token) :
  scan len s = Some (Some tk, r) -> lexS len s = tk :: lexS len r.
Proof.
  intros E. unfold lexS at 1. rewrite lex_step, E. f_equal. apply scan_length in E.
  apply lex_fuel; lia.
Qed.

Lemma lexS_skip (len : nat) (s r : string) :
  scan len s = Some (None, r) -> lexS len s = lexS len r.
Proof.
  intros E. unfold lexS at 1. rewrite lex_step, E. apply scan_length in E.
  apply lex_fuel; lia.
Qed.

Lemma lexS_end (len : nat) (s : string) :
  scan len s = None -> lexS len s = [Token.mkToken Token.END_OF_INPUT "" len].
Proof. intros E. unfold lexS. rewrite lex_step, E. reflexivity. Qed.

Lemma readWhile_app (p : Ascii.ascii -> bool) (a s : string) :
  str_forall p a = true -> stops p s -> readWhile p (a +:+ s) = (a, s).
Proof.
  induction a as [|c a IH]; intros Ha Hs.
  - destruct s as [|d s]; simpl in *; [reflexivity|]. rewrite Hs. reflexivity.
  - simpl in Ha. apply andb_true_iff in Ha as [Hc Ha]. rewrite sapp_cons. simpl.
    rewrite Hc, IH by assumption. reflexivity.
Qed.

Lemma skipWhitespace_nows (c : Ascii.ascii) (r : string) :
  isWhitespace c = false -> skipWhitespace (String.String c r) = String.String c r.
Proof. intros H. simpl. rewrite H. reflexivity. Qed.

Ltac char_tests H :=
  repeat match goal with
  | |- context [Ascii.eqb ?c ?d] =>
      is_var c; destruct (Ascii.eqb_spec c d) as [->|?]; [exfalso; vm_compute in H; congruence|]
  end.

Ltac all_chars c := destruct c as [[] [] [] [] [] [] [] []].

Lemma atomStart_facts (c : Ascii.ascii) :
  isAtomStart c = true -> isWhitespace c = false.
Proof. all_chars c; vm_compute; congruence. Qed.

Lemma upper_facts (c : Ascii.ascii) :
  isupper c = true -> isWhitespace c = false ∧ isAtomStart c = false ∧ isVariableStart c = true.
Proof. all_chars c; vm_compute; intros; try split; try split; congruence. Qed.

Lemma digit_facts (c : Ascii.ascii) :
  isDigit c = true ->
  isWhitespace c = false ∧ isAtomStart c = false ∧ isVariableStart c = false.
Proof. all_chars c; vm_compute; intros; try split; try split; congruence. Qed.

Lemma follows_stops (t : term) (s : string) :
  follows t s = true ->
  stops isAtomChar s ∧ stops isVariableChar s ∧
  (is_integer t = true -> stops (λ c, isDigit c || Ascii.eqb c "."%char) s).
Proof.
  destruct s as [|c s]; [intros; split; [exact I|split; [exact I|intros; exact I]]|].
  unfold follows, stops. destruct (is_integer t); simpl.
  - all_chars c; vm_compute; intros; try split; try split; try intros; congruence.
  - all_chars c; vm_compute; intros; try split; try split; try intros; congruence.
Qed.

Lemma scan_atom (len : nat) (a s : string) :
  atom_name a = true -> stops isAtomChar s ->
  scan len (a +:+ s) = Some (Some (Token.mkToken Token.ATOM a (len - String.length (a +:+ s))), s).
Proof.
  destruct a as [|c r]; intros Ha Hs; [discriminate|].
  simpl in Ha. apply andb_true_iff in Ha as [Hc Hr].
  unfold scan. rewrite sapp_cons, skipWhitespace_nows by (apply atomStart_facts; exact Hc).
  cbv zeta. char_tests Hc. rewrite Hc. unfold readAtom. rewrite <- sapp_cons, readWhile_app.
  - reflexivity.
  - simpl. rewrite atomStart_atomChar, Hr by exact Hc. reflexivity.
  - exact Hs.
Qed.

Lemma scan_var (len : nat) (v s : string) :
  var_name v = true -> stops isVariableChar s ->
  scan len (v +:+ s) = Some (Some (Token.mkToken Token.VARIABLE v (len - String.length (v +:+ s))), s).
Proof.
  destruct v as [|c r]; intros Hv Hs; [discriminate|].
  simpl in Hv. apply andb_true_iff in Hv as [Hc Hr].
  destruct (upper_facts c Hc) as (Hw & Ha & Hvs).
  unfold scan. rewrite sapp_cons, skipWhitespace_nows by exact Hw.
  cbv zeta. char_tests Hc. rewrite Ha, Hvs. unfold readVariable. rewrite <- sapp_cons, readWhile_app.
  - reflexivity.
  - simpl. rewrite variableStart_variableChar, Hr by exact Hvs. reflexivity.
  - exact Hs.
Qed.

Lemma readNumber_app (d s : string) :
  str_forall isDigit d = true -> stops (λ c, isDigit c || Ascii.eqb c "."%char) s ->
  readNumber false (d +:+ s) = (d, s).
Proof.
  induction d as [|c d IH]; intros Hd Hs.
  - destruct s as [|c s]; [reflexivity|]. simpl in Hs |- *.
    apply orb_false_iff in Hs as [H1 H2]. rewrite H1, H2. reflexivity.
  - simpl in Hd. apply andb_true_iff in Hd as [Hc Hd]. rewrite sapp_cons. simpl.
    rewrite Hc, IH by assumption. reflexivity.
Qed.

Lemma has_dot_digits (d : string) : str_forall isDigit d = true -> has_dot d = false.
Proof.
  unfold has_dot. induction d as [|c d IH]; intros Hd; [reflexivity|].
  simpl in Hd |- *. apply andb_true_iff in Hd as [Hc Hd]. rewrite IH by exact Hd.
  rewrite orb_false_r. revert Hc. all_chars c; vm_compute; congruence.
Qed.

Lemma scan_digits (len : nat) (d s : string) :
  d <> EmptyString -> str_forall isDigit d = true ->
  stops (λ c, isDigit c || Ascii.eqb c "."%char) s ->
  scan len (d +:+ s) = Some (Some (Token.mkToken Token.INTEGER d (len - String.length (d +:+ s))), s).
Proof.
  destruct d as [|c r]; intros Hne Hd Hs; [congruence|].
  pose proof Hd as Hd'. simpl in Hd'. apply andb_true_iff in Hd' as [Hc _].
  destruct (digit_facts c Hc) as (Hw & Ha & Hv).
  unfold scan. rewrite sapp_cons, skipWhitespace_nows by exact Hw.
  cbv zeta. char_tests Hc. rewrite Ha, Hv, Hc. rewrite <- sapp_cons, readNumber_app by assumption.
  rewrite has_dot_digits by exact Hd. reflexivity.
Qed.

Lemma readStringChars_app (v s : string) :
  str_forall str_char_ok v = true ->
  readStringChars (v +:+ dquote +:+ s) = (v, s).
Proof.
  induction v as [|c v IH]; intros Hv; [reflexivity|].
  simpl in Hv. apply andb_true_iff in Hv as [Hc Hv]. rewrite sapp_cons. simpl.
  unfold str_char_ok in Hc. apply negb_true_iff, orb_false_iff in Hc as [H1 H2].
  rewrite H1, H2, IH by exact Hv. reflexivity.
Qed.

Lemma scan_str (len : nat) (v s : string) :
  str_forall str_char_ok v = true ->
  scan len (dquote +:+ v +:+ dquote +:+ s)
  = Some (Some (Token.mkToken Token.STRING v (len - String.length (dquote +:+ v +:+ dquote +:+ s))), s).
Proof.
  intros Hv. change (dquote +:+ ?x) with (String.String dquote_char x) at 1.
  unfold scan. simpl. rewrite readStringChars_app by exact Hv. reflexivity.
Qed.

Lemma scan_ws (len : nat) (c : Ascii.ascii) (s : string) :
  isWhitespace c = true -> scan len (String.String c s) = scan len s.
Proof. intros Hc. unfold scan. simpl. rewrite Hc. reflexivity. Qed.

Lemma scan_char (len : nat) (c : Ascii.ascii) (ty : Token.TokenType) (s : string) :
  (c, ty) ∈ [("("%char, Token.LPAREN); (")"%char, Token.RPAREN); ("["%char, Token.LBRACKET);
             ("]"%char, Token.RBRACKET); ("."%char, Token.DOT); (","%char, Token.COMMA);
             ("|"%char, Token.PIPE)] ->
  scan len (String.String c s)
  = Some (Some (Token.mkToken ty (String.String c EmptyString) (len - S (String.length s))), s).
Proof.
  intros H. repeat (apply elem_of_cons in H as [H|H]; [injection H as -> ->; reflexivity|]).
  apply elem_of_nil in H as [].
Qed.

Lemma scan_rule (len : nat) (s : string) :
  scan len (":-" +:+ s)%string
  = Some (Some (Token.mkToken Token.RULE_OP ":-" (len - S (S (String.length s)))), s).
Proof. reflexivity. Qed.


Lemma pretty_N_char_code (d : N) :
  (d < 10)%N -> (Z.of_nat (code (pretty_N_char d)) - 48 = Z.of_N d)%Z ∧ isDigit (pretty_N_char d) = true.
Proof.
  intros Hd. assert (d = 0 ∨ d = 1 ∨ d = 2 ∨ d = 3 ∨ d = 4 ∨ d = 5 ∨ d = 6 ∨ d = 7 ∨ d = 8 ∨ d = 9)%N
    as H by lia.
  repeat destruct H as [->|H]; [..|subst d]; split; reflexivity.
Qed.

Lemma pretty_N_go_digits (x : N) (s : string) :
  digits_value 0 (pretty_N_go x s) = digits_value (Z.of_N x) s ∧
  str_forall isDigit (pretty_N_go x s) = str_forall isDigit s.
Proof.
  revert s. induction (N.lt_wf_0 x) as [x _ IH]; intros s.
  destruct (decide (x = 0)%N) as [->|Hx]; [rewrite pretty_N_go_0; split; reflexivity|].
  rewrite pretty_N_go_step by lia.
  destruct (IH (x `div` 10)%N ltac:(apply N.div_lt; lia) (String.String (pretty_N_char (x `mod` 10)) s))
    as [H1 H2].
  destruct (pretty_N_char_code (x `mod` 10)%N ltac:(apply N.mod_lt; lia)) as [Hc Hd].
  rewrite H1, H2. simpl. rewrite Hc, Hd. split; [|reflexivity]. f_equal.
  pose proof (N.div_mod x 10 ltac:(lia)). lia.
Qed.

Lemma pretty_N_go_nonempty (x : N) (s : string) : (0 < x)%N -> pretty_N_go x s <> EmptyString.
Proof.
  revert s. induction (N.lt_wf_0 x) as [x _ IH]; intros s Hx.
  rewrite pretty_N_go_step by lia.
  destruct (decide (x `div` 10 = 0)%N) as [E|E].
  - rewrite E, pretty_N_go_0. discriminate.
  - apply IH; [apply N.div_lt; lia|]. revert E. generalize (x `div` 10)%N. intros; lia.
Qed.

Lemma pretty_Z_digits (z : Z) :
  (0 <= z)%Z -> pretty z <> EmptyString ∧ str_forall isDigit (pretty z) = true ∧ digits_value 0 (pretty z) = z.
Proof.
  intros Hz. destruct z as [|p|p]; [split; [discriminate|split; reflexivity]| |lia].
  change (pretty (Zpos p)) with (pretty (Npos p)). unfold pretty, pretty_N.
  rewrite decide_False by discriminate.
  destruct (pretty_N_go_digits (Npos p) "") as [H1 H2].
  split; [apply pretty_N_go_nonempty; lia|]. rewrite H1, H2. split; reflexivity.
Qed.

Lemma stoll_pretty (z : Z) : (0 <= z <= Builtins.int64_max)%Z -> stoll (pretty z) = Some z.
Proof.
  intros Hz. unfold stoll. destruct (pretty_Z_digits z ltac:(lia)) as (_ & _ & ->).
  destruct (Z.ltb_spec Builtins.int64_max z); [lia|reflexivity].
Qed.

Lemma lexS_tok (len : nat) (s r : string) (tk : Token.Token) :
  scan len s = Some (Some tk, r) -> strip (lexS len s) = (Token.type tk, Token.value tk) :: strip (lexS len r).
Proof. intros E. rewrite (lexS_cons _ _ _ _ E). reflexivity. Qed.

Lemma lexS_ws (len : nat) (c : Ascii.ascii) (s : string) :
  isWhitespace c = true -> lexS len (String.String c s) = lexS len s.
Proof.
  intros Hc. destruct (scan len s) as [[[tk|] r]|] eqn:E.
  - rewrite (lexS_cons len s r tk E). apply lexS_cons. rewrite scan_ws; assumption.
  - rewrite (lexS_skip len s r E). apply lexS_skip. rewrite scan_ws; assumption.
  - rewrite (lexS_end len s E). apply lexS_end. rewrite scan_ws; assumption.
Qed.

Lemma concat_cons2 (sep x y : string) (ys : list string) :
  String.concat sep (x :: y :: ys) = (x +:+ sep +:+ String.concat sep (y :: ys))%string.
Proof. reflexivity. Qed.

Lemma commajoin_cons2 {A} (c : A) (x y : list A) (ys : list (list A)) :
  commajoin c (x :: y :: ys) = x ++ c :: commajoin c (y :: ys).
Proof. reflexivity. Qed.

Lemma toString_compound (f : string) (args : list term) :
  args <> [] -> toString (Compound f args) = (f +:+ "(" +:+ String.concat ", " (map toString args) +:+ ")")%string.
Proof. destruct args; [congruence|reflexivity]. Qed.

Lemma ttoks_compound (f : string) (args : list term) :
  args <> [] -> ttoks (Compound f args)
  = (Token.ATOM, f) :: (Token.LPAREN, "(") :: commajoin (Token.COMMA, ",") (map ttoks args) ++ [(Token.RPAREN, ")")].
Proof. destruct args; [congruence|reflexivity]. Qed.

Section LexTerm.
Variable len : nat.

Lemma lex_join (args : list term) (s : string) :
  Forall (lexes_as len) args -> forallb printable args = true ->
  (∀ a, last args = Some a -> follows a s = true) ->
  strip (lexS len (String.concat ", " (map toString args) +:+ s))
  = commajoin (Token.COMMA, ",") (map ttoks args) ++ strip (lexS len s).
Proof.
  induction args as [|a rest IH]; intros Hall Hp Hs; [reflexivity|].
  inversion Hall as [|? ? Ha Hrest]; subst. simpl in Hp. apply andb_true_iff in Hp as [Hpa Hpr].
  destruct rest as [|b rest'].
  - simpl. apply Ha; auto.
  - pose proof (IH Hrest Hpr Hs) as IH'. cbn [map] in IH' |- *.
    rewrite concat_cons2, commajoin_cons2.
    rewrite sapp_assoc, Ha by (auto; reflexivity).
    change ((", " +:+ ?x) +:+ s)%string with (String.String ","%char (String.String " "%char (x +:+ s))).
    rewrite (lexS_tok _ _ _ _ (scan_char len ","%char Token.COMMA _ ltac:(set_solver))).
    rewrite lexS_ws by reflexivity. rewrite IH', <- app_assoc. reflexivity.
Qed.

Lemma lex_term (t : term) : lexes_as len t.
Proof.
  induction t as [a|v|z|d|str|f args IHargs|els tl IHels IHtl] using term_ind';
    unfold lexes_as; intros Hp s Hs; destruct (follows_stops _ _ Hs) as (Hsa & Hsv & Hsi).
  - simpl. rewrite (lexS_tok _ _ _ _ (scan_atom len a s Hp Hsa)). reflexivity.
  - simpl. rewrite (lexS_tok _ _ _ _ (scan_var len v s Hp Hsv)). reflexivity.
  - simpl in Hp |- *. destruct (pretty_Z_digits z ltac:(lia)) as (Hne & Hd & _).
    rewrite (lexS_tok _ _ _ _ (scan_digits len (pretty z) s Hne Hd (Hsi eq_refl))). reflexivity.
  - discriminate.
  - simpl in Hp |- *. rewrite !sapp_assoc, (lexS_tok _ _ _ _ (scan_str len str s Hp)). reflexivity.
  - simpl in Hp. apply andb_true_iff in Hp as [Hp Hargs]. apply andb_true_iff in Hp as [Hf Hne].
    apply negb_true_iff, bool_decide_eq_false in Hne.
    rewrite toString_compound, ttoks_compound by exact Hne. rewrite !sapp_assoc.
    erewrite lexS_tok; [|apply scan_atom; [exact Hf|exact eq_refl]].
    change (("(" +:+ ?x))%string with (String.String "("%char x).
    rewrite (lexS_tok _ _ _ _ (scan_char len "("%char Token.LPAREN _ ltac:(set_solver))).
    rewrite lex_join by (auto; intros ? _; reflexivity).
    change ((")" +:+ ?x))%string with (String.String ")"%char x).
    rewrite (lexS_tok _ _ _ _ (scan_char len ")"%char Token.RPAREN _ ltac:(set_solver))).
    simpl. rewrite <- !app_assoc. simpl. rewrite <- ?app_assoc. reflexivity.
  - simpl in Hp. apply andb_true_iff in Hp as [Hels Htl].
    simpl toString. rewrite !sapp_assoc.
    change (("[" +:+ ?x))%string with (String.String "["%char x).
    rewrite (lexS_tok _ _ _ _ (scan_char len "["%char Token.LBRACKET _ ltac:(set_solver))).
    destruct tl as [x|]; cbv iota; rewrite ?sapp_assoc.
    + apply andb_true_iff in Htl as [_ Hx].
      rewrite lex_join by (auto; intros ? _; reflexivity).
      change ((" | " +:+ ?y))%string with (String.String " "%char (String.String "|"%char (String.String " "%char y))).
      rewrite lexS_ws by reflexivity.
      rewrite (lexS_tok _ _ _ _ (scan_char len "|"%char Token.PIPE _ ltac:(set_solver))).
      rewrite lexS_ws by reflexivity.
      rewrite (IHtl x eq_refl Hx) by reflexivity.
      change (("]" +:+ ?y))%string with (String.String "]"%char y).
      rewrite (lexS_tok _ _ _ _ (scan_char len "]"%char Token.RBRACKET _ ltac:(set_solver))).
      simpl. rewrite <- !app_assoc. simpl. rewrite <- ?app_assoc. reflexivity.
    + rewrite lex_join by (auto; intros ? _; reflexivity).
      change (("" +:+ ?y))%string with y.
      change (("]" +:+ ?y))%string with (String.String "]"%char y).
      rewrite (lexS_tok _ _ _ _ (scan_char len "]"%char Token.RBRACKET _ ltac:(set_solver))).
      simpl. rewrite <- !app_assoc. simpl. rewrite <- ?app_assoc. reflexivity.
Qed.

End LexTerm.


Lemma ttoks_head (t : term) : ∃ ty v r, ttoks t = (ty, v) :: r ∧ starts_term ty = true.
Proof.
  destruct t as [| | | | |f [|a args]|els tl]; do 3 eexists; split; try reflexivity.
Qed.

Lemma hd_not_term (ty : Token.TokenType) (t : term) (r : list ttok) :
  starts_term ty = false -> hd_not ty (ttoks t ++ r).
Proof.
  intros H. destruct (ttoks_head t) as (ty' & v & r' & -> & H'). simpl. intros ->. congruence.
Qed.

Lemma hd_not_commajoin (ty : Token.TokenType) (ts : list term) (r : list ttok) :
  starts_term ty = false -> ts <> [] -> hd_not ty (commajoin (Token.COMMA, ",") (map ttoks ts) ++ r).
Proof.
  intros H Hne. destruct ts as [|t [|t' ts]]; [congruence| |].
  - apply hd_not_term, H.
  - simpl. rewrite <- app_assoc. apply hd_not_term, H.
Qed.

Section ParserLemmas.
Variable stod : string -> option double.
Variable tokens_ : list Token.Token.

Lemma strip_drop_cons (n : nat) (l : list Token.Token) (ty : Token.TokenType) (v : string) (r : list ttok) :
  strip (drop n l) = (ty, v) :: r ->
  ∃ tk, l !! n = Some tk ∧ Token.type tk = ty ∧ Token.value tk = v ∧ strip (drop (S n) l) = r.
Proof.
  revert l. induction n as [|n IH]; intros [|tk l] H; simpl in H; try discriminate.
  - injection H as <- <- <-. exists tk. auto.
  - apply IH. exact H.
Qed.

Lemma strip_drop_lookup (n : nat) (l : list Token.Token) (tk : Token.Token) :
  l !! n = Some tk -> strip (drop n l) = (Token.type tk, Token.value tk) :: strip (drop (S n) l).
Proof.
  revert l. induction n as [|n IH]; intros [|tk' l] H; simpl in H; try discriminate.
  - injection H as ->. reflexivity.
  - apply IH. exact H.
Qed.

Lemma strip_drop_app (n : nat) (l : list Token.Token) (a b : list ttok) :
  strip (drop n l) = a ++ b -> strip (drop (n + length a) l) = b.
Proof.
  revert n. induction a as [|[ty v] a IH]; intros n H.
  - rewrite Nat.add_0_r. exact H.
  - destruct (strip_drop_cons n l ty v (a ++ b) H) as (tk & _ & _ & _ & H').
    cbn [length]. rewrite Nat.add_succ_r. apply (IH (S n)). exact H'.
Qed.

Lemma at_tok (n : nat) (ty : Token.TokenType) (v : string) (r : list ttok) :
  strip (drop n tokens_) = (ty, v) :: r -> ty <> Token.END_OF_INPUT ->
  (∀ ty', check tokens_ ty' n = bool_decide (ty = ty')) ∧
  (∃ tk, advance tokens_ n = POk tk (S n) ∧ Token.type tk = ty ∧ Token.value tk = v) ∧
  strip (drop (S n) tokens_) = r.
Proof.
  intros H Hty. destruct (strip_drop_cons n tokens_ ty v r H) as (tk & Hl & <- & <- & Hr).
  assert (Ha : isAtEnd tokens_ n = false).
  { unfold isAtEnd. rewrite Hl. apply bool_decide_eq_false. exact Hty. }
  split; [|split; [|exact Hr]].
  - intros ty'. unfold check. rewrite Ha, Hl. reflexivity.
  - exists tk. unfold advance. rewrite Ha, Hl. auto.
Qed.

Lemma match_tok (n : nat) (ty ty' : Token.TokenType) (v : string) (r : list ttok) :
  strip (drop n tokens_) = (ty, v) :: r -> ty <> Token.END_OF_INPUT ->
  match_ tokens_ ty' n = if bool_decide (ty = ty') then POk true (S n) else POk false n.
Proof.
  intros H Hty. destruct (at_tok n ty v r H Hty) as (Hc & (tk & Hadv & _) & _).
  unfold match_. rewrite Hc. destruct (bool_decide (ty = ty')); [|reflexivity].
  unfold pbind. rewrite Hadv. reflexivity.
Qed.

Lemma check_not (n : nat) (ty : Token.TokenType) :
  hd_not ty (strip (drop n tokens_)) -> check tokens_ ty n = false.
Proof.
  intros H. unfold check. destruct (isAtEnd tokens_ n); [reflexivity|].
  destruct (tokens_ !! n) as [tk|] eqn:E; [|reflexivity].
  rewrite (strip_drop_lookup n tokens_ tk E) in H. simpl in H.
  apply bool_decide_eq_false. exact H.
Qed.

Lemma match_not (n : nat) (ty : Token.TokenType) :
  hd_not ty (strip (drop n tokens_)) -> match_ tokens_ ty n = POk false n.
Proof. intros H. unfold match_. rewrite check_not by exact H. reflexivity. Qed.

Lemma pbind_ok {A B} (m : P A) (k : A -> P B) (n : nat) (a : A) (c : nat) :
  m n = POk a c -> pbind m k n = k a c.
Proof. intros H. unfold pbind. rewrite H. reflexivity. Qed.

Lemma pbind_pret {A B} (a : A) (k : A -> P B) (n : nat) : pbind (pret a) k n = k a n.
Proof. reflexivity. Qed.

End ParserLemmas.


Ltac bd :=
  repeat match goal with
  | |- context [bool_decide (?a = ?b)] =>
      first [rewrite (bool_decide_true (a = b)) by reflexivity
            | rewrite (bool_decide_false (a = b)) by discriminate]
  end.

Lemma lsum_cons (x : nat) (l : list nat) : list_sum (x :: l) = (x + list_sum l)%nat.
Proof. reflexivity. Qed.

Section ParseTerm.
Variable stod : string -> option double.
Variable tokens_ : list Token.Token.

Lemma parse_args_loop (args : list term) :
  Forall (parses_as stod tokens_) args -> forallb printable args = true -> args <> [] ->
  ∀ g acc n rest, (length args + list_sum (map pfuel args) <= g)%nat ->
  strip (drop n tokens_) = commajoin (Token.COMMA, ",") (map ttoks args) ++ rest ->
  hd_not Token.COMMA rest -> hd_not Token.LPAREN rest ->
  parseArgumentsLoop stod tokens_ g acc n
  = POk (acc ++ args) (n + length (commajoin (Token.COMMA, ",") (map ttoks args))).
Proof.
  induction args as [|a args0 IH]; intros Hall Hp Hne g acc n rest Hg H Hc Hl; [congruence|].
  inversion Hall as [|? ? Ha Hrest]; subst. simpl in Hp. apply andb_true_iff in Hp as [Hpa Hpr].
  destruct g as [|g]; [simpl in Hg; lia|]. cbn [parseArgumentsLoop].
  destruct args0 as [|b args'].
  - simpl in H, Hg |- *. rewrite (pbind_ok _ _ _ _ _ (Ha Hpa g n rest ltac:(lia) H (λ _, Hl))).
    pose proof (strip_drop_app _ _ _ _ H) as H'.
    rewrite (pbind_ok _ _ _ _ _ (match_not tokens_ _ Token.COMMA ltac:(rewrite H'; exact Hc))).
    reflexivity.
  - cbn [map] in H. rewrite commajoin_cons2, <- app_assoc, <- app_comm_cons in H.
    cbn [map length] in Hg. rewrite !lsum_cons in Hg.
    rewrite (pbind_ok _ _ _ _ _ (Ha Hpa g n _ ltac:(lia) H (λ _, ltac:(simpl; discriminate)))).
    pose proof (strip_drop_app _ _ _ _ H) as H'.
    rewrite (pbind_ok _ _ _ _ _ (match_tok tokens_ _ _ Token.COMMA _ _ H' ltac:(discriminate))).
    bd. destruct (at_tok tokens_ _ _ _ _ H' ltac:(discriminate)) as (_ & _ & H'').
    rewrite (IH Hrest Hpr ltac:(discriminate) g (acc ++ [a]) _ rest ltac:(cbn [map length] in *; rewrite ?lsum_cons in *; lia) H'' Hc Hl).
    rewrite <- app_assoc. f_equal. cbn [map]. rewrite commajoin_cons2, length_app. cbn [length]. lia.
Qed.

Lemma parse_elems_loop (els : list term) :
  Forall (parses_as stod tokens_) els -> forallb printable els = true -> els <> [] ->
  ∀ g acc n rest, (length els + list_sum (map pfuel els) <= g)%nat ->
  strip (drop n tokens_) = commajoin (Token.COMMA, ",") (map ttoks els) ++ rest ->
  hd_not Token.COMMA rest -> hd_not Token.LPAREN rest ->
  parseListElementsLoop stod tokens_ g acc n
  = POk (acc ++ els) (n + length (commajoin (Token.COMMA, ",") (map ttoks els))).
Proof.
  induction els as [|a els0 IH]; intros Hall Hp Hne g acc n rest Hg H Hc Hl; [congruence|].
  inversion Hall as [|? ? Ha Hrest]; subst. simpl in Hp. apply andb_true_iff in Hp as [Hpa Hpr].
  destruct g as [|g]; [simpl in Hg; lia|]. cbn [parseListElementsLoop].
  destruct els0 as [|b els'].
  - simpl in H, Hg |- *. rewrite (pbind_ok _ _ _ _ _ (Ha Hpa g n rest ltac:(lia) H (λ _, Hl))).
    pose proof (strip_drop_app _ _ _ _ H) as H'.
    rewrite (pbind_ok _ _ _ _ _ (match_not tokens_ _ Token.COMMA ltac:(rewrite H'; exact Hc))).
    reflexivity.
  - cbn [map] in H. rewrite commajoin_cons2, <- app_assoc, <- app_comm_cons in H.
    cbn [map length] in Hg. rewrite !lsum_cons in Hg.
    rewrite (pbind_ok _ _ _ _ _ (Ha Hpa g n _ ltac:(lia) H (λ _, ltac:(simpl; discriminate)))).
    pose proof (strip_drop_app _ _ _ _ H) as H'.
    rewrite (pbind_ok _ _ _ _ _ (match_tok tokens_ _ _ Token.COMMA _ _ H' ltac:(discriminate))).
    bd. destruct (at_tok tokens_ _ _ _ _ H' ltac:(discriminate)) as (_ & _ & H'').
    rewrite (check_not tokens_ _ Token.PIPE) by (rewrite H''; apply (hd_not_commajoin Token.PIPE (b :: els')); [reflexivity|discriminate]).
    simpl andb. cbv iota.
    rewrite (IH Hrest Hpr ltac:(discriminate) g (acc ++ [a]) _ rest ltac:(cbn [map length] in *; rewrite ?lsum_cons in *; lia) H'' Hc Hl).
    rewrite <- app_assoc. f_equal. cbn [map]. rewrite commajoin_cons2, length_app. cbn [length]. lia.
Qed.

Lemma parseArguments_S (f n : nat) :
  parseArguments stod tokens_ (S f) n
  = if negb (check tokens_ Token.RPAREN n) then parseArgumentsLoop stod tokens_ f [] n else POk [] n.
Proof. reflexivity. Qed.

Lemma parseListElements_S (f n : nat) :
  parseListElements stod tokens_ (S f) n = parseListElementsLoop stod tokens_ f [] n.
Proof. reflexivity. Qed.

Lemma length_ttoks_pos (t : term) : (1 <= length (ttoks t))%nat.
Proof. destruct (ttoks_head t) as (ty & v & r & -> & _). simpl. lia. Qed.

Lemma parse_term (t : term) : parses_as stod tokens_ t.
Proof.
  induction t as [a|v|z|d|str|fn args IHargs|els tl IHels IHtl] using term_ind';
    unfold parses_as; intros Hp f n rest Hf H Hl; simpl in Hf.
  - destruct f as [|[|f]]; [lia|lia|]. simpl in H.
    destruct (at_tok tokens_ _ _ _ _ H ltac:(discriminate)) as (Hc & (tk & Hadv & _ & Hv) & H').
    cbn [parseTerm]. rewrite !Hc. bd. cbn [parseCompoundOrAtom].
    rewrite (pbind_ok _ _ _ _ _ Hadv).
    rewrite (pbind_ok _ _ _ _ _ (match_not tokens_ _ Token.LPAREN ltac:(rewrite H'; exact (Hl eq_refl)))).
    unfold pret. rewrite Hv. f_equal. simpl. lia.
  - destruct f as [|f]; [lia|]. simpl in H.
    destruct (at_tok tokens_ _ _ _ _ H ltac:(discriminate)) as (Hc & (tk & Hadv & _ & Hv) & H').
    cbn [parseTerm]. rewrite !Hc. bd.
    rewrite (pbind_ok _ _ _ _ _ Hadv). unfold pret. rewrite Hv. f_equal. simpl. lia.
  - destruct f as [|f]; [lia|]. simpl in H, Hp.
    destruct (at_tok tokens_ _ _ _ _ H ltac:(discriminate)) as (Hc & (tk & Hadv & _ & Hv) & H').
    cbn [parseTerm]. rewrite !Hc. bd.
    rewrite (pbind_ok _ _ _ _ _ Hadv). rewrite Hv, stoll_pretty by lia. unfold pret. f_equal. simpl. lia.
  - discriminate.
  - destruct f as [|f]; [lia|]. simpl in H.
    destruct (at_tok tokens_ _ _ _ _ H ltac:(discriminate)) as (Hc & (tk & Hadv & _ & Hv) & H').
    cbn [parseTerm]. rewrite !Hc. bd.
    rewrite (pbind_ok _ _ _ _ _ Hadv). unfold pret. rewrite Hv. f_equal. simpl. lia.
  - simpl in Hp. apply andb_true_iff in Hp as [Hp Hargs]. apply andb_true_iff in Hp as [_ Hne].
    apply negb_true_iff, bool_decide_eq_false in Hne.
    destruct f as [|[|[|f]]]; [lia|lia|lia|].
    rewrite ttoks_compound in H |- * by exact Hne. rewrite <- !app_comm_cons in H.
    destruct (at_tok tokens_ _ _ _ _ H ltac:(discriminate)) as (Hc & (tk & Hadv & _ & Hv) & H1).
    cbn [parseTerm]. rewrite !Hc. bd. cbn [parseCompoundOrAtom].
    rewrite (pbind_ok _ _ _ _ _ Hadv).
    rewrite (pbind_ok _ _ _ _ _ (match_tok tokens_ _ _ Token.LPAREN _ _ H1 ltac:(discriminate))). bd.
    destruct (at_tok tokens_ _ _ _ _ H1 ltac:(discriminate)) as (_ & _ & H2).
    rewrite <- app_assoc in H2.
    assert (Hargs' : parseArguments stod tokens_ (S f) (S (S n))
                     = POk args (S (S n) + length (commajoin (Token.COMMA, ",") (map ttoks args)))).
    { rewrite parseArguments_S. rewrite (check_not tokens_ _ Token.RPAREN)
        by (rewrite H2; apply hd_not_commajoin; [reflexivity|exact Hne]).
      cbn [negb].
      rewrite (parse_args_loop args IHargs Hargs Hne f [] (S (S n)) _ ltac:(lia) H2
                 ltac:(simpl; discriminate) ltac:(simpl; discriminate)).
      reflexivity. }
    rewrite (pbind_ok _ _ _ _ _ Hargs').
    pose proof (strip_drop_app _ _ _ _ H2) as H3.
    rewrite (pbind_ok _ _ _ _ _ (match_tok tokens_ _ _ Token.RPAREN _ _ H3 ltac:(discriminate))). bd.
    cbn [negb]. unfold pret. rewrite Hv. f_equal. cbn [length]. rewrite length_app. cbn [length]. lia.
  - simpl in Hp. apply andb_true_iff in Hp as [Hels Htl].
    destruct f as [|[|[|f]]]; [lia|lia|lia|].
    assert (Htt : ttoks (List els tl) = (Token.LBRACKET, "[") :: commajoin (Token.COMMA, ",") (map ttoks els)
              ++ (match tl with Some x => (Token.PIPE, "|") :: ttoks x | None => [] end)
              ++ [(Token.RBRACKET, "]")]) by reflexivity.
    rewrite Htt in H |- *. rewrite <- app_comm_cons in H.
    destruct (at_tok tokens_ _ _ _ _ H ltac:(discriminate)) as (Hc & _ & H1).
    rewrite <- app_assoc in H1.
    cbn [parseTerm]. rewrite !Hc. bd. cbn [parseList].
    rewrite (pbind_ok _ _ _ _ _ (match_tok tokens_ _ _ Token.LBRACKET _ _ H ltac:(discriminate))). bd.
    cbn [negb].
    destruct (decide (els = [])) as [->|Hne].
    + destruct tl as [x|]; [discriminate|]. simpl in H1.
      rewrite (pbind_ok _ _ _ _ _ (match_tok tokens_ _ _ Token.RBRACKET _ _ H1 ltac:(discriminate))). bd.
      cbn [negb]. unfold pret. f_equal. simpl. lia.
    + rewrite (pbind_ok _ _ _ _ _ (match_not tokens_ _ Token.RBRACKET
                 ltac:(rewrite H1; apply hd_not_commajoin; [reflexivity|exact Hne]))).
      cbn [negb].
      assert (Hel : parseListElements stod tokens_ (S f) (S n)
                    = POk els (S n + length (commajoin (Token.COMMA, ",") (map ttoks els)))).
      { rewrite parseListElements_S.
        apply (parse_elems_loop els IHels Hels Hne f [] (S n) _ ltac:(lia) H1);
          destruct tl; simpl; discriminate. }
      rewrite (pbind_ok _ _ _ _ _ Hel).
      pose proof (strip_drop_app _ _ _ _ H1) as H2.
      destruct tl as [x|].
      * apply andb_true_iff in Htl as [_ Hx]. rewrite <- app_assoc, <- app_comm_cons in H2.
        rewrite (pbind_ok _ _ _ _ _ (match_tok tokens_ _ _ Token.PIPE _ _ H2 ltac:(discriminate))). bd.
        cbn [negb].
        destruct (at_tok tokens_ _ _ _ _ H2 ltac:(discriminate)) as (_ & _ & H3).
        assert (Hx' : pbind (parseTerm stod tokens_ (S f)) (λ t, pret (Some t))
                        (S (S n + length (commajoin (Token.COMMA, ",") (map ttoks els))))
                      = POk (Some x) (S (S n + length (commajoin (Token.COMMA, ",") (map ttoks els)))
                                      + length (ttoks x))).
        { rewrite (pbind_ok _ _ _ _ _ (IHtl x eq_refl Hx (S f) _ _ ltac:(lia) H3
                     ltac:(intros; simpl; discriminate))). reflexivity. }
        rewrite (pbind_ok _ _ _ _ _ Hx').
        pose proof (strip_drop_app _ _ _ _ H3) as H4.
        rewrite (pbind_ok _ _ _ _ _ (match_tok tokens_ _ _ Token.RBRACKET _ _ H4 ltac:(discriminate))). bd.
        cbn [negb]. unfold pret. f_equal.
        cbn [length]. rewrite !length_app. cbn [length]. lia.
      *
        rewrite (pbind_ok _ _ _ _ _ (match_tok tokens_ _ _ Token.PIPE _ _ H2 ltac:(discriminate))). bd.
        cbn [negb]. rewrite pbind_pret. cbn beta.
        rewrite (pbind_ok _ _ _ _ _ (match_tok tokens_ _ _ Token.RBRACKET _ _ H2 ltac:(discriminate))). bd.
        cbn [negb]. unfold pret. f_equal.
        cbn [length]. rewrite !length_app. cbn [length]. lia.
Qed.

End ParseTerm.


Lemma length_commajoin {A} (c : A) (ls : list (list A)) :
  ls <> [] -> (length (commajoin c ls) + 1 = list_sum (map length ls) + length ls)%nat.
Proof.
  induction ls as [|x [|y ls] IH]; intros Hne; [congruence| |].
  - simpl. lia.
  - rewrite commajoin_cons2, length_app. cbn [length map]. rewrite lsum_cons.
    specialize (IH ltac:(discriminate)). cbn [length map] in IH. rewrite lsum_cons in IH |- *. lia.
Qed.

Lemma sum_pfuel_le (l : list term) :
  Forall (λ a, pfuel a <= 2 * length (ttoks a))%nat l ->
  (list_sum (map pfuel l) <= 2 * list_sum (map length (map ttoks l)))%nat.
Proof.
  induction 1 as [|a l Ha Hl IH]; [simpl; lia|]. cbn [map]. rewrite !lsum_cons. lia.
Qed.

Lemma Forall_printable (P : term -> Prop) (l : list term) :
  Forall (λ a, printable a = true -> P a) l -> forallb printable l = true -> Forall P l.
Proof.
  induction 1 as [|a l Ha Hl IH]; intros Hp; constructor; simpl in Hp;
    apply andb_true_iff in Hp as [H1 H2]; auto.
Qed.

Lemma pfuel_bound (t : term) : printable t = true -> (pfuel t <= 2 * length (ttoks t))%nat.
Proof.
  induction t as [a|v|z|d|str|fn args IHargs|els tl IHels IHtl] using term_ind'; intros Hp;
    try (simpl; lia).
  - simpl in Hp. apply andb_true_iff in Hp as [Hp Hargs]. apply andb_true_iff in Hp as [_ Hne].
    apply negb_true_iff, bool_decide_eq_false in Hne.
    rewrite ttoks_compound by exact Hne.
    pose proof (sum_pfuel_le args (Forall_printable _ _ IHargs Hargs)) as Hs.
    pose proof (length_commajoin (Token.COMMA, ",") (map ttoks args) ltac:(destruct args; [congruence|discriminate])) as Hl.
    rewrite length_map in Hl. destruct args as [|a0 args0]; [congruence|].
    cbn [pfuel]. cbn [length] in *. rewrite length_app. cbn [length]. lia.
  - simpl in Hp. apply andb_true_iff in Hp as [Hels Htl].
    pose proof (sum_pfuel_le els (Forall_printable _ _ IHels Hels)) as Hs.
    destruct (decide (els = [])) as [->|Hne].
    + destruct tl; [discriminate|]. simpl. lia.
    + pose proof (length_commajoin (Token.COMMA, ",") (map ttoks els) ltac:(destruct els; [congruence|discriminate])) as Hl.
      rewrite length_map in Hl.
      assert (Htt : ttoks (List els tl) = (Token.LBRACKET, "[") :: commajoin (Token.COMMA, ",") (map ttoks els)
              ++ (match tl with Some x => (Token.PIPE, "|") :: ttoks x | None => [] end)
              ++ [(Token.RBRACKET, "]")]) by reflexivity.
      rewrite Htt. cbn [pfuel length]. rewrite !length_app. cbn [length].
      destruct els as [|e0 els0]; [congruence|]. cbn [length] in Hl.
      destruct tl as [x|].
      * apply andb_true_iff in Htl as [_ Hx]. specialize (IHtl x eq_refl Hx). cbn [length]. lia.
      * cbn [length]. lia.
Qed.

Lemma tokenize_lexS (s : string) : tokenize s = lexS (String.length s) s.
Proof. reflexivity. Qed.

Lemma strip_length (l : list Token.Token) : length (strip l) = length l.
Proof. unfold strip. apply length_map. Qed.

Lemma lexS_nil (len : nat) : lexS len "" = [Token.mkToken Token.END_OF_INPUT "" len].
Proof. reflexivity. Qed.

(** The general round-trip: the printed text of [t] followed by [s]. *)
Lemma parseQuery_prefix (stod : string -> option double) (t : term) (s : string) :
  printable t = true -> follows t s = true ->
  (is_atom t = true -> hd_not Token.LPAREN (strip (lexS (String.length (toString t +:+ s)) s))) ->
  parseQuery stod (toString t +:+ s) = Some (inr t).
Proof.
  intros Hp Hs Ha. unfold parseQuery. rewrite tokenize_lexS.
  set (len := String.length (toString t +:+ s)) in *.
  pose proof (lex_term len t Hp s Hs) as Hlex.
  assert (Hf : (pfuel t <= term_fuel (lexS len (toString t +:+ s)))%nat).
  { pose proof (pfuel_bound t Hp). unfold term_fuel.
    rewrite <- strip_length, Hlex, length_app. lia. }
  rewrite (parse_term stod (lexS len (toString t +:+ s)) t Hp _ 0%nat _ Hf Hlex Ha). reflexivity.
Qed.


Lemma lex_clause (len : nat) (c : Clause) (s : string) :
  clause_printable c = true ->
  strip (lexS len ((clauseToString c +:+ newline) +:+ s)) = ctoks c ++ strip (lexS len s).
Proof.
  destruct c as [h b]. unfold clause_printable, clauseToString, ctoks. cbn [head body].
  intros Hc. apply andb_true_iff in Hc as [Hc Hlast]. apply andb_true_iff in Hc as [Hc Hb].
  apply andb_true_iff in Hc as [Hh Hi]. rewrite !sapp_assoc.
  destruct b as [|g gs].
  - change ((("" +:+ ?x))%string) with x.
    rewrite (lex_term len h Hh) by (simpl; exact Hi).
    change (("." +:+ ?x))%string with (String.String "."%char x).
    rewrite (lexS_tok _ _ _ _ (scan_char len "."%char Token.DOT _ ltac:(set_solver))).
    change ((newline +:+ ?x))%string with (String.String newline_char x).
    rewrite lexS_ws by reflexivity. rewrite <- !app_assoc. reflexivity.
  - rewrite !sapp_assoc. rewrite (lex_term len h Hh) by reflexivity.
    change ((" :- " +:+ ?x))%string with (String.String " "%char (":-" +:+ String.String " "%char x))%string.
    rewrite lexS_ws by reflexivity. rewrite (lexS_tok _ _ _ _ (scan_rule len _)).
    rewrite lexS_ws by reflexivity.
    rewrite lex_join; [| |exact Hb|].
    + change (("." +:+ ?x))%string with (String.String "."%char x).
      rewrite (lexS_tok _ _ _ _ (scan_char len "."%char Token.DOT _ ltac:(set_solver))).
      change ((newline +:+ ?x))%string with (String.String newline_char x).
      rewrite lexS_ws by reflexivity. rewrite <- ?app_assoc, <- ?app_comm_cons, <- ?app_assoc. reflexivity.
    + apply Forall_forall. intros a _. apply lex_term.
    + intros a Ha. rewrite Ha in Hlast. exact Hlast.
Qed.

Lemma lex_program (len : nat) (cs : list Clause) (s : string) :
  forallb clause_printable cs = true ->
  strip (lexS len (String.concat "" (map (λ c, clauseToString c +:+ newline)%string cs) +:+ s))
  = List.concat (map ctoks cs) ++ strip (lexS len s).
Proof.
  induction cs as [|c cs IH]; intros Hcs; [reflexivity|].
  simpl in Hcs. apply andb_true_iff in Hcs as [Hc Hcs].
  destruct cs as [|d cs'].
  - simpl. rewrite app_nil_r. apply lex_clause, Hc.
  - pose proof (IH Hcs) as IH'. cbn [map] in IH' |- *.
    rewrite concat_cons2, sapp_assoc, lex_clause by exact Hc.
    change (("" +:+ ?x))%string with x. rewrite IH'.
    cbn [List.concat]. rewrite app_assoc. reflexivity.
Qed.


Section ParseProgram.
Variable stod : string -> option double.
Variable tokens_ : list Token.Token.

Lemma isAtEnd_tok (n : nat) (ty : Token.TokenType) (v : string) (r : list ttok) :
  strip (drop n tokens_) = (ty, v) :: r ->
  isAtEnd tokens_ n = bool_decide (ty = Token.END_OF_INPUT).
Proof.
  intros H. destruct (strip_drop_cons n tokens_ ty v r H) as (tk & Hl & <- & _ & _).
  unfold isAtEnd. rewrite Hl. reflexivity.
Qed.

Lemma parse_clause (c : Clause) (tf n : nat) (rest : list ttok) :
  clause_printable c = true -> strip (drop n tokens_) = ctoks c ++ rest ->
  (pfuel (head c) <= tf)%nat -> (length (body c) + list_sum (map pfuel (body c)) <= tf)%nat ->
  parseClause stod tokens_ tf n = POk (Some c) (n + length (ctoks c)).
Proof.
  destruct c as [h b]. unfold clause_printable, ctoks. cbn [head body].
  intros Hc H Hf1 Hf2. apply andb_true_iff in Hc as [Hc Hlast]. apply andb_true_iff in Hc as [Hc Hb].
  apply andb_true_iff in Hc as [Hh Hi].
  rewrite <- app_assoc in H.
  destruct (ttoks_head h) as (ty & v & r & Ht & Hst).
  assert (Hne : isAtEnd tokens_ n = false).
  { rewrite Ht, <- app_comm_cons in H. rewrite (isAtEnd_tok _ _ _ _ H).
    apply bool_decide_eq_false. intros ->. discriminate. }
  unfold parseClause. rewrite Hne.
  rewrite (pbind_ok _ _ _ _ _ (parse_term stod tokens_ h Hh tf n _ Hf1 H
             ltac:(intros; destruct b; simpl; discriminate))).
  pose proof (strip_drop_app _ _ _ _ H) as H1.
  destruct b as [|g gs].
  - rewrite (pbind_ok _ _ _ _ _ (match_tok tokens_ _ _ Token.RULE_OP _ _ H1 ltac:(discriminate))). bd.
    cbn [negb].
    rewrite (pbind_ok _ _ _ _ _ (match_tok tokens_ _ _ Token.DOT _ _ H1 ltac:(discriminate))). bd.
    cbn [negb]. unfold pret. f_equal. rewrite !length_app. simpl. lia.
  - rewrite <- !app_comm_cons in H1.
    rewrite (pbind_ok _ _ _ _ _ (match_tok tokens_ _ _ Token.RULE_OP _ _ H1 ltac:(discriminate))). bd.
    cbn [negb].
    destruct (at_tok tokens_ _ _ _ _ H1 ltac:(discriminate)) as (_ & _ & H2).
    rewrite <- app_assoc in H2.
    rewrite (pbind_ok _ _ _ _ _ (parse_args_loop stod tokens_ (g :: gs)
               (proj2 (Forall_forall (parses_as stod tokens_) (g :: gs)) (λ a _, parse_term stod tokens_ a)) Hb ltac:(discriminate)
               tf [] _ _ Hf2 H2 ltac:(simpl; discriminate) ltac:(simpl; discriminate))).
    pose proof (strip_drop_app _ _ _ _ H2) as H3.
    rewrite (pbind_ok _ _ _ _ _ (match_tok tokens_ _ _ Token.DOT _ _ H3 ltac:(discriminate))). bd.
    cbn [negb]. unfold pret. f_equal. rewrite !length_app. cbn [length]. rewrite ?length_app. cbn [length]. lia.
Qed.

Lemma parseClauses_S (f tf : nat) (acc : list Clause) (n : nat) :
  parseClauses stod tokens_ (S f) tf acc n
  = if isAtEnd tokens_ n then POk acc n else
    (let+ clause := parseClause stod tokens_ tf in
     match clause with
     | Some c => parseClauses stod tokens_ f tf (acc ++ [c])
     | None => pret acc
     end) n.
Proof. reflexivity. Qed.

Lemma ctoks_head (c : Clause) : ∃ ty v r, ctoks c = (ty, v) :: r ∧ starts_term ty = true.
Proof.
  destruct (ttoks_head (head c)) as (ty & v & r & Ht & Hs). unfold ctoks. rewrite Ht.
  eexists _, _, _. split; [reflexivity|exact Hs].
Qed.

Lemma parse_clauses (cs : list Clause) (rest : list ttok) :
  forallb clause_printable cs = true ->
  ∀ f tf acc n, (length cs < f)%nat ->
  strip (drop n tokens_) = List.concat (map ctoks cs) ++ (Token.END_OF_INPUT, "") :: rest ->
  (∀ c, In c cs -> (pfuel (head c) <= tf)%nat ∧ (length (body c) + list_sum (map pfuel (body c)) <= tf)%nat) ->
  parseClauses stod tokens_ f tf acc n = POk (acc ++ cs) (n + length (List.concat (map ctoks cs))).
Proof.
  induction cs as [|c cs IH]; intros Hcs f tf acc n Hf H Hfu; (destruct f as [|f]; [simpl in Hf; lia|]);
    rewrite parseClauses_S.
  - simpl in H. rewrite (isAtEnd_tok _ _ _ _ H). rewrite app_nil_r, Nat.add_0_r. reflexivity.
  - simpl in Hcs. apply andb_true_iff in Hcs as [Hc Hcs].
    cbn [map List.concat] in H |- *. rewrite <- app_assoc in H.
    destruct (ctoks_head c) as (ty & v & r & Ht & Hst).
    assert (Hne : isAtEnd tokens_ n = false).
    { rewrite Ht, <- app_comm_cons in H. rewrite (isAtEnd_tok _ _ _ _ H).
      apply bool_decide_eq_false. intros ->. discriminate. }
    rewrite Hne. destruct (Hfu c (or_introl eq_refl)) as [Hf1 Hf2].
    rewrite (pbind_ok _ _ _ _ _ (parse_clause c tf n _ Hc H Hf1 Hf2)).
    pose proof (strip_drop_app _ _ _ _ H) as H1.
    rewrite (IH Hcs f tf (acc ++ [c]) _ ltac:(simpl in Hf; lia) H1 (λ c' Hc', Hfu c' (or_intror Hc'))).
    rewrite <- app_assoc, length_app. f_equal. lia.
Qed.

End ParseProgram.

Lemma length_ctoks (c : Clause) : clause_printable c = true ->
  (pfuel (head c) <= 2 * length (ctoks c))%nat ∧
  (length (body c) + list_sum (map pfuel (body c)) <= 2 * length (ctoks c))%nat ∧ (1 <= length (ctoks c))%nat.
Proof.
  destruct c as [h b]. unfold clause_printable, ctoks. cbn [head body].
  intros Hc. apply andb_true_iff in Hc as [Hc _]. apply andb_true_iff in Hc as [Hc Hb].
  apply andb_true_iff in Hc as [Hh _].
  pose proof (pfuel_bound h Hh) as Hph.
  pose proof (sum_pfuel_le b (Forall_printable _ _ (proj2 (Forall_forall _ b) (λ a _ Ha, pfuel_bound a Ha)) Hb)) as Hs.
  rewrite !length_app. cbn [length].
  destruct b as [|g gs]; [simpl; lia|].
  pose proof (length_commajoin (Token.COMMA, ",") (map ttoks (g :: gs)) ltac:(discriminate)) as Hl.
  rewrite length_map in Hl. cbn [length] in *. lia.
Qed.

Lemma length_concat_in {A} (l : list (list A)) (x : list A) :
  In x l -> (length x <= length (List.concat l))%nat.
Proof.
  induction l as [|y l IH]; intros Hin; [destruct Hin|]. cbn [List.concat]. rewrite length_app.
  destruct Hin as [->|Hin]; [lia|]. specialize (IH Hin). lia.
Qed.

Lemma length_concat_ctoks (cs : list Clause) :
  forallb clause_printable cs = true -> (length cs <= length (List.concat (map ctoks cs)))%nat.
Proof.
  induction cs as [|c cs IH]; intros Hcs; [simpl; lia|]. simpl in Hcs.
  apply andb_true_iff in Hcs as [Hc Hcs]. cbn [map List.concat]. rewrite length_app.
  destruct (length_ctoks c Hc) as (_ & _ & H1). specialize (IH Hcs). cbn [length]. lia.
Qed.

(** The program text printed from [cs] parses back to [cs]. *)
Lemma parseProgram_print (stod : string -> option double) (cs : list Clause) :
  forallb clause_printable cs = true ->
  parseProgram stod (String.concat "" (map (λ c, clauseToString c +:+ newline)%string cs)) = Some (inr cs).
Proof.
  intros Hcs. unfold parseProgram. cbv zeta. rewrite tokenize_lexS.
  set (text := String.concat "" (map (λ c, clauseToString c +:+ newline)%string cs)).
  set (len := String.length text).
  pose proof (lex_program len cs EmptyString Hcs) as Hlex. rewrite sapp_nil_r in Hlex.
  fold text in Hlex. rewrite lexS_nil in Hlex.
  pose proof (f_equal length Hlex) as Hlen. rewrite strip_length, length_app in Hlen. cbn [length strip map] in Hlen.
  pose proof (length_concat_ctoks cs Hcs) as Hlc.
  rewrite (parse_clauses stod (lexS len text) cs [] Hcs (S (length (lexS len text))) (term_fuel (lexS len text)) [] 0%nat ltac:(lia) Hlex).
  - reflexivity.
  - intros c Hin. assert (Hc : clause_printable c = true) by (eapply forallb_forall; eauto).
    destruct (length_ctoks c Hc) as (H1 & H2 & _).
    pose proof (length_concat_in (map ctoks cs) (ctoks c) ltac:(apply in_map; exact Hin)).
    unfold term_fuel. lia.
Qed.


Lemma lex_toString (t : term) : printable t = true ->
  strip (tokenize (toString t)) = ttoks t ++ [(Token.END_OF_INPUT, "")].
Proof.
  intros Hp. rewrite tokenize_lexS. rewrite <- (sapp_nil_r (toString t)) at 2.
  rewrite (lex_term _ t Hp EmptyString eq_refl), lexS_nil. reflexivity.
Qed.


Lemma compareTermsF_S (k : nat) (l r : term) :
  Builtins.compareTermsF (S k) l r = compareStep (Builtins.compareTermsF k) l r.
Proof.
  unfold compareStep. cbn [Builtins.compareTermsF]. cbv zeta.
  destruct (negb _); [reflexivity|].
  destruct l as [a|a|a|a|a|f1 a1|e1 t1], r as [b|b|b|b|b|f2 a2|e2 t2]; try reflexivity.
  - destruct (negb _); [reflexivity|]. destruct (negb _); [reflexivity|].
    revert a2. induction a1 as [|x a1 IH]; intros [|y a2]; try reflexivity.
    cbn [cmp_args]. rewrite <- IH. reflexivity.
  - assert (HL : ∀ xs ys, (fix lex (xs ys : list term) : bool :=
        match xs, ys with
        | _, [] => false
        | [], _ :: _ => true
        | x :: xs', y :: ys' =>
            if Builtins.compareTermsF k x y <? 0 then true
            else if Builtins.compareTermsF k y x <? 0 then false else lex xs' ys'
        end) xs ys = cmp_lex (Builtins.compareTermsF k) xs ys).
    { induction xs as [|x xs IH]; intros [|y ys]; try reflexivity.
      cbn [cmp_lex]. rewrite <- IH. reflexivity. }
    rewrite !HL. reflexivity.
Qed.

Lemma str_compare_antisym (a b : string) : Builtins.str_compare a b = - Builtins.str_compare b a.
Proof.
  unfold Builtins.str_compare. rewrite (String.compare_antisym a b).
  destruct (String.compare b a); reflexivity.
Qed.

Section Antisym.
Variable cmp : term -> term -> Z.
Hypothesis cmp_antisym : ∀ x y, float_free x = true -> float_free y = true -> cmp x y = - cmp y x.

Lemma cmp_args_antisym (xs ys : list term) :
  forallb float_free xs = true -> forallb float_free ys = true ->
  cmp_args cmp xs ys = - cmp_args cmp ys xs.
Proof using cmp_antisym.
  revert ys. induction xs as [|x xs IH]; intros [|y ys] Hx Hy; try reflexivity.
  simpl in Hx, Hy. apply andb_true_iff in Hx as [Hx Hxs]. apply andb_true_iff in Hy as [Hy Hys].
  cbn [cmp_args]. rewrite (cmp_antisym y x Hy Hx).
  destruct (Z.eqb_spec (cmp x y) 0) as [E|E].
  - rewrite E. simpl. apply IH; assumption.
  - destruct (Z.eqb_spec (- cmp x y) 0); [lia|]. lia.
Qed.

Lemma cmp_lex_asym (xs ys : list term) :
  forallb float_free xs = true -> forallb float_free ys = true ->
  cmp_lex cmp xs ys = true -> cmp_lex cmp ys xs = false.
Proof using cmp_antisym.
  revert ys. induction xs as [|x xs IH]; intros [|y ys] Hx Hy H; try discriminate; [reflexivity|].
  simpl in Hx, Hy. apply andb_true_iff in Hx as [Hx Hxs]. apply andb_true_iff in Hy as [Hy Hys].
  cbn [cmp_lex] in H |- *. rewrite (cmp_antisym y x Hy Hx) in H |- *.
  destruct (Z.ltb_spec (cmp x y) 0), (Z.ltb_spec (- cmp x y) 0);
    try lia; try discriminate; try reflexivity.
  apply IH; assumption.
Qed.

Lemma compareStep_antisym (l r : term) :
  float_free l = true -> float_free r = true -> compareStep cmp l r = - compareStep cmp r l.
Proof using cmp_antisym.
  intros Hl Hr. unfold compareStep.
  destruct (Z.eqb_spec (Builtins.getTermOrder l) (Builtins.getTermOrder r)) as [E|E].
  2:{ destruct (Z.eqb_spec (Builtins.getTermOrder r) (Builtins.getTermOrder l)); [lia|]. simpl. lia. }
  rewrite E, Z.eqb_refl. simpl negb. cbv iota.
  destruct l as [a|a|a|a|a|f1 a1|e1 t1], r as [b|b|b|b|b|f2 a2|e2 t2]; try discriminate;
    try reflexivity; try apply str_compare_antisym.
  - destruct (Z.ltb_spec a b), (Z.ltb_spec b a); try reflexivity; lia.
  - rewrite (str_compare_antisym f2 f1).
    destruct (Z.eqb_spec (Builtins.str_compare f1 f2) 0) as [E1|E1].
    + rewrite E1. simpl. rewrite (Nat.eqb_sym (Datatypes.length a2)).
      destruct (Nat.eqb_spec (Datatypes.length a1) (Datatypes.length a2)) as [E2|E2].
      * simpl. apply cmp_args_antisym; assumption.
      * simpl. destruct (Nat.ltb_spec (Datatypes.length a1) (Datatypes.length a2)),
                 (Nat.ltb_spec (Datatypes.length a2) (Datatypes.length a1)); try reflexivity; lia.
    + destruct (Z.eqb_spec (- Builtins.str_compare f1 f2) 0); [lia|]. simpl. lia.
  - simpl in Hl, Hr. apply andb_true_iff in Hl as [He1 Ht1]. apply andb_true_iff in Hr as [He2 Ht2].
    destruct (cmp_lex cmp e1 e2) eqn:L1.
    + rewrite (cmp_lex_asym e1 e2 He1 He2 L1). reflexivity.
    + destruct (cmp_lex cmp e2 e1) eqn:L2; [reflexivity|].
      destruct t1 as [x|], t2 as [y|]; try reflexivity. apply cmp_antisym; assumption.
Qed.

End Antisym.

Lemma compareTermsF_antisym (n : nat) (l r : term) :
  float_free l = true -> float_free r = true ->
  Builtins.compareTermsF n l r = - Builtins.compareTermsF n r l.
Proof.
  revert l r. induction n as [|k IH]; intros l r Hl Hr; [reflexivity|].
  rewrite !compareTermsF_S. apply compareStep_antisym; auto.
Qed.


Lemma compareTerms_antisym_aux (a b : term) :
  float_free a = true -> float_free b = true ->
  Builtins.compareTerms a b = - Builtins.compareTerms b a.
Proof.
  intros Ha Hb. unfold Builtins.compareTerms. rewrite (Nat.add_comm (Builtins.term_size b)).
  apply compareTermsF_antisym; assumption.
Qed.


Lemma first_arg_index_ok_empty : first_arg_index_ok emptyDatabase.
Proof. split; [intros k i []|split; [reflexivity|intros k _; reflexivity]]. Qed.

Lemma first_arg_index_ok_addClause (db : Database) (c : Clause) :
  first_arg_index_ok db -> first_arg_index_ok (addClause db c).
Proof.
  intros (Hb & He & Hc). unfold first_arg_index_ok. cbv zeta beta delta [addClause push_index].
  cbn [clauses_ first_arg_index_].
  set (fk := extractFirstArgKey (head c)).
  destruct (String.eqb_spec fk "") as [Hfk|Hfk].
  - split; [|split; [exact He|]].
    + intros k i Hi. rewrite length_app. specialize (Hb _ _ Hi). simpl. lia.
    + intros k Hk. rewrite List.filter_app. simpl. unfold fkeyIs at 2. fold fk. rewrite Hfk.
      destruct (String.eqb_spec "" k) as [<-|_]; [congruence|].
      rewrite clausesOf_app_r by (apply Hb). rewrite app_nil_r. apply Hc. exact Hk.
  - split; [|split].
    + intros k i Hi. rewrite length_app. simpl.
      destruct (decide (k = fk)) as [->|Hne].
      * rewrite lookup_insert_eq in Hi. simpl in Hi. apply in_app_or in Hi as [Hi|[<-|[]]].
        { specialize (Hb _ _ Hi). lia. }
        lia.
      * rewrite lookup_insert_ne in Hi by congruence. specialize (Hb _ _ Hi). lia.
    + rewrite lookup_insert_ne by congruence. exact He.
    + intros k Hk. rewrite List.filter_app. simpl. unfold fkeyIs at 2. fold fk.
      destruct (decide (k = fk)) as [->|Hne].
      * rewrite lookup_insert_eq, String.eqb_refl. simpl.
        rewrite clausesOf_snoc, clausesOf_app_r by (apply Hb). rewrite (Hc fk Hk). f_equal.
        simpl. rewrite lookup_app_r, Nat.sub_diag by lia. reflexivity.
      * rewrite lookup_insert_ne by congruence.
        destruct (String.eqb_spec fk k) as [Heq|_]; [congruence|].
        rewrite clausesOf_app_r by (apply Hb). rewrite app_nil_r. apply Hc. exact Hk.
Qed.

Lemma loadClauses_first_arg (db : Database) (cs : list Clause) :
  first_arg_index_ok db -> first_arg_index_ok (loadClauses db cs).
Proof.
  revert db. induction cs as [|c cs IH]; intros db Hdb; [exact Hdb|].
  simpl. apply IH, first_arg_index_ok_addClause, Hdb.
Qed.


Lemma isGround_occurs (t : term) : Builtins.isGround t = true <-> ∀ v, occursCheck v t = false.
Proof.
  induction t as [a|x|z|d|str|fn args IH|els tl IHe IHt] using term_ind'; simpl;
    try (split; [intros _ v; reflexivity|intros _; reflexivity]).
  - split; [discriminate|]. intros H. specialize (H x). rewrite String.eqb_refl in H. discriminate.
  - rewrite forallb_forall. split.
    + intros H v. apply not_true_iff_false. intros Hx. apply existsb_exists in Hx as (b & Hb & Hx).
      rewrite List.Forall_forall in IH. rewrite (proj1 (IH b Hb) (H b Hb)) in Hx. discriminate.
    + intros H b Hb. rewrite List.Forall_forall in IH. apply (IH b Hb). intros v.
      apply not_true_iff_false. intros Hx. specialize (H v).
      assert (existsb (occursCheck v) args = true) by (apply existsb_exists; exists b; auto). congruence.
  - rewrite andb_true_iff, forallb_forall. rewrite List.Forall_forall in IHe. split.
    + intros [H1 H2] v. apply orb_false_iff. split.
      * apply not_true_iff_false. intros Hx. apply existsb_exists in Hx as (b & Hb & Hx).
        rewrite (proj1 (IHe b Hb) (H1 b Hb)) in Hx. discriminate.
      * destruct tl as [y|]; [|reflexivity]. apply (IHt y eq_refl). exact H2.
    + intros H. split.
      * intros b Hb. apply (IHe b Hb). intros v. apply not_true_iff_false. intros Hx.
        specialize (H v). apply orb_false_iff in H as [H _].
        assert (existsb (occursCheck v) els = true) by (apply existsb_exists; exists b; auto). congruence.
      * destruct tl as [y|]; [|reflexivity]. apply (IHt y eq_refl). intros v.
        specialize (H v). apply orb_false_iff in H as [_ H]. exact H.
Qed.

Lemma forallb_false_ex {A} (f : A -> bool) (l : list A) :
  forallb f l = false -> ∃ x, In x l ∧ f x = false.
Proof.
  induction l as [|x l IH]; simpl; [discriminate|]. intros H.
  apply andb_false_iff in H as [H|H]; [exists x; auto|].
  destruct (IH H) as (y & Hy & Hf). exists y. auto.
Qed.

Lemma isGround_false (t : term) : Builtins.isGround t = false -> ∃ v, occursCheck v t = true.
Proof.
  induction t as [a|x|z|d|str|fn args IH|els tl IHe IHt] using term_ind'; simpl; try discriminate.
  - intros _. exists x. apply String.eqb_refl.
  - intros H. apply forallb_false_ex in H as (b & Hb & Hg) .
    rewrite List.Forall_forall in IH. destruct (IH b Hb Hg) as (v & Hv).
    exists v. apply existsb_exists. exists b. auto.
  - intros H. apply andb_false_iff in H as [H|H].
    + apply forallb_false_ex in H as (b & Hb & Hg).
      rewrite List.Forall_forall in IHe. destruct (IHe b Hb Hg) as (v & Hv).
      exists v. apply orb_true_iff. left. apply existsb_exists. exists b. auto.
    + destruct tl as [y|]; [|discriminate]. destruct (IHt y eq_refl H) as (v & Hv).
      exists v. apply orb_true_iff. right. exact Hv.
Qed.


Lemma collect_list_spec (ts : list term) (acc : list string) :
  Forall collects_as ts ->
  let r := (fix collect_list (ts : list term) (acc : list string) : list string :=
              match ts with [] => acc | x :: xs => collect_list xs (collectVariables x acc) end) ts acc in
  (∀ v, In v r <-> In v acc ∨ existsb (occursCheck v) ts = true) ∧ (NoDup acc -> NoDup r).
Proof.
  intros H. revert acc. induction H as [|x xs Hx _ IH]; intros acc; cbv zeta.
  - split; [|auto]. intros v. simpl. split; [intros; left; assumption|intros [?|?]; [assumption|discriminate]].
  - destruct (IH (collectVariables x acc)) as [I1 I2]. destruct (Hx acc) as [J1 J2].
    split; [|intros; apply I2, J2; assumption].
    intros v. rewrite I1, J1. simpl. rewrite orb_true_iff. tauto.
Qed.

Lemma collectVariables_spec (t : term) : collects_as t.
Proof.
  induction t as [a|x|z|d|str|fn args IH|els tl IHe IHt] using term_ind'; intros acc;
    try (split; [intros v; simpl; split; [left; exact H|intros [H|H]; [exact H|discriminate]]|auto]).
  - simpl. destruct (existsb (String.eqb x) acc) eqn:E.
    + split; [|auto]. intros v. split; [left; exact H|]. intros [H|H]; [exact H|].
      apply String.eqb_eq in H as ->. apply existsb_exists in E as (y & Hy & Hxy).
      apply String.eqb_eq in Hxy as ->. exact Hy.
    + split.
      * intros v. rewrite in_app_iff. simpl. rewrite String.eqb_eq. intuition congruence.
      * intros Hn. apply NoDup_app. split; [exact Hn|]. split; [|apply NoDup_singleton].
        intros y Hy Hy'. apply list_elem_of_singleton in Hy' as ->.
        apply list_elem_of_In in Hy. assert (existsb (String.eqb x) acc = true); [|congruence].
        apply existsb_exists. exists x. split; [exact Hy|apply String.eqb_refl].
  - exact (collect_list_spec args acc IH).
  - cbn [collectVariables]. destruct (collect_list_spec els acc IHe) as [I1 I2].
    destruct tl as [y|].
    + pose proof (IHt y eq_refl) as Hy. split.
      * intros v. rewrite (proj1 (Hy _)), I1. simpl. rewrite orb_true_iff. tauto.
      * intros. apply (proj2 (Hy _)), I2. assumption.
    + split; [|exact I2]. intros v. rewrite I1. simpl. rewrite orb_false_r. tauto.
Qed.

Lemma collectVariablesFromTerm_spec_aux (t : term) :
  NoDup (collectVariablesFromTerm t) ∧
  ∀ v, In v (collectVariablesFromTerm t) <-> occursCheck v t = true.
Proof.
  destruct (collectVariables_spec t []) as [H1 H2]. split.
  - apply H2, NoDup_nil_2.
  - intros v. unfold collectVariablesFromTerm. rewrite H1. simpl. tauto.
Qed.

Lemma filterBindings_go (bs : Substitution) (qv : list string) (m : Substitution) (v : string) :
  fold_left (λ filtered varName,
               match bs !! varName with
               | Some t => <[varName := t]> filtered
               | None => filtered
               end) qv m !! v
  = if bool_decide (v ∈ qv) then (match bs !! v with Some t => Some t | None => m !! v end) else m !! v.
Proof.
  revert m. induction qv as [|x qv IH]; intros m; [reflexivity|]. simpl fold_left. rewrite IH.
  destruct (decide (x = v)) as [->|Hne].
  - rewrite (bool_decide_eq_true_2 (v ∈ v :: qv)) by apply list_elem_of_here.
    destruct (bs !! v) as [t|] eqn:E; [|destruct (bool_decide (v ∈ qv)); reflexivity].
    rewrite lookup_insert_eq. destruct (bool_decide (v ∈ qv)); reflexivity.
  - assert (Hm : match bs !! x with Some t => <[x := t]> m | None => m end !! v = m !! v).
    { destruct (bs !! x); [apply lookup_insert_ne; exact Hne|reflexivity]. }
    rewrite Hm. destruct (bool_decide_reflect (v ∈ qv)) as [Hi|Hi].
    + rewrite (bool_decide_eq_true_2 (v ∈ x :: qv)) by (apply list_elem_of_further; exact Hi). reflexivity.
    + rewrite (bool_decide_eq_false_2 (v ∈ x :: qv)); [reflexivity|].
      intros E. apply elem_of_cons in E as [E|E]; [congruence|contradiction].
Qed.


Lemma dereference_unbound (f : nat) (bs : Substitution) (t : term) :
  (∀ x, t = Var x -> bs !! x = None) -> dereference (S f) t bs = Some t.
Proof.
  intros H. destruct t; try reflexivity. simpl. rewrite (H name eq_refl). reflexivity.
Qed.

Lemma occursCheck_generated (x : string) (k : nat) :
  (∀ i, (i < k)%nat -> x ≠ ("_G" +:+ pretty i)%string) ->
  occursCheck x (List (map (λ i, Var ("_G" +:+ pretty i)%string) (seq 0 k)) None) = false.
Proof.
  intros H. simpl. rewrite orb_false_r. apply not_true_iff_false. intros E.
  apply existsb_exists in E as (t & Ht & Ex). apply in_map_iff in Ht as (i & <- & Hi).
  apply in_seq in Hi. cbn [occursCheck] in Ex. apply String.eqb_eq in Ex. apply (H i); [lia|]. symmetry. exact Ex.
Qed.


Lemma skipWhitespace_idem (s : string) : skipWhitespace (skipWhitespace s) = skipWhitespace s.
Proof.
  induction s as [|c s IH]; [reflexivity|]. simpl. destruct (isWhitespace c) eqn:E; [exact IH|].
  simpl. rewrite E. reflexivity.
Qed.

Lemma scan_skipWhitespace (len : nat) (s : string) : scan len (skipWhitespace s) = scan len s.
Proof. unfold scan. rewrite skipWhitespace_idem. reflexivity. Qed.

Lemma scan_token_shape (len : nat) (s : string) (tk : Token.Token) (r : string) :
  scan len s = Some (Some tk, r) ->
  Token.position tk = (len - String.length (skipWhitespace s))%nat ∧ Token.type tk ≠ Token.END_OF_INPUT.
Proof.
  unfold scan. destruct (skipWhitespace s) as [|c s1]; [discriminate|].
  intros H. injection H as H.
  repeat match type of H with
  | (if ?b then _ else _) = _ => destruct b
  | (let '(_, _) := ?p in _) = _ => destruct p
  | (match ?x with EmptyString => _ | String.String _ _ => _ end) = _ => destruct x
  end;
  try discriminate H; injection H as <- <-; split; try reflexivity; try discriminate.
  destruct (has_dot _); discriminate.
Qed.

Lemma lex_positions (f len : nat) (s : string) :
  (String.length s < f)%nat -> (String.length s <= len)%nat ->
  ∃ pre, lex f len s = pre ++ [Token.mkToken Token.END_OF_INPUT "" len] ∧
         Forall (λ tk, Token.type tk ≠ Token.END_OF_INPUT ∧
                       (len - String.length s <= Token.position tk < len)%nat) pre ∧
         increasing (map Token.position (lex f len s)).
Proof.
  revert s. induction f as [|f IH]; intros s Hf Hl; [lia|].
  rewrite lex_step. destruct (scan len s) as [[[tk|] r]|] eqn:E.
  - pose proof E as E'. rewrite <- scan_skipWhitespace in E'. apply scan_length in E'.
    pose proof (skipWhitespace_length s) as Hw.
    destruct (scan_token_shape len s tk r E) as [Hp Ht].
    destruct (IH r ltac:(lia) ltac:(lia)) as (pre & Hpre & Hall & Hinc).
    exists (tk :: pre). split; [rewrite Hpre; reflexivity|]. split.
    + constructor; [split; [exact Ht|lia]|].
      eapply Forall_impl; [exact Hall|]. intros t [H1 H2]. split; [exact H1|lia].
    + rewrite Hpre in Hinc |- *. cbn [map app] in Hinc |- *.
      destruct pre as [|t pre]; cbn [map app] in Hinc |- *.
      * cbn [Token.position]. split; [lia|exact I].
      * split; [|exact Hinc]. inversion Hall as [|? ? [_ Ht'] _]. lia.
  - pose proof (scan_length len s None r E).
    destruct (IH r ltac:(lia) ltac:(lia)) as (pre & Hpre & Hall & Hinc).
    exists pre. split; [exact Hpre|]. split; [|exact Hinc].
    eapply Forall_impl; [exact Hall|]. intros t [H1 H2]. split; [exact H1|lia].
  - exists []. split; [reflexivity|]. split; [constructor|exact I].
Qed.


Lemma scan_strip_len (len1 len2 : nat) (s : string) : scan_strip len1 s = scan_strip len2 s.
Proof.
  unfold scan_strip, scan. destruct (skipWhitespace s) as [|c s1]; [reflexivity|]. cbv zeta.
  repeat match goal with
  | |- context [if ?b then _ else _] => destruct b
  | |- context [let '(_, _) := ?p in _] => destruct p
  | |- context [match ?x with EmptyString => _ | String.String _ _ => _ end] => destruct x
  end; reflexivity.
Qed.

Lemma lex_strip_len (f len1 len2 : nat) (s : string) :
  strip (lex f len1 s) = strip (lex f len2 s).
Proof.
  revert s. induction f as [|f IH]; intros s; [reflexivity|]. rewrite !lex_step.
  pose proof (scan_strip_len len1 len2 s) as E. unfold scan_strip in E.
  destruct (scan len1 s) as [[[tk1|] r1]|], (scan len2 s) as [[[tk2|] r2]|]; simpl in E;
    try discriminate; try reflexivity.
  - injection E as E1 E2 <-. unfold strip in *. cbn [map]. rewrite E1, E2. f_equal. apply IH.
  - injection E as <-. apply IH.
Qed.

Lemma skipComment_line (c s : string) : no_newline c = true -> skipComment (c +:+ newline +:+ s) = s.
Proof.
  induction c as [|d c IH]; intros H; [reflexivity|]. simpl in H. apply andb_true_iff in H as [Hd Hc].
  rewrite sapp_cons. simpl. apply negb_true_iff in Hd. rewrite Hd. apply IH, Hc.
Qed.

(* ================================================================== *)
(** * The claims *)

(** C2 (code bug).  Unification does not keep the bindings acyclic.  The
    empty substitution is acyclic, yet [unify(f(Y,X), f(X,g(Y)))] succeeds
    with [{Y ↦ X, X ↦ g(Y)}], from which following the bindings of [X]
    never ends: when [X] is bound to [g(Y)] the occurs check looks at
    [g(Y)] as written and does not dereference [Y] (bound to [X]) under the
    substitution. *)
Theorem C2_unify_breaks_acyclicity :
  acyclic ∅ ∧
  unify 20 occurs_t1 occurs_t2 ∅ = Some (Some cyclic_unifier, cyclic_unifier) ∧
  occursCheck "X" (Compound "g" [Var "Y"]) = false ∧
  ¬ acyclic cyclic_unifier.
Proof.
  split; [exact acyclic_empty|]. split; [exact unify_occurs_example|].
  split; [reflexivity|exact cyclic_unifier_not_acyclic].
Qed.

(** C3 (code bug).  A unifier need not unify: [unify(f(Y,X), f(X,g(Y)))]
    from the empty substitution returns [S' = {Y ↦ X, X ↦ g(Y)}], and
    applying [S'] to either term does not return, with any amount of
    fuel. *)
Theorem C3_unifier_application_diverges :
  unify 20 occurs_t1 occurs_t2 ∅ = Some (Some cyclic_unifier, cyclic_unifier) ∧
  ∀ n, applySubstitution n cyclic_unifier occurs_t1 = None ∧
       applySubstitution n cyclic_unifier occurs_t2 = None.
Proof.
  split; [exact unify_occurs_example|].
  intros [|n]; [split; reflexivity|].
  destruct (cyclic_unifier_diverges n) as (HX & HY & _).
  unfold occurs_t1, occurs_t2. simpl. rewrite HX, HY. split; reflexivity.
Qed.

(** C10 (counterexample).  A failed unification is not undone:
    [unify(f(X,a), f(b,c), ∅)] fails but leaves [X ↦ b] in the caller's
    substitution, and [f(X,a) \= f(b,c)] succeeds passing that binding on
    to its continuation. *)
Lemma C10_counterexample :
  let t1 := Compound "f" [Var "X"; Atom "a"] in
  let t2 := Compound "f" [Atom "b"; Atom "c"] in
  unify 20 t1 t2 ∅ = Some (None, {[ "X" := Atom "b" ]}) ∧
  {[ "X" := Atom "b" ]} ≠ (∅ : Substitution) ∧
  Builtins.notEqual 20 [t1; t2] ∅ = Some (BSols [{[ "X" := Atom "b" ]}]).
Proof.
  split; [vm_compute; reflexivity|]. split; [|vm_compute; reflexivity].
  apply map_non_empty_singleton.
Qed.

(** C10 (amended).  [unify(t1, t2, S)] never removes or changes a binding
    of [S]: whether it succeeds or fails, [S] on return holds every binding
    it held at entry, plus possibly bindings of variables that were
    unbound (on failure, those made before the failing point). *)
Theorem C10_unify_only_extends (n : nat) (t1 t2 : term) (S S' : Substitution)
    (r : option Substitution) :
  unify n t1 t2 S = Some (r, S') -> S ⊆ S'.
Proof.
  unfold unify. destruct (unifyInternal n t1 t2 S) as [[ok s']|] eqn:E; [|discriminate].
  intros H. injection H as _ <-. exact (unifyInternal_extends _ _ _ _ _ _ E).
Qed.

Lemma C10_unify_only_extends_witness :
  unify 20 (Compound "f" [Var "X"; Atom "a"]) (Compound "f" [Atom "b"; Atom "c"]) ∅
    = Some (None, {[ "X" := Atom "b" ]}) ∧
  (∅ : Substitution) ⊆ {[ "X" := Atom "b" ]}.
Proof.
  assert (H : unify 20 (Compound "f" [Var "X"; Atom "a"]) (Compound "f" [Atom "b"; Atom "c"]) ∅
              = Some (None, {[ "X" := Atom "b" ]})) by (vm_compute; reflexivity).
  split; [exact H|]. exact (C10_unify_only_extends _ _ _ _ _ _ H).
Defined.

(** C1 (counterexample).  With the two [append] clauses loaded, the query
    [append(X,Y,[1,2,3])] has no solution at all, not four: the built-in
    [append/3] is tried instead of the clauses and fails because its first
    argument is not a list. *)
Lemma C1_counterexample : solve0 100 append_program append_query_split = Some [].
Proof. vm_compute. reflexivity. Qed.

(** C1 (amended).  Whatever the database holds (the two [append] clauses
    included), [append/3] goals are answered by the built-in, which appends
    two lists given as lists: [append(X,Y,[1,2,3])] yields no solution and
    [append([a,b],[c,d],X)] yields exactly one, [X = [a,b,c,d]]. *)
Theorem C1_builtin_append_answers (db : Database) :
  solve0 100 db append_query_split = Some [] ∧
  solve0 100 db append_query_concat
    = Some [ {[ "X" := List [Atom "a"; Atom "b"; Atom "c"; Atom "d"] None ]} ].
Proof. split; vm_compute; reflexivity. Qed.

(** C4 (counterexample).  With [fruit(apple). fruit(pear).] loaded,
    [\+ fruit(carrot)] yields no solution (the claim expects one): the
    inner goal is not a built-in, so [\+] fails without consulting the
    database. *)
Lemma C4_counterexample :
  solve0 100 fruit_program (not_fruit "carrot") = Some [] ∧
  solve0 100 fruit_program (not_fruit "apple") = Some [].
Proof. split; vm_compute; reflexivity. Qed.

(** C4 (amended).  [\+(G)] does not consult the database.  With [G'] the
    goal [G] under the current bindings: if [G'] is not a call of a
    built-in predicate, [\+(G)] fails; if it is, that built-in is run on a
    copy of the bindings, and [\+(G)] succeeds once with the bindings
    unchanged exactly when the built-in produced no solution. *)
Theorem C4_negation_runs_builtins_only (f : nat) (G G' : term) (bindings : Substitution)
    (r : BuiltinResult) :
  applySubstitution f bindings G = Some G' ->
  Builtins.callBuiltin (Datatypes.S f) "\+" 1 [G] bindings = Some r ->
  (builtinGoal G' = None -> r = BFail) ∧
  (∀ fn args, builtinGoal G' = Some (fn, args) ->
     ∃ r', Builtins.callBuiltin f fn (length args) args bindings = Some r' ∧
           r = if Builtins.called_back r' then BFail else BSols [bindings]).
Proof.
  intros HG Hr. rewrite callBuiltin_not_provable in Hr.
  unfold Builtins.not_provable, Builtins.apply in Hr. rewrite HG in Hr. simpl in Hr.
  destruct G' as [a|v|z|d|str|fn0 args0|els tl]; simpl;
    try (injection Hr as <-; split; [reflexivity|intros fn args Hb; discriminate]).
  - destruct (Builtins.isBuiltin a 0) eqn:Hb.
    + split; [discriminate|]. intros fn args Heq. injection Heq as <- <-.
      apply bind_Some in Hr as (r' & Hr' & Hr). exists r'. split; [exact Hr'|].
      injection Hr as <-. reflexivity.
    + injection Hr as <-. split; [reflexivity|intros fn args Heq; discriminate].
  - destruct (Builtins.isBuiltin fn0 (length args0)) eqn:Hb.
    + split; [discriminate|]. intros fn args Heq. injection Heq as <- <-.
      apply bind_Some in Hr as (r' & Hr' & Hr). exists r'. split; [exact Hr'|].
      injection Hr as <-. reflexivity.
    + injection Hr as <-. split; [reflexivity|intros fn args Heq; discriminate].
Qed.

Lemma C4_negation_runs_builtins_only_witness :
  ∃ r', Builtins.callBuiltin 10 "=" 2 [Atom "a"; Atom "b"] ∅ = Some r' ∧
        BSols [∅] = if Builtins.called_back r' then BFail else BSols [∅].
Proof.
  assert (H1 : applySubstitution 10 ∅ (Compound "=" [Atom "a"; Atom "b"])
               = Some (Compound "=" [Atom "a"; Atom "b"])) by (vm_compute; reflexivity).
  assert (H2 : Builtins.callBuiltin 11 "\+" 1 [Compound "=" [Atom "a"; Atom "b"]] ∅
               = Some (BSols [∅])) by (vm_compute; reflexivity).
  exact (proj2 (C4_negation_runs_builtins_only 10 _ _ ∅ (BSols [∅]) H1 H2)
           "=" [Atom "a"; Atom "b"] eq_refl).
Defined.

(** C5 (code bug).  [is/2] computes in doubles and turns every integral
    result into an Integer.  [X is (10*2+5)/5 - 1] binds [X] to the
    Integer [4], not the Float [4.0] (the claim and
    tests/test_more_builtins.cpp expect a Float), and [X is 2.0 + 2.0],
    with two Float operands, also gives the Integer [4]. *)
Theorem C5_is_integral_result_is_integer (db : Database) :
  solve0 100 db arith_query = Some [ {[ "X" := Integer 4 ]} ] ∧
  solve0 100 db float_sum_query = Some [ {[ "X" := Integer 4 ]} ].
Proof. split; vm_compute; reflexivity. Qed.

(** C7 (code bug).  Two complete runs of [p(X)] over [p(Y).] in one
    process give different answers: the renaming suffix contains [rand()],
    whose state carries over from run to run, so [X] is bound to
    [Y_1_1804289383] the first time and to [Y_1_846930886] the second
    time. *)
Theorem C7_runs_differ :
  match solve 100 p_program p_query Rand.initial with
  | Some (first_run, r) =>
      first_run = [ {[ "X" := Var "Y_1_1804289383" ]} ] ∧
      fst <$> solve 100 p_program p_query r = Some [ {[ "X" := Var "Y_1_846930886" ]} ]
  | None => False
  end.
Proof. vm_compute. split; reflexivity. Qed.

(** C8 (counterexample).  With [p(a). p(b).] loaded, the clauses taken for
    the goal [p(a)] are both clauses, although the head [p(b)] has a
    non-variable first argument with another first-argument key. *)
Lemma C8_counterexample :
  findMatchingClauses ab_program (Compound "p" [Atom "a"])
    = [makeFact (Compound "p" [Atom "a"]); makeFact (Compound "p" [Atom "b"])] ∧
  extractFirstArgKey (Compound "p" [Atom "b"]) ≠ extractFirstArgKey (Compound "p" [Atom "a"]).
Proof. split; [vm_compute; reflexivity|intros H; vm_compute in H; discriminate]. Qed.

(** C8 (amended).  For a database loaded clause by clause, the clauses
    taken for a goal are all the clauses whose head has the goal's
    functor and arity, in insertion order, whatever the first arguments;
    the first-argument index is not consulted. *)
Theorem C8_matching_is_predicate_index (cs : list Clause) (goal : term) :
  findMatchingClauses (loadClauses emptyDatabase cs) goal
  = List.filter (keyIs (extractFunctorArity goal)) cs.
Proof.
  destruct (loadClauses_spec emptyDatabase cs index_ok_empty) as [[_ Hc] Hcl].
  unfold findMatchingClauses, clausesAt. rewrite <- Hcl at 2. rewrite <- (Hc (extractFunctorArity goal)).
  rewrite Hcl. reflexivity.
Qed.

(** C6 (counterexample): the substitutions of the composition test in
    tests/test_unification.cpp, [s1 = {X ↦ a}] and [s2 = {Y ↦ X}].
    [compose(s1, s2)] maps [Y] to [a], while applying [s1] and then [s2] to
    [Y] gives [X]. *)
Lemma C6_counterexample :
  (compose 10 {[ "X" := Atom "a" ]} {[ "Y" := Var "X" ]}
     ≫= λ R, applySubstitution 10 R (Var "Y")) = Some (Atom "a") ∧
  (applySubstitution 10 {[ "X" := Atom "a" ]} (Var "Y")
     ≫= applySubstitution 10 {[ "Y" := Var "X" ]}) = Some (Var "X").
Proof. vm_compute. split; reflexivity. Qed.

(** C6 (amended): for substitutions [s1] and [s2] with disjoint domains, if
    [compose(s1, s2)] returns [R] and applying the union of [s1] and [s2]
    (each variable bound as in the one of the two that binds it) to a term
    [t] returns [r], then applying [R] to [t] also returns [r]. *)
Theorem C6_compose_is_union (n : nat) (s1 s2 R : Substitution) (t r : term) :
  s1 ##ₘ s2 -> compose n s1 s2 = Some R -> evals (s1 ∪ s2) t r -> evals R t r.
Proof.
  intros Hdisj HR [m Hm]. exists m. exact (compose_union n s1 s2 R Hdisj HR m t r Hm).
Qed.

Lemma C6_compose_is_union_witness :
  {[ "X" := Atom "a" ]} ##ₘ ({[ "Y" := Var "X" ]} : Substitution) ∧
  compose 10 {[ "X" := Atom "a" ]} {[ "Y" := Var "X" ]}
    = Some (<[ "X" := Atom "a" ]> {[ "Y" := Atom "a" ]}) ∧
  evals ({[ "X" := Atom "a" ]} ∪ {[ "Y" := Var "X" ]}) (Var "Y") (Atom "a") ∧
  evals (<[ "X" := Atom "a" ]> {[ "Y" := Atom "a" ]}) (Var "Y") (Atom "a").
Proof.
  assert (Hd : {[ "X" := Atom "a" ]} ##ₘ ({[ "Y" := Var "X" ]} : Substitution))
    by (apply map_disjoint_singleton_l, lookup_singleton_None; discriminate).
  assert (HR : compose 10 {[ "X" := Atom "a" ]} {[ "Y" := Var "X" ]}
               = Some (<[ "X" := Atom "a" ]> {[ "Y" := Atom "a" ]}))
    by (vm_compute; reflexivity).
  assert (He : evals ({[ "X" := Atom "a" ]} ∪ {[ "Y" := Var "X" ]}) (Var "Y") (Atom "a"))
    by (exists 3%nat; vm_compute; reflexivity).
  split; [exact Hd|]. split; [exact HR|]. split; [exact He|].
  exact (C6_compose_is_union 10 _ _ _ _ _ Hd HR He).
Defined.

(** C9: let [X is E] be the first goal, and let the bindings applied to [X],
    to [E] and to the remaining goals return [X'], [E'] and the remaining
    goals.  If [E'] contains an unbound variable, or a [/], [//] or [mod]
    node whose second operand evaluates to zero, then [solveGoals] returns
    -1 (failure, so the caller backtracks) with the resolver's state
    unchanged: no solution is handed to the callback and the call returns
    normally. *)
Theorem C9_arith_error_fails (db : Database) (md : nat) (cb : Substitution -> bool)
    (l e l' e' : term) (rest : list term) (bindings : Substitution) (pcl : nat) (st : RState) :
  evals bindings l l' -> evals bindings e e' ->
  Forall (λ g, ∃ g', evals bindings g g') rest ->
  arith_error bindings e' ->
  ∃ n, solveGoals db md cb n (Compound "is" [l; e] :: rest) bindings pcl st = Some (-1, st).
Proof.
  intros Hl He Hrest Herr.
  assert (Hg : evals bindings (Compound "is" [l; e]) (Compound "is" [l'; e'])).
  { apply evals_compound. exists [l'; e']. split; [reflexivity|].
    constructor; [exact Hl|]. constructor; [exact He|constructor]. }
  destruct Hg as [kg Hkg].
  destruct (ex_Forall2 _ _ Hrest) as [rs Hrs].
  destruct (Forall2_evals_fuel _ _ _ Hrs) as [kr Hkr].
  assert (Hul : ∀ x, occursCheck x l' = true -> bindings !! x = None)
    by (intros x; exact (evals_unbound bindings l l' x Hl)).
  assert (Hue : ∀ x, occursCheck x e' = true -> bindings !! x = None)
    by (intros x; exact (evals_unbound bindings e e' x He)).
  destruct (evals_id _ _ Hul) as [kl Hkl]. destruct (evals_id _ _ Hue) as [ke Hke].
  destruct (arith_error_evaluates_to_none _ _ Herr Hue) as [nv Hnv].
  set (N := (kg + kr + kl + ke + nv)%nat).
  exists (Datatypes.S (Datatypes.S (Datatypes.S N))).
  apply (is_goal_fails db md cb (Datatypes.S (Datatypes.S N)) l e l' e' rest rs).
  - eapply applySubstitution_mono; [|exact Hkg]. unfold N; lia.
  - apply mapM_Some. eapply Forall2_impl; [exact Hkr|].
    intros a c. apply applySubstitution_mono. unfold N; lia.
  - apply (is_arith_error (Datatypes.S N)).
    + eapply applySubstitution_mono; [|exact Hkl]. unfold N; lia.
    + eapply applySubstitution_mono; [|exact Hke]. unfold N; lia.
    + eapply evaluate_mono; [|exact Hnv]. unfold N; lia.
Qed.

Lemma C9_arith_error_fails_witness :
  (evals ∅ (Var "X") (Var "X") ∧
   evals ∅ (Compound "/" [Integer 1; Integer 0]) (Compound "/" [Integer 1; Integer 0]) ∧
   Forall (λ g, ∃ g', evals ∅ g g') ([] : list term) ∧
   arith_error ∅ (Compound "/" [Integer 1; Integer 0])) ∧
  ∃ n, solveGoals emptyDatabase default_max_depth (λ _, true) n
         [Compound "is" [Var "X"; Compound "/" [Integer 1; Integer 0]]] ∅ 0
         (mkRState 0 false Rand.initial [])
       = Some (-1, mkRState 0 false Rand.initial []).
Proof.
  assert (H1 : evals ∅ (Var "X") (Var "X")) by (exists 1%nat; reflexivity).
  assert (H2 : evals ∅ (Compound "/" [Integer 1; Integer 0]) (Compound "/" [Integer 1; Integer 0]))
    by (exists 2%nat; reflexivity).
  assert (H3 : Forall (λ g, ∃ g', evals ∅ g g') ([] : list term)) by constructor.
  assert (H4 : arith_error ∅ (Compound "/" [Integer 1; Integer 0])).
  { apply (ae_zero ∅ "/" (Integer 1) (Integer 0) 2 (Dbl.of_Z 0)).
    - left. reflexivity.
    - vm_compute. reflexivity.
    - vm_compute. reflexivity. }
  split; [split; [exact H1|split; [exact H2|split; [exact H3|exact H4]]]|].
  exact (C9_arith_error_fails emptyDatabase default_max_depth (λ _, true) _ _ _ _ []
           ∅ 0 (mkRState 0 false Rand.initial []) H1 H2 H3 H4).
Defined.

(* ================================================================== *)
(** * Further properties of the code *)

(** X1: the tokens of a printed term are the term's tokens followed by
    [END_OF_INPUT]. *)
Theorem tokenize_toString (t : term) : printable t = true ->
  strip (tokenize (toString t)) = ttoks t ++ [(Token.END_OF_INPUT, "")].
Proof. apply lex_toString. Qed.

Lemma tokenize_toString_witness :
  printable (Compound "parent" [Atom "tom"; Var "X"]) = true ∧
  strip (tokenize (toString (Compound "parent" [Atom "tom"; Var "X"])))
  = ttoks (Compound "parent" [Atom "tom"; Var "X"]) ++ [(Token.END_OF_INPUT, "")].
Proof.
  assert (H : printable (Compound "parent" [Atom "tom"; Var "X"]) = true) by (vm_compute; reflexivity).
  split; [exact H|]. exact (tokenize_toString _ H).
Defined.

(** X2: [tokenize] ends its output with the one [END_OF_INPUT] token, at
    the position just past the input; the other tokens lie inside the
    input, at strictly increasing positions. *)
Theorem tokenize_positions (input : string) :
  ∃ pre, tokenize input = pre ++ [Token.mkToken Token.END_OF_INPUT "" (String.length input)] ∧
         Forall (λ tk, Token.type tk ≠ Token.END_OF_INPUT ∧ (Token.position tk < String.length input)%nat) pre ∧
         increasing (map Token.position (tokenize input)).
Proof.
  destruct (lex_positions (S (String.length input)) (String.length input) input ltac:(lia) ltac:(lia))
    as (pre & H1 & H2 & H3).
  exists pre. unfold tokenize. split; [exact H1|]. split; [|exact H3].
  eapply Forall_impl; [exact H2|]. intros t [Ht Hp]. split; [exact Ht|lia].
Qed.

(** X3: a [%] comment running up to a newline produces no token: the
    tokens after it are those of the rest of the input (positions
    apart). *)
Theorem tokenize_comment (c s : string) :
  no_newline c = true ->
  strip (tokenize (String.String "%"%char (c +:+ newline +:+ s))) = strip (tokenize s).
Proof.
  intros Hc. rewrite !tokenize_lexS.
  set (len := String.length (String.String "%"%char (c +:+ newline +:+ s))).
  assert (E : scan len (String.String "%"%char (c +:+ newline +:+ s)) = Some (None, s)).
  { unfold scan. simpl. rewrite skipComment_line by exact Hc. reflexivity. }
  rewrite (lexS_skip _ _ _ E). unfold lexS. apply lex_strip_len.
Qed.

Lemma tokenize_comment_witness :
  strip (tokenize (String.String "%"%char (" a comment" +:+ newline +:+ "foo."))) = strip (tokenize "foo.").
Proof. apply tokenize_comment. vm_compute. reflexivity. Defined.

(** X4: printing a term and parsing it back as a query gives the term. *)
Theorem parseQuery_toString (stod : string -> option double) (t : term) :
  printable t = true -> parseQuery stod (toString t) = Some (inr t).
Proof.
  intros Hp. rewrite <- (sapp_nil_r (toString t)).
  apply parseQuery_prefix; [exact Hp|reflexivity|]. intros _. rewrite lexS_nil. simpl. discriminate.
Qed.

Lemma parseQuery_toString_witness :
  printable (Compound "parent" [Atom "tom"; Var "X"]) = true ∧
  parseQuery (λ _, None) (toString (Compound "parent" [Atom "tom"; Var "X"]))
  = Some (inr (Compound "parent" [Atom "tom"; Var "X"])).
Proof.
  assert (H : printable (Compound "parent" [Atom "tom"; Var "X"]) = true) by (vm_compute; reflexivity).
  split; [exact H|]. exact (parseQuery_toString _ _ H).
Defined.

(** X5: the text after the printed form of a term that is not an atom is not
    looked at by [parseQuery]. *)
Theorem parseQuery_ignores_rest (stod : string -> option double) (t : term) (s : string) :
  printable t = true -> is_atom t = false -> follows t s = true ->
  parseQuery stod (toString t +:+ s) = Some (inr t).
Proof.
  intros Hp Ha Hs. apply parseQuery_prefix; [exact Hp|exact Hs|]. rewrite Ha. discriminate.
Qed.

Lemma parseQuery_ignores_rest_witness :
  parseQuery (λ _, None) (toString (Compound "parent" [Atom "tom"; Var "X"]) +:+ ", ignored(")
  = Some (inr (Compound "parent" [Atom "tom"; Var "X"])).
Proof.
  apply parseQuery_ignores_rest; vm_compute; reflexivity.
Defined.

(** X6: a database printed by [Database::toString] loads back into an empty
    database with the same clauses, in the same order. *)
Theorem loadProgram_toString (stod : string -> option double) (db : Database) :
  forallb clause_printable (clauses_ db) = true ->
  loadProgram stod emptyDatabase (databaseToString db)
  = Some (None, loadClauses emptyDatabase (clauses_ db))
  ∧ clauses_ (loadClauses emptyDatabase (clauses_ db)) = clauses_ db.
Proof.
  intros Hcs. split.
  - unfold loadProgram, databaseToString. rewrite parseProgram_print by exact Hcs. reflexivity.
  - apply (loadClauses_spec emptyDatabase (clauses_ db) index_ok_empty).
Qed.

Lemma loadProgram_toString_witness :
  let db := loadClauses emptyDatabase
              [makeFact (Compound "parent" [Atom "tom"; Atom "bob"]);
               makeRule (Compound "grandparent" [Var "X"; Var "Z"])
                        [Compound "parent" [Var "X"; Var "Y"]; Compound "parent" [Var "Y"; Var "Z"]]] in
  loadProgram (λ _, None) emptyDatabase (databaseToString db)
  = Some (None, loadClauses emptyDatabase (clauses_ db))
  ∧ clauses_ (loadClauses emptyDatabase (clauses_ db)) = clauses_ db.
Proof.
  intros db. apply loadProgram_toString. vm_compute. reflexivity.
Defined.

(** X7: a program made of one term without its final ['.'] is refused, with
    the position of the error counted in tokens, and the database is left
    unchanged. *)
Theorem loadProgram_missing_dot (stod : string -> option double) (db : Database) (t : term) :
  printable t = true ->
  loadProgram stod db (toString t)
  = Some (Some (RuntimeError ("Failed to load program: Parse error at position "
                               +:+ pretty (S (length (ttoks t))) +:+ ": Expected ':-' or '.' after term")), db).
Proof.
  intros Hp. unfold loadProgram, parseProgram. cbv zeta.
  set (tokens := tokenize (toString t)).
  assert (H : strip (drop 0 tokens) = ttoks t ++ [(Token.END_OF_INPUT, "")]) by apply (lex_toString t Hp).
  assert (Hlen : length tokens = S (length (ttoks t))).
  { rewrite <- strip_length. rewrite drop_0 in H. rewrite H, length_app. simpl. lia. }
  destruct (ttoks_head t) as (ty & v & r & Ht & Hst).
  assert (Hne : isAtEnd tokens 0 = false).
  { pose proof H as H'. rewrite Ht in H'. rewrite (isAtEnd_tok tokens _ _ _ _ H').
    apply bool_decide_eq_false. intros ->. discriminate. }
  assert (Hf : (pfuel t <= term_fuel tokens)%nat).
  { pose proof (pfuel_bound t Hp). unfold term_fuel. lia. }
  pose proof (strip_drop_app _ _ _ _ H) as H1. simpl in H1.
  assert (Hend : isAtEnd tokens (length (ttoks t)) = true) by (rewrite (isAtEnd_tok _ _ _ _ _ H1); reflexivity).
  assert (Hcl : parseClause stod tokens (term_fuel tokens) 0%nat
                = PErr (ParseException ("Parse error at position "
                         +:+ pretty (S (length (ttoks t))) +:+ ": Expected ':-' or '.' after term"))).
  { unfold parseClause. rewrite Hne.
    rewrite (pbind_ok _ _ _ _ _ (parse_term stod tokens t Hp _ 0%nat _ Hf H ltac:(intros; simpl; discriminate))).
    simpl Nat.add.
    rewrite (pbind_ok _ _ _ _ _ (match_not tokens _ Token.RULE_OP ltac:(rewrite H1; simpl; discriminate))).
    cbn beta iota.
    rewrite (pbind_ok _ _ _ _ _ (match_not tokens _ Token.DOT ltac:(rewrite H1; simpl; discriminate))).
    cbn beta iota. unfold error. rewrite Hend, Hlen. reflexivity. }
  rewrite parseClauses_S, Hne. unfold pbind at 1. rewrite Hcl. reflexivity.
Qed.

Lemma loadProgram_missing_dot_witness :
  loadProgram (λ _, None) emptyDatabase (toString (Compound "parent" [Atom "tom"; Var "X"]))
  = Some (Some (RuntimeError ("Failed to load program: Parse error at position "
                               +:+ pretty (S (length (ttoks (Compound "parent" [Atom "tom"; Var "X"]))))
                               +:+ ": Expected ':-' or '.' after term")), emptyDatabase).
Proof. apply loadProgram_missing_dot. vm_compute. reflexivity. Defined.



(** X9: a term without floats compares equal to itself. *)
Theorem compareTerms_refl (a : term) : float_free a = true -> Builtins.compareTerms a a = 0.
Proof.
  intros Ha. unfold Builtins.compareTerms.
  pose proof (compareTermsF_antisym (Builtins.term_size a + Builtins.term_size a) a a Ha Ha). lia.
Qed.

Lemma compareTerms_refl_witness :
  Builtins.compareTerms (Compound "parent" [Atom "tom"; Var "X"]) (Compound "parent" [Atom "tom"; Var "X"]) = 0.
Proof. apply compareTerms_refl. reflexivity. Defined.

(** X10: [A < B] and [B > A] give the same answer when the instantiated
    arguments have no floats. *)
Theorem lessThan_greaterThan_swap (fuel : nat) (bs : Substitution) (a b a' b' : term) :
  applySubstitution fuel bs a = Some a' -> applySubstitution fuel bs b = Some b' ->
  float_free a' = true -> float_free b' = true ->
  Builtins.lessThan fuel [a; b] bs = Builtins.greaterThan fuel [b; a] bs.
Proof.
  intros Ha Hb Fa Fb. unfold Builtins.lessThan, Builtins.greaterThan, Builtins.test2, Builtins.apply.
  rewrite Ha, Hb. simpl. rewrite (compareTerms_antisym_aux b' a' Fb Fa).
  destruct (Z.ltb_spec (Builtins.compareTerms a' b') 0), (Z.ltb_spec 0 (- Builtins.compareTerms a' b'));
    try reflexivity; lia.
Qed.

Lemma lessThan_greaterThan_swap_witness :
  Builtins.lessThan 10 [Var "X"; Atom "a"] {[ "X" := Integer 3 ]}
  = Builtins.greaterThan 10 [Atom "a"; Var "X"] {[ "X" := Integer 3 ]}.
Proof.
  apply (lessThan_greaterThan_swap 10 {[ "X" := Integer 3 ]} (Var "X") (Atom "a") (Integer 3) (Atom "a"));
    vm_compute; reflexivity.
Defined.

(** X11: in a database loaded clause by clause, [findClauses(f, n)] returns
    the clauses whose head has functor [f] and arity [n], in insertion
    order. *)
Theorem findClauses_loaded (cs : list Clause) (functor : string) (arity : nat) :
  findClauses (loadClauses emptyDatabase cs) functor arity
  = List.filter (keyIs (makeKey functor arity)) cs.
Proof.
  destruct (loadClauses_spec emptyDatabase cs index_ok_empty) as [[_ Hc] Hcl].
  unfold findClauses, clausesAt. rewrite <- Hcl at 2. rewrite <- (Hc (makeKey functor arity)).
  rewrite Hcl. reflexivity.
Qed.

(** X12: in a database loaded clause by clause,
    [findClausesWithFirstArg(f, n, a)] returns the clauses whose head's
    first-argument key is the key of [f/n] with first argument [a], in
    insertion order, and nothing at all when that key is empty (a variable
    or a list as [a]). *)
Theorem findClausesWithFirstArg_loaded (cs : list Clause) (functor : string) (arity : nat) (a : term) :
  findClausesWithFirstArg (loadClauses emptyDatabase cs) functor arity a
  = if String.eqb (makeFirstArgKey functor arity a) "" then []
    else List.filter (fkeyIs (makeFirstArgKey functor arity a)) cs.
Proof.
  destruct (loadClauses_first_arg emptyDatabase cs first_arg_index_ok_empty) as (_ & He & Hc).
  destruct (loadClauses_spec emptyDatabase cs index_ok_empty) as [_ Hcl].
  unfold findClausesWithFirstArg, clausesAt.
  destruct (String.eqb_spec (makeFirstArgKey functor arity a) "") as [E|E].
  - rewrite E, He. reflexivity.
  - rewrite <- Hcl at 2. rewrite <- (Hc _ E). rewrite Hcl. reflexivity.
Qed.

(** X13: [ground/1] succeeds, with the bindings unchanged, when the
    instantiated argument has no variable; otherwise it fails, and the
    instantiated argument has a variable that is unbound. *)
Theorem ground_handler (fuel : nat) (bs : Substitution) (a a' : term) :
  applySubstitution fuel bs a = Some a' ->
  (Builtins.ground fuel [a] bs = Some (BSols [bs]) ∧ ∀ v, occursCheck v a' = false)
  ∨ (Builtins.ground fuel [a] bs = Some BFail ∧ ∃ v, occursCheck v a' = true ∧ bs !! v = None).
Proof.
  intros Ha. unfold Builtins.ground, Builtins.test1, Builtins.apply. rewrite Ha. simpl.
  destruct (Builtins.isGround a') eqn:G.
  - left. split; [reflexivity|]. apply isGround_occurs, G.
  - right. split; [reflexivity|].
    destruct (isGround_false a' G) as (v & Hv).
    exists v. split; [exact Hv|]. apply (evals_unbound bs a a' v); [exists fuel; exact Ha|exact Hv].
Qed.

Lemma ground_handler_witness :
  (Builtins.ground 10 [Compound "f" [Var "X"]] {[ "X" := Atom "a" ]} = Some (BSols [{[ "X" := Atom "a" ]}])
   ∧ ∀ v, occursCheck v (Compound "f" [Atom "a"]) = false)
  ∨ (Builtins.ground 10 [Compound "f" [Var "X"]] {[ "X" := Atom "a" ]} = Some BFail
     ∧ ∃ v, occursCheck v (Compound "f" [Atom "a"]) = true ∧ ({[ "X" := Atom "a" ]} : Substitution) !! v = None).
Proof. apply ground_handler. vm_compute. reflexivity. Defined.

(** X14: applying a substitution is idempotent: once it returns a term,
    applying the substitution again to that term returns it unchanged. *)
Theorem applySubstitution_idempotent (n : nat) (s : Substitution) (t r : term) :
  applySubstitution n s t = Some r -> ∃ m, applySubstitution m s r = Some r.
Proof.
  intros H. apply evals_id. intros x Hx. apply (evals_unbound s t r x); [exists n; exact H|exact Hx].
Qed.

Lemma applySubstitution_idempotent_witness :
  ∃ m, applySubstitution m {[ "X" := Compound "g" [Var "Y"] ]} (Compound "f" [Compound "g" [Var "Y"]])
       = Some (Compound "f" [Compound "g" [Var "Y"]]).
Proof.
  apply (applySubstitution_idempotent 10 {[ "X" := Compound "g" [Var "Y"] ]} (Compound "f" [Var "X"])).
  vm_compute. reflexivity.
Defined.

(** X15: [collectVariablesFromTerm] lists each variable of the term exactly
    once, and nothing else. *)
Theorem collectVariablesFromTerm_spec (t : term) :
  NoDup (collectVariablesFromTerm t) ∧
  ∀ v, In v (collectVariablesFromTerm t) <-> occursCheck v t = true.
Proof. apply collectVariablesFromTerm_spec_aux. Qed.

(** X16: [filterBindings] keeps exactly the bindings of the listed
    variables. *)
Theorem filterBindings_lookup (bs : Substitution) (qv : list string) (v : string) :
  filterBindings bs qv !! v = if bool_decide (v ∈ qv) then bs !! v else None.
Proof.
  unfold filterBindings. rewrite filterBindings_go.
  destruct (bool_decide (v ∈ qv)); [destruct (bs !! v); reflexivity|reflexivity].
Qed.

(** X17: every answer of [solve] binds only variables of the query. *)
Theorem solve_answer_vars (fuel : nat) (db : Database) (query : term) (r : Rand.RandState)
    (res : list Substitution * Rand.RandState) :
  solve fuel db query r = Some res ->
  ∀ a v t, In a res.1 -> a !! v = Some t -> occursCheck v query = true.
Proof.
  unfold solve. destruct (solveGoals _ _ _ _ _ _ _ _) as [[? st]|]; [|discriminate].
  intros H. injection H as <-. simpl. intros a v t Ha Hv.
  apply in_map_iff in Ha as (s & <- & _).
  unfold filterBindings in Hv. rewrite filterBindings_go in Hv.
  destruct (bool_decide_reflect (v ∈ collectVariablesFromTerm query)) as [Hi|_]; [|discriminate].
  apply (proj2 (collectVariablesFromTerm_spec_aux query) v), list_elem_of_In, Hi.
Qed.

Lemma solve_answer_vars_witness :
  match solve 100 p_program p_query Rand.initial with
  | Some res => res.1 ≠ [] ∧ ∀ a v t, In a res.1 -> a !! v = Some t -> occursCheck v p_query = true
  | None => False
  end.
Proof.
  pose proof (solve_answer_vars 100 p_program p_query Rand.initial) as H.
  remember (solve 100 p_program p_query Rand.initial) as o eqn:E.
  vm_compute in E. subst o. split; [discriminate|]. apply H. reflexivity.
Defined.

(** X18: [length(L, N)] with [L] an unbound variable and [N] a non-negative
    integer binds [L] to a list of [N] variables named [_G0], [_G1], ...
    whatever the bindings, so two such calls share their variables. *)
Theorem length_unbound (f : nat) (bs : Substitution) (a b : term) (x : string) (n : Z) :
  applySubstitution (S (S f)) bs a = Some (Var x) ->
  applySubstitution (S (S f)) bs b = Some (Integer n) ->
  0 <= n ->
  (∀ i, (i < Z.to_nat n)%nat -> x ≠ ("_G" +:+ pretty i)%string) ->
  Builtins.length (S (S f)) [a; b] bs
  = Some (BSols [<[x := List (map (λ i, Var ("_G" +:+ pretty i)%string) (seq 0 (Z.to_nat n))) None]> bs]).
Proof.
  intros Ha Hb Hn Hx. assert (Hu : bs !! x = None).
  { apply (evals_unbound bs a (Var x) x); [exists (S (S f)); exact Ha|apply String.eqb_refl]. }
  unfold Builtins.length, Builtins.apply. rewrite Ha, Hb. simpl.
  simpl. rewrite (proj2 (Z.leb_le 0 n) Hn).
  pose proof (occursCheck_generated x (Z.to_nat n) Hx) as Ho.
  remember (map (λ i, Var ("_G" +:+ pretty i)%string) (seq 0 (Z.to_nat n))) as g eqn:Eg.
  unfold unify. cbn [unifyInternal].
  rewrite (dereference_unbound f bs (Var x)) by (intros y [= <-]; exact Hu).
  rewrite (dereference_unbound f bs (List g None)) by discriminate.
  simpl. simpl in Ho. rewrite Ho. reflexivity.
Qed.

Lemma length_unbound_witness :
  Builtins.length 10 [Var "L"; Integer 2] ∅
  = Some (BSols [<[ "L" := List (map (λ i, Var ("_G" +:+ pretty i)%string) (seq 0 (Z.to_nat 2))) None ]> ∅]).
Proof.
  apply (length_unbound 8 ∅ (Var "L") (Integer 2) "L" 2); [reflexivity|reflexivity|lia|].
  intros i _ E. apply (f_equal (String.get 0)) in E. vm_compute in E. discriminate.
Defined.

(** X19: [length(L, N)] with [L] a variable and [N] a negative integer
    fails. *)
Theorem length_negative (fuel : nat) (bs : Substitution) (a b : term) (x : string) (n : Z) :
  applySubstitution fuel bs a = Some (Var x) ->
  applySubstitution fuel bs b = Some (Integer n) ->
  n < 0 ->
  Builtins.length fuel [a; b] bs = Some BFail.
Proof.
  intros Ha Hb Hn. unfold Builtins.length, Builtins.apply. rewrite Ha, Hb. simpl.
  destruct (Z.leb_spec 0 n); [lia|reflexivity].
Qed.

Lemma length_negative_witness : Builtins.length 10 [Var "L"; Integer (-1)] ∅ = Some BFail.
Proof. apply (length_negative 10 ∅ (Var "L") (Integer (-1)) "L" (-1)); [reflexivity|reflexivity|lia]. Defined.

(** X20: [X = T] with [X] unbound binds [X] to the instantiated [T] when
    [X] does not occur in it. *)
Theorem equal_binds_var (f : nat) (bs : Substitution) (a b t : term) (x : string) :
  applySubstitution (S (S f)) bs a = Some (Var x) ->
  applySubstitution (S (S f)) bs b = Some t ->
  occursCheck x t = false ->
  Builtins.equal (S (S f)) [a; b] bs = Some (BSols [<[x := t]> bs]).
Proof.
  intros Ha Hb Hx. assert (Hu : bs !! x = None).
  { apply (evals_unbound bs a (Var x) x); [exists (S (S f)); exact Ha|apply String.eqb_refl]. }
  unfold Builtins.equal, Builtins.apply. rewrite Ha, Hb. simpl.
  unfold unify. cbn [unifyInternal].
  rewrite (dereference_unbound f bs (Var x)) by (intros y [= <-]; exact Hu).
  rewrite (dereference_unbound f bs t).
  2:{ intros y ->. apply (evals_unbound bs b (Var y) y); [exists (S (S f)); exact Hb|apply String.eqb_refl]. }
  simpl. destruct t; try (rewrite Hx; reflexivity).
  simpl in Hx. destruct (String.eqb_spec x name) as [->|_]; [|reflexivity].
  rewrite String.eqb_refl in Hx. discriminate.
Qed.

Lemma equal_binds_var_witness :
  Builtins.equal 10 [Var "X"; Compound "f" [Atom "a"]] ∅ = Some (BSols [<[ "X" := Compound "f" [Atom "a"] ]> ∅]).
Proof. apply (equal_binds_var 8); reflexivity. Defined.

(** X21: [append(A, B, C)] with [A] and [B] instantiated to lists and [C]
    an unbound variable binds [C] to the concatenation of their elements,
    as a closed list: the tails of [A] and [B] are dropped. *)
Theorem append_binds_var (f : nat) (bs : Substitution) (a b c : term)
    (l1 l2 : list term) (t1 t2 : option term) (x : string) :
  applySubstitution (S (S f)) bs a = Some (List l1 t1) ->
  applySubstitution (S (S f)) bs b = Some (List l2 t2) ->
  applySubstitution (S (S f)) bs c = Some (Var x) ->
  occursCheck x (List (l1 ++ l2) None) = false ->
  Builtins.append (S (S f)) [a; b; c] bs = Some (BSols [<[x := List (l1 ++ l2) None]> bs]).
Proof.
  intros Ha Hb Hc Hx. assert (Hu : bs !! x = None).
  { apply (evals_unbound bs c (Var x) x); [exists (S (S f)); exact Hc|apply String.eqb_refl]. }
  unfold Builtins.append, Builtins.apply. rewrite Ha, Hb, Hc. simpl.
  remember (l1 ++ l2) as l eqn:El.
  unfold unify. cbn [unifyInternal].
  rewrite (dereference_unbound f bs (Var x)) by (intros y [= <-]; exact Hu).
  rewrite (dereference_unbound f bs (List l None)) by discriminate.
  simpl. simpl in Hx. rewrite Hx. reflexivity.
Qed.

Lemma append_binds_var_witness :
  Builtins.append 10 [List [Atom "a"] (Some (Var "T")); List [Atom "b"] None; Var "X"] ∅
  = Some (BSols [<[ "X" := List ([Atom "a"] ++ [Atom "b"]) None ]> ∅]).
Proof. apply (append_binds_var 8 ∅ _ _ _ _ _ (Some (Var "T")) None); reflexivity. Defined.



(** X23: [divide/3] ([/] with three arguments) fails when its second
    argument is the integer zero. *)
Theorem divide_by_zero (fuel : nat) (bs : Substitution) (a b c a' c' : term) :
  applySubstitution fuel bs a = Some a' ->
  applySubstitution fuel bs b = Some (Integer 0) ->
  applySubstitution fuel bs c = Some c' ->
  Builtins.divide fuel [a; b; c] bs = Some BFail.
Proof.
  intros Ha Hb Hc. unfold Builtins.divide, Builtins.arith3, Builtins.apply. rewrite Ha, Hb, Hc.
  simpl. destruct (Builtins.isNumber a'); reflexivity.
Qed.

Lemma divide_by_zero_witness : Builtins.divide 10 [Integer 4; Integer 0; Var "X"] ∅ = Some BFail.
Proof. apply (divide_by_zero 10 ∅ _ _ _ (Integer 4) (Var "X")); reflexivity. Defined.
